(** * Neon Velocity: the per-frame simulation of the lane-dodging game

    A shallow embedding of the React component's game logic ([startGame],
    [gameOver], the animation-frame callback [update], the key listeners and
    the shop's [buyItem]) together with the properties of its spawn policy,
    movement, collision resolution, status timers, difficulty progression,
    input handling and purchases.

    Conventions of the embedding.
    - A JavaScript [number] that holds a coordinate, a speed, a time stamp,
      the difficulty or a random draw is an exact rational ([Q]); counters
      that only ever hold integers (score, coins, the four status timers, an
      obstacle's flicker timer) are [Z].  Rounding of IEEE doubles is not
      modelled.
    - [useState] values are the fields of [State].  A callback sees the
      snapshot of the render that created it; calls of the setters are
      collected, in program order, as a list of [Effect]s that React applies
      to the state after the callback ([applyEffects]).
    - [useRef] boxes are the fields of [Refs]; they are read and written in
      place, so [update] threads them through.
    - [Math.random] is a tape [nat -> Q] indexed by the number of calls made
      so far; [Math.sin] is a function handed in by the host. *)

From Stdlib Require Import QArith Qminmax Qabs Qround ZArith List Lia Lqa Bool.
From stdpp Require Import gmap strings.
Import ListNotations.

Open Scope Q_scope.

(** ** Numbers *)

Definition Qltb (a b : Q) : bool := negb (Qle_bool b a).
Definition Qgtb (a b : Q) : bool := Qltb b a.
Definition Qgeb (a b : Q) : bool := Qle_bool b a.

Infix "<?" := Qltb (at level 70, no associativity) : Q_scope.
Infix ">?" := Qgtb (at level 70, no associativity) : Q_scope.
Infix "<=?" := Qle_bool (at level 70, no associativity) : Q_scope.
Infix ">=?" := Qgeb (at level 70, no associativity) : Q_scope.

(** [Math.sign] *)
Definition Math_sign (a : Q) : Q :=
  if a >? 0 then 1 else if a <? 0 then -1 else 0.

(** ** Constants *)

Definition CANVAS_WIDTH : Q := 400.
Definition CANVAS_HEIGHT : Q := 600.
Definition CAR_WIDTH : Q := 40.
Definition CAR_HEIGHT : Q := 70.
Definition INITIAL_ENEMY_SPEED : Q := 7.
Definition ENEMY_SPAWN_RATE : Q := 1200.
Definition ROAD_STRIPE_SPEED : Q := 5.

(** ** Entity model *)

Inductive PowerUpType := SHIELD | BOOST | MULTIPLIER | COIN.
Inductive ObstacleType := CAR | BARRIER | OIL | LASER | GRAVITY | PLATFORM | CHASER.
Inductive TireType := STANDARD | GRIP | DRIFT.
Inductive GameState := START | PLAYING | GAMEOVER | SETTINGS.
Inductive DifficultyLevel := EASY | NORMAL | HARD.

Inductive Color :=
| css (code : string)
| hsl (hue : Q).

#[global] Instance PowerUpType_eq_dec : EqDecision PowerUpType.
Proof. solve_decision. Defined.
#[global] Instance ObstacleType_eq_dec : EqDecision ObstacleType.
Proof. solve_decision. Defined.
#[global] Instance TireType_eq_dec : EqDecision TireType.
Proof. solve_decision. Defined.
#[global] Instance GameState_eq_dec : EqDecision GameState.
Proof. solve_decision. Defined.
#[global] Instance DifficultyLevel_eq_dec : EqDecision DifficultyLevel.
Proof. solve_decision. Defined.

(** [interface GameObject]; the player is one. *)
Module GameObject.
Record t := mk { x : Q; y : Q; width : Q; height : Q; color : Color }.
Definition set_x (v : Q) (o : t) : t := mk v (y o) (width o) (height o) (color o).
Definition set_color (c : Color) (o : t) : t := mk (x o) (y o) (width o) (height o) c.
End GameObject.

(** [interface PowerUp extends GameObject].  [type] is [None] when the
    source stores [undefined] there, which happens only if the index into
    the three-element [types] array falls outside it. *)
Module PowerUp.
Record t := mk {
    x : Q; y : Q; width : Q; height : Q; color : Color;
    type : option PowerUpType;
    speed : Q
  }.
Definition set_y (v : Q) (p : t) : t :=
    mk (x p) v (width p) (height p) (color p) (type p) (speed p).
End PowerUp.

(** [interface Enemy extends GameObject]; the optional fields are options. *)
Module Enemy.
Record t := mk {
    x : Q; y : Q; width : Q; height : Q; color : Color;
    type : ObstacleType;
    speed : Q;
    vx : option Q;
    direction : option Q;
    timer : option Z;
    active : option bool;
    pull : option Q
  }.
Definition set_x (v : Q) (e : t) : t :=
    mk v (y e) (width e) (height e) (color e) (type e) (speed e)
       (vx e) (direction e) (timer e) (active e) (pull e).
Definition set_y (v : Q) (e : t) : t :=
    mk (x e) v (width e) (height e) (color e) (type e) (speed e)
       (vx e) (direction e) (timer e) (active e) (pull e).
Definition set_direction (v : Q) (e : t) : t :=
    mk (x e) (y e) (width e) (height e) (color e) (type e) (speed e)
       (vx e) (Some v) (timer e) (active e) (pull e).
Definition set_timer (v : Z) (e : t) : t :=
    mk (x e) (y e) (width e) (height e) (color e) (type e) (speed e)
       (vx e) (direction e) (Some v) (active e) (pull e).
Definition set_active (v : bool) (e : t) : t :=
    mk (x e) (y e) (width e) (height e) (color e) (type e) (speed e)
       (vx e) (direction e) (timer e) (Some v) (pull e).
(** [!enemy.active]: [undefined] is falsy. *)
Definition not_active (e : t) : bool :=
    match active e with Some b => negb b | None => true end.
End Enemy.

(** ** React state, refs, host and per-frame input *)

(** The [useState] values the simulation reads or writes. *)
Record State := mkState {
  gameState : GameState;
  score : Z;
  highScore : Z;
  difficulty : Q;
  difficultyLevel : DifficultyLevel;
  carColor : Color;
  tireType : TireType;
  activeShield : Z;
  activeMultiplier : Z;
  activeBoost : Z;
  isSliding : Z;
  coins : Z
}.

(** The [useRef] boxes of the simulation, and the number of
    [Math.random] calls made so far. *)
Record Refs := mkRefs {
  playerRef : GameObject.t;
  enemiesRef : list Enemy.t;
  powerUpsRef : list PowerUp.t;
  lastSpawnTimeRef : Q;
  lastCoinRewardTimeRef : Q;
  roadOffsetRef : Q;
  randomCalls : nat
}.

Record Host := mkHost {
  Math_sin : Q -> Q;
  Math_random : nat -> Q
}.

(** What one animation frame reads from outside: the time stamp, the key
    dictionary and touch flags kept by the input handlers, and whether the
    canvas yields a drawing context. *)
Record Input := mkInput {
  time : Q;
  keysRef : gmap string bool;
  touch_left : bool;
  touch_right : bool;
  has_ctx : bool
}.

(** [keysRef.current[k]]: a missing key reads [undefined], which is falsy. *)
Definition key_down (inp : Input) (k : string) : bool :=
  default false (keysRef inp !! k).

Inductive Sound := collect | crash | highscore | engine.

(** The setter calls (and sound triggers) a callback can make.  The [_incr],
    [_add] and [_decr] forms are the functional updates [c => c + 1],
    [s => s + n] and [s => s - 1]; the others store a value. *)
Inductive Effect :=
| setGameState (g : GameState)
| setScore (v : Z)
| setScore_add (n : Z)
| setHighScore (v : Z)
| setDifficulty (d : Q)
| setCoins_incr
| setActiveShield (v : Z)
| setActiveShield_decr
| setActiveMultiplier (v : Z)
| setActiveMultiplier_decr
| setActiveBoost (v : Z)
| setActiveBoost_decr
| setIsSliding (v : Z)
| setIsSliding_decr
| playSound (s : Sound).

Definition applyEffect (s : State) (e : Effect) : State :=
  match e with
  | setGameState g =>
      mkState g (score s) (highScore s) (difficulty s) (difficultyLevel s) (carColor s)
        (tireType s) (activeShield s) (activeMultiplier s) (activeBoost s) (isSliding s) (coins s)
  | setScore v =>
      mkState (gameState s) v (highScore s) (difficulty s) (difficultyLevel s) (carColor s)
        (tireType s) (activeShield s) (activeMultiplier s) (activeBoost s) (isSliding s) (coins s)
  | setScore_add n =>
      mkState (gameState s) (score s + n)%Z (highScore s) (difficulty s) (difficultyLevel s) (carColor s)
        (tireType s) (activeShield s) (activeMultiplier s) (activeBoost s) (isSliding s) (coins s)
  | setHighScore v =>
      mkState (gameState s) (score s) v (difficulty s) (difficultyLevel s) (carColor s)
        (tireType s) (activeShield s) (activeMultiplier s) (activeBoost s) (isSliding s) (coins s)
  | setDifficulty d =>
      mkState (gameState s) (score s) (highScore s) d (difficultyLevel s) (carColor s)
        (tireType s) (activeShield s) (activeMultiplier s) (activeBoost s) (isSliding s) (coins s)
  | setCoins_incr =>
      mkState (gameState s) (score s) (highScore s) (difficulty s) (difficultyLevel s) (carColor s)
        (tireType s) (activeShield s) (activeMultiplier s) (activeBoost s) (isSliding s) (coins s + 1)%Z
  | setActiveShield v =>
      mkState (gameState s) (score s) (highScore s) (difficulty s) (difficultyLevel s) (carColor s)
        (tireType s) v (activeMultiplier s) (activeBoost s) (isSliding s) (coins s)
  | setActiveShield_decr =>
      mkState (gameState s) (score s) (highScore s) (difficulty s) (difficultyLevel s) (carColor s)
        (tireType s) (activeShield s - 1)%Z (activeMultiplier s) (activeBoost s) (isSliding s) (coins s)
  | setActiveMultiplier v =>
      mkState (gameState s) (score s) (highScore s) (difficulty s) (difficultyLevel s) (carColor s)
        (tireType s) (activeShield s) v (activeBoost s) (isSliding s) (coins s)
  | setActiveMultiplier_decr =>
      mkState (gameState s) (score s) (highScore s) (difficulty s) (difficultyLevel s) (carColor s)
        (tireType s) (activeShield s) (activeMultiplier s - 1)%Z (activeBoost s) (isSliding s) (coins s)
  | setActiveBoost v =>
      mkState (gameState s) (score s) (highScore s) (difficulty s) (difficultyLevel s) (carColor s)
        (tireType s) (activeShield s) (activeMultiplier s) v (isSliding s) (coins s)
  | setActiveBoost_decr =>
      mkState (gameState s) (score s) (highScore s) (difficulty s) (difficultyLevel s) (carColor s)
        (tireType s) (activeShield s) (activeMultiplier s) (activeBoost s - 1)%Z (isSliding s) (coins s)
  | setIsSliding v =>
      mkState (gameState s) (score s) (highScore s) (difficulty s) (difficultyLevel s) (carColor s)
        (tireType s) (activeShield s) (activeMultiplier s) (activeBoost s) v (coins s)
  | setIsSliding_decr =>
      mkState (gameState s) (score s) (highScore s) (difficulty s) (difficultyLevel s) (carColor s)
        (tireType s) (activeShield s) (activeMultiplier s) (activeBoost s) (isSliding s - 1)%Z (coins s)
  | playSound _ => s
  end.

(** React runs the queued updates in the order of the calls. *)
Definition applyEffects (s : State) (es : list Effect) : State :=
  fold_left applyEffect es s.

(** ** The frame monad

    A piece of [update] reads and writes the refs and queues effects. *)

Definition Frame (A : Type) : Type := Refs -> A * Refs * list Effect.

Definition ret {A} (a : A) : Frame A := fun r => (a, r, []).

Definition bind {A B} (c : Frame A) (k : A -> Frame B) : Frame B :=
  fun r =>
    let '(a, r1, es1) := c r in
    let '(b, r2, es2) := k a r1 in
    (b, r2, es1 ++ es2).

Declare Scope frame_scope.
Delimit Scope frame_scope with frame.
Bind Scope frame_scope with Frame.
Notation "x <- c ;; k" := (bind c (fun x => k))
  (at level 100, c at next level, k at level 200, right associativity) : frame_scope.
Notation "c ;; k" := (bind c (fun _ => k))
  (at level 100, k at level 200, right associativity) : frame_scope.
Open Scope frame_scope.

Definition emit (e : Effect) : Frame unit := fun r => (tt, r, [e]).
Definition get : Frame Refs := fun r => (r, r, []).
Definition modify (f : Refs -> Refs) : Frame unit := fun r => (tt, f r, []).
Definition when (b : bool) (c : Frame unit) : Frame unit := if b then c else ret tt.

Definition set_playerRef (p : GameObject.t) (r : Refs) : Refs :=
  mkRefs p (enemiesRef r) (powerUpsRef r) (lastSpawnTimeRef r)
    (lastCoinRewardTimeRef r) (roadOffsetRef r) (randomCalls r).
Definition set_enemiesRef (l : list Enemy.t) (r : Refs) : Refs :=
  mkRefs (playerRef r) l (powerUpsRef r) (lastSpawnTimeRef r)
    (lastCoinRewardTimeRef r) (roadOffsetRef r) (randomCalls r).
Definition set_powerUpsRef (l : list PowerUp.t) (r : Refs) : Refs :=
  mkRefs (playerRef r) (enemiesRef r) l (lastSpawnTimeRef r)
    (lastCoinRewardTimeRef r) (roadOffsetRef r) (randomCalls r).
Definition set_lastSpawnTimeRef (t : Q) (r : Refs) : Refs :=
  mkRefs (playerRef r) (enemiesRef r) (powerUpsRef r) t
    (lastCoinRewardTimeRef r) (roadOffsetRef r) (randomCalls r).
Definition set_lastCoinRewardTimeRef (t : Q) (r : Refs) : Refs :=
  mkRefs (playerRef r) (enemiesRef r) (powerUpsRef r) (lastSpawnTimeRef r)
    t (roadOffsetRef r) (randomCalls r).
Definition set_roadOffsetRef (o : Q) (r : Refs) : Refs :=
  mkRefs (playerRef r) (enemiesRef r) (powerUpsRef r) (lastSpawnTimeRef r)
    (lastCoinRewardTimeRef r) o (randomCalls r).
Definition set_randomCalls (n : nat) (r : Refs) : Refs :=
  mkRefs (playerRef r) (enemiesRef r) (powerUpsRef r) (lastSpawnTimeRef r)
    (lastCoinRewardTimeRef r) (roadOffsetRef r) n.

(** [playerRef.current.x = f(playerRef.current.x)] *)
Definition modify_player_x (f : Q -> Q) : Frame unit :=
  modify (fun r => set_playerRef (GameObject.set_x (f (GameObject.x (playerRef r))) (playerRef r)) r).

(** [enemiesRef.current.push(e)] and [powerUpsRef.current.push(p)] *)
Definition push_enemy (e : Enemy.t) : Frame unit :=
  modify (fun r => set_enemiesRef (enemiesRef r ++ [e]) r).
Definition push_powerUp (p : PowerUp.t) : Frame unit :=
  modify (fun r => set_powerUpsRef (powerUpsRef r ++ [p]) r).

(** One call of [Math.random()]. *)
Definition random (h : Host) : Frame Q :=
  fun r => (Math_random h (randomCalls r), set_randomCalls (S (randomCalls r)) r, []).

(** [l.forEach(f)] *)
Fixpoint forEach {A} (f : A -> Frame unit) (l : list A) : Frame unit :=
  match l with
  | [] => ret tt
  | a :: l' => f a ;; forEach f l'
  end.

(** [l.filter(f)] for a callback that also mutates the element it is
    given: the callback returns the element as it leaves it and the
    verdict; the kept elements are returned in order. *)
Fixpoint filterFrame {A} (f : A -> Frame (A * bool)) (l : list A) : Frame (list A) :=
  match l with
  | [] => ret []
  | a :: l' =>
      v <- f a ;;
      rest <- filterFrame f l' ;;
      ret (if snd v then fst v :: rest else rest)
  end.

(** ** [startGame] and [gameOver] *)

(** [startGame], run in a render whose state is [s]; [now1] and [now2] are
    its two readings of [performance.now()]. *)
Definition startGame (s : State) (now1 now2 : Q) : Frame unit :=
  emit (setGameState PLAYING) ;;
  emit (setScore 0) ;;
  emit (setDifficulty
          (match difficultyLevel s with EASY => 0.7 | HARD => 1.5 | NORMAL => 1 end)) ;;
  modify (set_enemiesRef []) ;;
  modify (set_powerUpsRef []) ;;
  emit (setActiveShield 0) ;;
  emit (setActiveMultiplier 0) ;;
  emit (setActiveBoost 0) ;;
  emit (setIsSliding 0) ;;
  modify_player_x (fun _ => CANVAS_WIDTH / 2 - CAR_WIDTH / 2) ;;
  modify (fun r => set_playerRef (GameObject.set_color (carColor s) (playerRef r)) r) ;;
  modify (set_lastSpawnTimeRef now1) ;;
  modify (set_lastCoinRewardTimeRef now2).

(** [gameOver], a callback of the render whose state is [s].  (It also
    clears the touch flags, which belong to the input handlers.) *)
Definition gameOver (s : State) : Frame unit :=
  emit (setGameState GAMEOVER) ;;
  emit (playSound crash) ;;
  when (score s >? highScore s)%Z (emit (setHighScore (score s))).

(** ** [update]: the animation-frame callback

    [s] is the state snapshot of the render that created the callback. *)

(** The 4-inequality rectangle test against the player. *)
Definition overlaps (p : GameObject.t) (x y width height : Q) : bool :=
  (GameObject.x p <? x + width) &&
  (GameObject.x p + GameObject.width p >? x) &&
  (GameObject.y p <? y + height) &&
  (GameObject.y p + GameObject.height p >? y).

(** *** 0. Survival coin reward *)
Definition survivalReward (inp : Input) : Frame unit :=
  r <- get ;;
  when (time inp - lastCoinRewardTimeRef r >? 5000)
    (emit setCoins_incr ;;
     modify (set_lastCoinRewardTimeRef (time inp))).

(** *** 1. Move player *)
Definition basePlayerSpeed (s : State) : Q :=
  match tireType s with GRIP => 9 | DRIFT => 11 | STANDARD => 7 end.

Definition currentSpeed (s : State) : Q :=
  basePlayerSpeed s * (if (activeBoost s >? 0)%Z then 1.5 else 1).

Definition moveLeft (inp : Input) : bool :=
  key_down inp "ArrowLeft" || key_down inp "a" || touch_left inp.

Definition moveRight (inp : Input) : bool :=
  key_down inp "ArrowRight" || key_down inp "d" || touch_right inp.

Definition movePlayer (h : Host) (s : State) (inp : Input) : Frame unit :=
  if (moveLeft inp || moveRight inp) && (isSliding s =? 0)%Z then
    emit (playSound engine) ;;
    when (moveLeft inp)
      (modify_player_x (fun x => Qmax 0 (x - currentSpeed s))) ;;
    when (moveRight inp)
      (modify_player_x (fun x => Qmin (CANVAS_WIDTH - CAR_WIDTH) (x + currentSpeed s)))
  else if (isSliding s >? 0)%Z then
    modify_player_x (fun x => x + Math_sin h (time inp / 100) * 3) ;;
    modify_player_x (fun x => Qmax 0 (Qmin (CANVAS_WIDTH - CAR_WIDTH) x))
  else ret tt.

(** The body of the gravity-zone [forEach]. *)
Definition gravityPull (h : Host) (inp : Input) (enemy : Enemy.t) : Frame unit :=
  match Enemy.type enemy, Enemy.pull enemy with
  | GRAVITY, Some pull =>
      r <- get ;;
      let p := playerRef r in
      when ((GameObject.y p <? Enemy.y enemy + Enemy.height enemy) &&
            (GameObject.y p + GameObject.height p >? Enemy.y enemy))
        (let timeFactor := 0.8 + Math_sin h (time inp / 250) * 0.4 in
         modify_player_x (fun x => x + pull * timeFactor) ;;
         modify_player_x (fun x => Qmax 0 (Qmin (CANVAS_WIDTH - CAR_WIDTH) x)))
  | _, _ => ret tt
  end.

Definition applyGravity (h : Host) (inp : Input) : Frame unit :=
  r <- get ;;
  forEach (gravityPull h inp) (enemiesRef r).

(** The movement step of a frame: steering or sliding, then the pulls. *)
Definition movementStep (h : Host) (s : State) (inp : Input) : Frame unit :=
  movePlayer h s inp ;;
  applyGravity h inp.

(** *** 2. Spawn enemies and power-ups *)

Definition spawnInterval (s : State) : Q :=
  (ENEMY_SPAWN_RATE / difficulty s) * (if (activeBoost s >? 0)%Z then 0.5 else 1).

(** [difficulty > 1.5 && Math.random() > 0.5 ? 2 : 1]; the draw is made
    only when the first conjunct holds. *)
Definition spawnCount (h : Host) (s : State) : Frame nat :=
  if difficulty s >? 1.5 then
    c <- random h ;;
    ret (if c >? 0.5 then 2%nat else 1%nat)
  else ret 1%nat.

(** [spawnedX.some(sx => Math.abs(sx - x) < CAR_WIDTH + 20)] *)
Definition tooClose (spawnedX : list Q) (x : Q) : bool :=
  existsb (fun sx => Qabs (sx - x) <? CAR_WIDTH + 20) spawnedX.

(** The [do ... while] that picks a slot's x.  [retries] is the number of
    further attempts the bound [attempts < 10] still allows: 9 at entry. *)
Fixpoint pickX (h : Host) (spawnedX : list Q) (retries : nat) : Frame Q :=
  d <- random h ;;
  let x := d * (CANVAS_WIDTH - CAR_WIDTH) in
  match retries with
  | S k => if tooClose spawnedX x then pickX h spawnedX k else ret x
  | O => ret x
  end.

Definition types : list PowerUpType := [SHIELD; BOOST; MULTIPLIER].

(** [types[Math.floor(d * types.length)]] *)
Definition pickType (d : Q) : option PowerUpType :=
  let idx := Qfloor (d * inject_Z (Z.of_nat (length types))) in
  if (idx <? 0)%Z then None else nth_error types (Z.to_nat idx).

(** The branches of the kind draw, in the order of the [if ... else if]
    chain. *)
Inductive Branch :=
| coin_branch | powerUp_branch | barrier_branch | oil_branch | laser_branch
| gravity_branch | platform_branch | chaser_branch | car_branch.

(** The conditions of the chain for slot [i] and draw [rand]: the first one
    that holds selects the branch. *)
Definition chooseBranch (s : State) (i : nat) (rand : Q) : Branch :=
  if rand <? 0.4 then coin_branch
  else if (i =? 0)%nat && (rand <? 0.25) then powerUp_branch
  else if (rand <? 0.35) && (difficulty s >? 1.2) then barrier_branch
  else if (rand <? 0.3) && (difficulty s >? 1.1) then oil_branch
  else if (rand <? 0.4) && (difficulty s >? 1.3) then laser_branch
  else if (rand <? 0.5) && (difficulty s >? 1.4) then gravity_branch
  else if (rand <? 0.6) && (difficulty s >? 1.5) then platform_branch
  else if (rand <? 0.7) && (difficulty s >? 1.6) then chaser_branch
  else car_branch.

(** The body of each branch: the object literal it builds (drawing what it
    needs from [Math.random]) and the [push]. *)
Definition create (h : Host) (s : State) (x : Q) (b : Branch) : Frame unit :=
  match b with
  | coin_branch =>
      push_powerUp
        (PowerUp.mk (x + (CAR_WIDTH - 25) / 2) (- CAR_HEIGHT) 25 25 (css "#FFD700")
           (Some COIN) (INITIAL_ENEMY_SPEED * difficulty s))
  | powerUp_branch =>
      d <- random h ;;
      let type := pickType d in
      push_powerUp
        (PowerUp.mk x (- CAR_HEIGHT) 30 30
           (match type with
            | Some SHIELD => css "#3b82f6"
            | Some BOOST => css "#f59e0b"
            | _ => css "#a855f7"
            end)
           type (INITIAL_ENEMY_SPEED * difficulty s))
  | barrier_branch =>
      d <- random h ;;
      push_enemy
        (Enemy.mk x (- CAR_HEIGHT) (CAR_WIDTH * 1.5) 30 (css "#ef4444") BARRIER
           (INITIAL_ENEMY_SPEED * difficulty s * 0.8)
           (Some (2 * difficulty s)) (Some (if d >? 0.5 then 1 else -1)) None None None)
  | oil_branch =>
      push_enemy
        (Enemy.mk (Qmax 10 (Qmin (CANVAS_WIDTH - 110) x)) (- CAR_HEIGHT) 100 50
           (css "rgba(50, 50, 50, 0.8)") OIL
           (INITIAL_ENEMY_SPEED * difficulty s)
           None None None None None)
  | laser_branch =>
      push_enemy
        (Enemy.mk 0 (- CAR_HEIGHT) CANVAS_WIDTH 10 (css "#ff00ff") LASER
           (INITIAL_ENEMY_SPEED * difficulty s * 0.7)
           None None (Some 0%Z) (Some false) None)
  | gravity_branch =>
      d1 <- random h ;;
      let pullDir := if d1 >? 0.5 then 1 else -1 in
      d2 <- random h ;;
      let pullStrength := (3 + d2 * 3) * difficulty s in
      push_enemy
        (Enemy.mk 0 (- CAR_HEIGHT) CANVAS_WIDTH 150 (css "rgba(100, 100, 255, 0.2)") GRAVITY
           (INITIAL_ENEMY_SPEED * difficulty s * 0.6)
           None None None None (Some (pullDir * pullStrength)))
  | platform_branch =>
      push_enemy
        (Enemy.mk x (- CAR_HEIGHT) (CAR_WIDTH * 1.5) 20 (css "#00ffff") PLATFORM
           (INITIAL_ENEMY_SPEED * difficulty s)
           None None (Some 0%Z) (Some true) None)
  | chaser_branch =>
      push_enemy
        (Enemy.mk x (- CAR_HEIGHT) CAR_WIDTH CAR_HEIGHT (css "#ff4400") CHASER
           (INITIAL_ENEMY_SPEED * difficulty s * 1.1)
           (Some 0) None None None None)
  | car_branch =>
      d <- random h ;;
      push_enemy
        (Enemy.mk x (- CAR_HEIGHT) CAR_WIDTH CAR_HEIGHT (hsl (d * 360)) CAR
           (INITIAL_ENEMY_SPEED * difficulty s)
           None None None None None)
  end.

(** Slot [i] at position [x]: [const rand = Math.random()], then the chain. *)
Definition spawnEntity (h : Host) (s : State) (i : nat) (x : Q) : Frame unit :=
  rand <- random h ;;
  create h s x (chooseBranch s i rand).

(** The [for] loop over the slots: [i] is the loop counter, [todo] the
    number of slots still to fill, [spawnedX] the positions taken. *)
Fixpoint spawnSlots (h : Host) (s : State) (i todo : nat) (spawnedX : list Q) : Frame unit :=
  match todo with
  | O => ret tt
  | S todo' =>
      x <- pickX h spawnedX 9 ;;
      spawnEntity h s i x ;;
      spawnSlots h s (S i) todo' (spawnedX ++ [x])
  end.

Definition spawn (h : Host) (s : State) (inp : Input) : Frame unit :=
  r <- get ;;
  when (time inp - lastSpawnTimeRef r >? spawnInterval s)
    (n <- spawnCount h s ;;
     spawnSlots h s 0 n [] ;;
     modify (set_lastSpawnTimeRef (time inp))).

(** *** 3. Update power-ups *)

(** The callback of [powerUpsRef.current.filter]. *)
Definition powerUpFrame (p : PowerUp.t) : Frame (PowerUp.t * bool) :=
  let p := PowerUp.set_y (PowerUp.y p + PowerUp.speed p) p in
  r <- get ;;
  if overlaps (playerRef r) (PowerUp.x p) (PowerUp.y p) (PowerUp.width p) (PowerUp.height p) then
    emit (playSound collect) ;;
    when (bool_decide (PowerUp.type p = Some SHIELD)) (emit (setActiveShield 300)) ;;
    when (bool_decide (PowerUp.type p = Some BOOST)) (emit (setActiveBoost 200)) ;;
    when (bool_decide (PowerUp.type p = Some MULTIPLIER)) (emit (setActiveMultiplier 400)) ;;
    when (bool_decide (PowerUp.type p = Some COIN)) (emit setCoins_incr) ;;
    ret (p, false)
  else ret (p, PowerUp.y p <=? CANVAS_HEIGHT).

Definition updatePowerUps : Frame unit :=
  r <- get ;;
  kept <- filterFrame powerUpFrame (powerUpsRef r) ;;
  modify (set_powerUpsRef kept).

(** *** 4. Update enemies and collision *)

Definition moveDown (s : State) (enemy : Enemy.t) : Enemy.t :=
  Enemy.set_y
    (Enemy.y enemy + Enemy.speed enemy * (if (activeBoost s >? 0)%Z then 1.5 else 1)) enemy.

Definition barrierLogic (enemy : Enemy.t) : Enemy.t :=
  match Enemy.type enemy, Enemy.vx enemy, Enemy.direction enemy with
  | BARRIER, Some vx, Some direction =>
      let enemy := Enemy.set_x (Enemy.x enemy + vx * direction) enemy in
      if (Enemy.x enemy <=? 0) || (Enemy.x enemy + Enemy.width enemy >=? CANVAS_WIDTH)
      then Enemy.set_direction (direction * -1) enemy
      else enemy
  | _, _, _ => enemy
  end.

(** The timer block shared in shape by the laser ([limit] 60) and the
    platform ([limit] 40). *)
Definition flicker (limit : Z) (enemy : Enemy.t) : Enemy.t :=
  match Enemy.timer enemy with
  | Some timer =>
      let enemy := Enemy.set_timer (timer + 1) enemy in
      if (timer + 1 >? limit)%Z
      then Enemy.set_timer 0 (Enemy.set_active (Enemy.not_active enemy) enemy)
      else enemy
  | None => enemy
  end.

Definition laserLogic (enemy : Enemy.t) : Enemy.t :=
  match Enemy.type enemy with LASER => flicker 60 enemy | _ => enemy end.

Definition platformLogic (enemy : Enemy.t) : Enemy.t :=
  match Enemy.type enemy with PLATFORM => flicker 40 enemy | _ => enemy end.

Definition chaserLogic (s : State) (p : GameObject.t) (enemy : Enemy.t) : Enemy.t :=
  match Enemy.type enemy with
  | CHASER =>
      let dx := GameObject.x p - Enemy.x enemy in
      let chaseSpeed := 1.5 * difficulty s in
      Enemy.set_x (Enemy.x enemy + Math_sign dx * Qmin (Qabs dx) chaseSpeed) enemy
  | _ => enemy
  end.

(** Everything the filter callback does to the obstacle before it tests
    for a collision. *)
Definition behave (s : State) (p : GameObject.t) (enemy : Enemy.t) : Enemy.t :=
  chaserLogic s p (platformLogic (laserLogic (barrierLogic (moveDown s enemy)))).

#[global] Arguments behave : simpl never.

(** "Score increment when passing enemy": the tail of the callback. *)
Definition passCheck (s : State) (enemy : Enemy.t) : Frame (Enemy.t * bool) :=
  if Enemy.y enemy >? CANVAS_HEIGHT then
    when (negb (bool_decide (Enemy.type enemy = OIL)) &&
          negb (bool_decide (Enemy.type enemy = GRAVITY)))
      (emit (setScore_add (10 * (if (activeMultiplier s >? 0)%Z then 2 else 1))%Z)) ;;
    ret (enemy, false)
  else ret (enemy, true).

(** The callback of [enemiesRef.current.filter]. *)
Definition enemyFrame (s : State) (enemy : Enemy.t) : Frame (Enemy.t * bool) :=
  r <- get ;;
  let enemy := behave s (playerRef r) enemy in
  if overlaps (playerRef r) (Enemy.x enemy) (Enemy.y enemy) (Enemy.width enemy) (Enemy.height enemy) then
    if bool_decide (Enemy.type enemy = OIL) then
      emit (setIsSliding 60) ;;
      ret (enemy, true)
    else if bool_decide (Enemy.type enemy = GRAVITY) then
      ret (enemy, true)
    else if bool_decide (Enemy.type enemy = LASER) && Enemy.not_active enemy then
      ret (enemy, true)
    else if bool_decide (Enemy.type enemy = PLATFORM) && Enemy.not_active enemy then
      ret (enemy, true)
    else if (activeShield s >? 0)%Z then
      emit (setActiveShield 0) ;;
      emit (playSound crash) ;;
      ret (enemy, false)
    else
      gameOver s ;;
      passCheck s enemy
  else passCheck s enemy.

Definition updateEnemies (s : State) : Frame unit :=
  r <- get ;;
  kept <- filterFrame (enemyFrame s) (enemiesRef r) ;;
  modify (set_enemiesRef kept).

(** *** 5. Active power-up timers *)
Definition decayTimers (s : State) : Frame unit :=
  when (activeShield s >? 0)%Z (emit setActiveShield_decr) ;;
  when (activeMultiplier s >? 0)%Z (emit setActiveMultiplier_decr) ;;
  when (activeBoost s >? 0)%Z (emit setActiveBoost_decr) ;;
  when (isSliding s >? 0)%Z (emit setIsSliding_decr).

(** *** 6. Difficulty *)
Definition baseDiff (level : DifficultyLevel) : Q :=
  match level with EASY => 1.2 | HARD => 3.5 | NORMAL => 2.5 end.

Definition updateDifficulty (s : State) : Frame unit :=
  emit (setDifficulty (baseDiff (difficultyLevel s) + inject_Z (score s / 100) * 0.35)).

(** *** 7. Road animation *)

(** The [%] of JavaScript on numbers: the remainder takes the sign of the
    dividend. *)
Definition js_rem (a b : Q) : Q :=
  let q := a / b in
  a - b * inject_Z (if q <? 0 then Qceiling q else Qfloor q).

Definition roadAnimation (s : State) : Frame unit :=
  modify (fun r =>
    set_roadOffsetRef
      (js_rem (roadOffsetRef r +
               ROAD_STRIPE_SPEED * difficulty s * (if (activeBoost s >? 0)%Z then 2 else 1))
              100) r).

(** *** The callback

    Drawing reads the refs and changes nothing; the closing
    [requestAnimationFrame(update)] is the loop of [frame] below. *)
Definition update (h : Host) (s : State) (inp : Input) : Frame unit :=
  if negb (bool_decide (gameState s = PLAYING)) then ret tt
  else if negb (has_ctx inp) then ret tt
  else
    survivalReward inp ;;
    movementStep h s inp ;;
    spawn h s inp ;;
    updatePowerUps ;;
    updateEnemies s ;;
    decayTimers s ;;
    updateDifficulty s ;;
    roadAnimation s.

(** ** The component over time

    [state] is the React state, [closure] the snapshot held by the [update]
    that the animation-frame loop currently runs, [refs] the ref boxes. *)
Record World := mkWorld {
  state : State;
  closure : State;
  refs : Refs
}.

(** [update] is memoised by [useCallback] on [gameState, score, difficulty,
    gameOver], and [gameOver] on [score, highScore]: a render replaces the
    running callback exactly when one of those four values changed. *)
Definition depsChanged (old new : State) : bool :=
  negb (bool_decide (gameState old = gameState new)) ||
  negb (score old =? score new)%Z ||
  negb (Qeq_bool (difficulty old) (difficulty new)) ||
  negb (highScore old =? highScore new)%Z.

(** Apply the queued effects and render; the render, and the effect that
    re-registers the animation frame, are taken to complete before the next
    frame fires. *)
Definition commit (w : World) (out : unit * Refs * list Effect) : World :=
  let '(_, r, es) := out in
  let s' := applyEffects (state w) es in
  mkWorld s' (if depsChanged (closure w) s' then s' else closure w) r.

(** One animation frame. *)
Definition frame (h : Host) (w : World) (inp : Input) : World :=
  commit w (update h (closure w) inp (refs w)).

(** A start.  [startGame] is reached in two ways: the buttons of the START
    and GAMEOVER overlays call the [startGame] of the current render, and
    the key listener (Enter on START, [r] on GAMEOVER) calls the [startGame]
    of the render that registered it, the last one in which [gameState]
    changed (see [handleKeyDown] below).  [registered] is the state of the
    render whose [startGame] runs; for a button it is [state w]. *)
Definition start (registered : State) (w : World) (now1 now2 : Q) : World :=
  match gameState (state w) with
  | START | GAMEOVER => commit w (startGame registered now1 now2 (refs w))
  | _ => w
  end.

(** A run: a start, by button or by key, followed by animation frames. *)
Definition run (h : Host) (registered : State) (w : World) (now1 now2 : Q)
    (inps : list Input) : World :=
  fold_left (frame h) inps (start registered w now1 now2).

(** * Vocabulary of the properties *)

(** ** The three components of a frame computation *)

Definition value {A} (c : Frame A) (r : Refs) : A := fst (fst (c r)).
Definition exec {A} (c : Frame A) (r : Refs) : Refs := snd (fst (c r)).
Definition effects {A} (c : Frame A) (r : Refs) : list Effect := snd (c r).

(** ** Two predicates on computations

    [keeps I c]: [c] preserves the property [I] of the refs.
    [emits P c]: every effect [c] queues satisfies [P]. *)

Definition keeps {A} (I : Refs -> Prop) (c : Frame A) : Prop :=
  forall r, I r -> I (exec c r).

Definition emits {A} (P : Effect -> Prop) (c : Frame A) : Prop :=
  forall r, Forall P (effects c r).

(** ** The track *)

(** The player's x lies in [[0, CANVAS_WIDTH - CAR_WIDTH]]. *)
Definition on_track (r : Refs) : Prop :=
  0 <= GameObject.x (playerRef r) <= CANVAS_WIDTH - CAR_WIDTH.

(** A world from which [startGame] can be triggered: the START or the
    GAMEOVER screen is showing, and the callback in place was created for
    that game state ([gameState] is one of its dependencies). *)
Definition startable (w : World) : Prop :=
  (gameState (state w) = START \/ gameState (state w) = GAMEOVER) /\
  gameState (closure w) = gameState (state w).

(** ** Spawning *)

(** The obstacle kind a branch of the kind draw builds; the first two
    branches build collectibles. *)
Definition branchObstacle (b : Branch) : option ObstacleType :=
  match b with
  | coin_branch | powerUp_branch => None
  | barrier_branch => Some BARRIER
  | oil_branch => Some OIL
  | laser_branch => Some LASER
  | gravity_branch => Some GRAVITY
  | platform_branch => Some PLATFORM
  | chaser_branch => Some CHASER
  | car_branch => Some CAR
  end.

(** The branches the kind draw can select. *)
Definition selectable (b : Branch) : Prop :=
  b = coin_branch \/ b = gravity_branch \/ b = platform_branch \/
  b = chaser_branch \/ b = car_branch.

(** The refs [r] extend [r0] by coins and by obstacles other than barriers,
    oil slicks and lasers, and by nothing else. *)
Definition grownByDrawableKinds (r0 r : Refs) : Prop :=
  exists ps es,
    powerUpsRef r = powerUpsRef r0 ++ ps /\
    enemiesRef r = enemiesRef r0 ++ es /\
    Forall (fun p => PowerUp.type p = Some COIN) ps /\
    Forall (fun e => Enemy.type e <> BARRIER /\ Enemy.type e <> OIL /\
                     Enemy.type e <> LASER) es.

(** The factor on [INITIAL_ENEMY_SPEED * difficulty] in an obstacle's
    downward speed. *)
Definition speedFactor (t : ObstacleType) : Q :=
  match t with
  | BARRIER => 0.8
  | LASER => 0.7
  | GRAVITY => 0.6
  | CHASER => 1.1
  | CAR | OIL | PLATFORM => 1
  end.

(** ** Sample data: the component as it mounts *)

Definition initialState : State :=
  mkState START 0 0 1 NORMAL (css "#00FF00") STANDARD 0 0 0 0 0.

Definition initialPlayer : GameObject.t :=
  GameObject.mk (CANVAS_WIDTH / 2 - CAR_WIDTH / 2) (CANVAS_HEIGHT - CAR_HEIGHT - 40)
    CAR_WIDTH CAR_HEIGHT (css "#00FF00").

Definition initialRefs : Refs := mkRefs initialPlayer [] [] 0 0 0 0.

Definition initialWorld : World := mkWorld initialState initialState initialRefs.

(** A host whose sine is flat and whose every draw is [d]. *)
Definition constantHost (d : Q) : Host := mkHost (fun _ => 0) (fun _ => d).

(** A frame at time [t] with no key held and a canvas to draw on. *)
Definition idleInput (t : Q) : Input := mkInput t ∅ false false true.

(** The state of a game in progress at the given difficulty and shield. *)
Definition playingState (d : Q) (shield : Z) : State :=
  mkState PLAYING 0 0 d NORMAL (css "#00FF00") STANDARD shield 0 0 0 0.

(** The number of entities on the track. *)
Definition entityCount (r : Refs) : nat :=
  (length (powerUpsRef r) + length (enemiesRef r))%nat.

(** ** Coins *)

(** How many [setCoins(c => c + 1)] a list of effects holds. *)
Fixpoint coinsQueued (es : list Effect) : Z :=
  match es with
  | [] => 0
  | setCoins_incr :: es' => 1 + coinsQueued es'
  | _ :: es' => coinsQueued es'
  end%Z.

(** ** Hazards *)


(** The player as the rectangle test sees it reaches no lower than the
    bottom of the canvas. *)
Definition player_above_bottom (r : Refs) : Prop :=
  GameObject.y (playerRef r) + GameObject.height (playerRef r) <= CANVAS_HEIGHT.

(** A flicker platform as [create] builds it, placed at the player's
    height, with the given [active] flag. *)
Definition platformAtPlayer (active : bool) : Enemy.t :=
  Enemy.mk 180 500 (CAR_WIDTH * 1.5) 20 (css "#00ffff") PLATFORM INITIAL_ENEMY_SPEED
    None None (Some 0%Z) (Some active) None.

(** A standard car as [create] builds it, at the given position. *)
Definition carAt (x y : Q) : Enemy.t :=
  Enemy.mk x y CAR_WIDTH CAR_HEIGHT (hsl 0) CAR INITIAL_ENEMY_SPEED
    None None None None None.

(** A coin as [create] builds it, at the given position. *)
Definition coinAt (x y : Q) : PowerUp.t :=
  PowerUp.mk x y 25 25 (css "#FFD700") (Some COIN) INITIAL_ENEMY_SPEED.



(** ** Classes of effects *)

Definition changesGameState (e : Effect) : bool :=
  match e with setGameState _ => true | _ => false end.

Definition touchesShield (e : Effect) : bool :=
  match e with setActiveShield _ | setActiveShield_decr => true | _ => false end.

(** The only game state an effect asks for is GAMEOVER. *)
Definition onlyEndsGame (e : Effect) : Prop :=
  forall g, e = setGameState g -> g = GAMEOVER.

(** An effect of the obstacle pass of a shielded frame: it leaves the game
    state alone and, if it concerns the shield, resets it. *)
Definition shieldedPassEffect (e : Effect) : Prop :=
  changesGameState e = false /\ (touchesShield e = true -> e = setActiveShield 0).


(** Steps 0 to 3 of a frame, after which the obstacles are processed. *)
Definition beforeEnemies (h : Host) (s : State) (inp : Input) : Frame unit :=
  survivalReward inp ;; movementStep h s inp ;; spawn h s inp ;; updatePowerUps.

(** Steps 5 to 7 of a frame. *)
Definition afterEnemies (s : State) : Frame unit :=
  decayTimers s ;; updateDifficulty s ;; roadAnimation s.

(** The collectible, once moved down, overlaps the player and is a coin. *)
Definition picksCoin (player : GameObject.t) (p : PowerUp.t) : bool :=
  overlaps player (PowerUp.x p) (PowerUp.y p + PowerUp.speed p)
    (PowerUp.width p) (PowerUp.height p) &&
  bool_decide (PowerUp.type p = Some COIN).

(** ** Difficulty and score *)

(** The callback in place agrees with the state on what difficulty is
    computed from. *)
Definition synced (w : World) : Prop :=
  gameState (closure w) = gameState (state w) /\
  score (closure w) = score (state w) /\
  difficultyLevel (closure w) = difficultyLevel (state w).

(** The difficulty formula of step 6. *)
Definition difficultyAt (level : DifficultyLevel) (points : Z) : Q :=
  baseDiff level + inject_Z (points / 100) * 0.35.

(** An effect that cannot lower the score. *)
Definition scoreSafe (e : Effect) : bool :=
  match e with
  | setScore _ => false
  | setScore_add n => (0 <=? n)%Z
  | _ => true
  end.

Definition changesDifficulty (e : Effect) : bool :=
  match e with setDifficulty _ => true | _ => false end.

(** Frames of a sample run: one early frame, five frames 10 s apart (each
    spawns), then frames at a standstill of the clock (none spawns). *)
Definition sampleFrames (n : nat) : list Input :=
  idleInput 16 ::
  map (fun k => idleInput (inject_Z (Z.of_nat k) * 10000)) (seq 1 5) ++
  repeat (idleInput 50000) n.

(** What holds of every world of a run at difficulty level [level] from
    its first processed frame on. *)
Definition runInvariant (level : DifficultyLevel) (w : World) : Prop :=
  synced w /\
  difficultyLevel (state w) = level /\
  difficulty (state w) <= difficultyAt level (score (state w)).

(** * Further vocabulary: the rest of the simulation *)

(** ** The four status timers *)

Inductive Timer := shieldTimer | multiplierTimer | boostTimer | slideTimer.

#[global] Instance Timer_eq_dec : EqDecision Timer.
Proof. solve_decision. Defined.

Definition timerValue (t : Timer) (s : State) : Z :=
  match t with
  | shieldTimer => activeShield s
  | multiplierTimer => activeMultiplier s
  | boostTimer => activeBoost s
  | slideTimer => isSliding s
  end.

(** What an effect does to a timer: which one, and the value stored
    ([None] for the decrement [s => s - 1]). *)
Definition timerWrite (e : Effect) : option (Timer * option Z) :=
  match e with
  | setActiveShield v => Some (shieldTimer, Some v)
  | setActiveShield_decr => Some (shieldTimer, None)
  | setActiveMultiplier v => Some (multiplierTimer, Some v)
  | setActiveMultiplier_decr => Some (multiplierTimer, None)
  | setActiveBoost v => Some (boostTimer, Some v)
  | setActiveBoost_decr => Some (boostTimer, None)
  | setIsSliding v => Some (slideTimer, Some v)
  | setIsSliding_decr => Some (slideTimer, None)
  | _ => None
  end.

(** The effect does not write timer [t]. *)
Definition leavesTimer (t : Timer) (e : Effect) : bool :=
  match timerWrite e with
  | Some (t', _) => negb (bool_decide (t' = t))
  | None => true
  end.

(** The effect stores [v] in timer [t]. *)
Definition storesTimer (t : Timer) (v : Z) (e : Effect) : bool :=
  match timerWrite e with
  | Some (t', Some v') => bool_decide (t' = t) && (v' =? v)%Z
  | _ => false
  end.

(** The timer a collectible kind starts, and for how many frames. *)
Definition duration (k : PowerUpType) : option (Timer * Z) :=
  match k with
  | SHIELD => Some (shieldTimer, 300%Z)
  | BOOST => Some (boostTimer, 200%Z)
  | MULTIPLIER => Some (multiplierTimer, 400%Z)
  | COIN => None
  end.

(** Steps 0 to 2 of a frame, after which the collectibles are processed. *)
Definition beforePowerUps (h : Host) (s : State) (inp : Input) : Frame unit :=
  survivalReward inp ;; movementStep h s inp ;; spawn h s inp.

(** The obstacle, as [behave] leaves it, overlaps the player. *)
Definition hits (s : State) (r : Refs) (enemy : Enemy.t) : bool :=
  let e' := behave s (playerRef r) enemy in
  overlaps (playerRef r) (Enemy.x e') (Enemy.y e') (Enemy.width e') (Enemy.height e').

(** The obstacle, as [behave] leaves it, cannot end the run in a frame whose
    callback holds [s]: it misses the player, or is an oil slick or a gravity
    zone, or is a laser or platform that is not active, or the shield is up. *)
Definition harmless (s : State) (r : Refs) (enemy : Enemy.t) : Prop :=
  hits s r enemy = false \/
  Enemy.type enemy = OIL \/ Enemy.type enemy = GRAVITY \/
  ((Enemy.type enemy = LASER \/ Enemy.type enemy = PLATFORM) /\
   Enemy.not_active (behave s (playerRef r) enemy) = true) \/
  (0 < activeShield s)%Z.

(** A shield collectible as [create] builds it, at the given position. *)
Definition shieldAt (x y : Q) : PowerUp.t :=
  PowerUp.mk x y 30 30 (css "#3b82f6") (Some SHIELD) INITIAL_ENEMY_SPEED.

(** An oil slick as [create] builds it, at the given position. *)
Definition oilAt (x y : Q) : Enemy.t :=
  Enemy.mk x y 100 50 (css "rgba(50, 50, 50, 0.8)") OIL INITIAL_ENEMY_SPEED
    None None None None None.

(** ** The end of a run *)

(** The effect writes the game state or the high score. *)
Definition endsRun (e : Effect) : bool :=
  match e with setGameState _ | setHighScore _ => true | _ => false end.

(** What a list of effects queued by a frame whose callback holds [s] can
    say about the end of the run: the only game state asked for is GAMEOVER,
    the only high score stored is the callback's score and only when it beats
    the callback's high score, and the two come together. *)
Definition gameOverLog (s : State) (es : list Effect) : Prop :=
  Forall (fun e => endsRun e = true ->
                   e = setGameState GAMEOVER \/
                   (e = setHighScore (score s) /\ (highScore s < score s)%Z)) es /\
  (In (setGameState GAMEOVER) es -> (highScore s < score s)%Z ->
   In (setHighScore (score s)) es) /\
  (In (setHighScore (score s)) es -> In (setGameState GAMEOVER) es).

(** A score change a frame can queue: 10 or 20 more. *)
Definition scoreStep (e : Effect) : bool :=
  match e with
  | setScore _ => false
  | setScore_add n => (n =? 10)%Z || (n =? 20)%Z
  | _ => true
  end.

(** A game in progress with the given score and high score. *)
Definition scoringState (points best : Z) : State :=
  mkState PLAYING points best 1 NORMAL (css "#00FF00") STANDARD 0 0 0 0 0.

(** ** Moving obstacles *)

(** A barrier as the spawn literal builds it at a non-negative difficulty:
    it steps [vx >= 0] in direction 1 or -1. *)
Definition movingBarrier (enemy : Enemy.t) : Prop :=
  Enemy.type enemy = BARRIER /\
  exists vx direction,
    Enemy.vx enemy = Some vx /\ Enemy.direction enemy = Some direction /\
    0 <= vx /\ (direction == 1 \/ direction == -1).

(** The stretch of x a barrier of the given width that set out at [x0] is
    confined to: from the left edge of the track, or [x0] if that is further
    left, to the place where its right side meets the right edge, or [x0] if
    that is further right. *)
Definition stretchLeft (x0 : Q) : Q := Qmin x0 0.
Definition stretchRight (x0 width : Q) : Q := Qmax x0 (CANVAS_WIDTH - width).

(** The barrier is at most one step outside the stretch, and is inside it
    on the side it is heading to. *)
Definition barrierWithin (x0 : Q) (enemy : Enemy.t) : Prop :=
  movingBarrier enemy /\
  forall vx direction,
    Enemy.vx enemy = Some vx -> Enemy.direction enemy = Some direction ->
    stretchLeft x0 - vx <= Enemy.x enemy /\
    Enemy.x enemy <= stretchRight x0 (Enemy.width enemy) + vx /\
    (direction == 1 -> Enemy.x enemy <= stretchRight x0 (Enemy.width enemy)) /\
    (direction == -1 -> stretchLeft x0 <= Enemy.x enemy).

(** A barrier as [create] builds it at difficulty 1, in a slot at [x] and
    with the given direction. *)
Definition barrierAt (x direction : Q) : Enemy.t :=
  Enemy.mk x (- CAR_HEIGHT) (CAR_WIDTH * 1.5) 30 (css "#ef4444") BARRIER
    (INITIAL_ENEMY_SPEED * 0.8) (Some 2) (Some direction) None None None.

(** A chaser as [create] builds it at difficulty 1, in a slot at [x]. *)
Definition chaserAt (x y : Q) : Enemy.t :=
  Enemy.mk x y CAR_WIDTH CAR_HEIGHT (css "#ff4400") CHASER
    (INITIAL_ENEMY_SPEED * 1.1) (Some 0) None None None None.

(** ** Movement *)

(** The obstacle is a gravity zone level with the player: the guard of the
    pull in the movement step. *)
Definition pulls (p : GameObject.t) (enemy : Enemy.t) : bool :=
  match Enemy.type enemy, Enemy.pull enemy with
  | GRAVITY, Some _ =>
      (GameObject.y p <? Enemy.y enemy + Enemy.height enemy) &&
      (GameObject.y p + GameObject.height p >? Enemy.y enemy)
  | _, _ => false
  end.

(** A frame at time [t] with the given keys held and touch flags. *)
Definition steeringInput (t : Q) (keys : list string) (left right : bool) : Input :=
  mkInput t (list_to_map (map (fun k => (k, true)) keys)) left right true.

(** A game in progress in which the callback sees the player sliding. *)
Definition slidingState (frames : Z) : State :=
  mkState PLAYING 0 0 1 NORMAL (css "#00FF00") STANDARD 0 0 0 frames 0.

(** ** Road *)

(** The stripe offset lies within one stripe period. *)
Definition roadInPeriod (r : Refs) : Prop := 0 <= roadOffsetRef r < 100.

(** What the road animation relies on along a run. *)
Definition roadInvariant (w : World) : Prop :=
  synced w /\ (0 <= score (state w))%Z /\
  0 <= difficulty (state w) /\ 0 <= difficulty (closure w) /\
  roadInPeriod (refs w).

(** ** Input handlers

    The key listeners are registered by an effect whose only dependency is
    [gameState]: a listener reads the [gameState] and calls the [startGame]
    of the render that registered it, the last one in which [gameState]
    changed.  [s] is the state of that render. *)

(** [handleKeyDown]: the new key dictionary and what the listener then
    does. *)
Definition handleKeyDown (s : State) (key : string) (now1 now2 : Q)
    (keys : gmap string bool) : gmap string bool * Frame unit :=
  (<[key := true]> keys,
   when (bool_decide (gameState s = START) && bool_decide (key = "Enter"))
     (startGame s now1 now2) ;;
   when (bool_decide (gameState s = GAMEOVER) && bool_decide (key = "r"))
     (startGame s now1 now2)).

(** [handleKeyUp] *)
Definition handleKeyUp (key : string) (keys : gmap string bool) : gmap string bool :=
  <[key := false]> keys.

Inductive KeyEvent := keydown (key : string) | keyup (key : string).

Definition eventKey (e : KeyEvent) : string :=
  match e with keydown key | keyup key => key end.

(** The key dictionary after the listener for [e] ran. *)
Definition dispatch (s : State) (now1 now2 : Q) (keys : gmap string bool) (e : KeyEvent)
    : gmap string bool :=
  match e with
  | keydown key => fst (handleKeyDown s key now1 now2 keys)
  | keyup key => handleKeyUp key keys
  end.

(** The latest event of the list that concerns [key]. *)
Definition lastEvent (key : string) (events : list KeyEvent) : option KeyEvent :=
  find (fun e => bool_decide (eventKey e = key)) (rev events).

(** A keydown in the world [w], handled by the listener that the render
    with state [registered] put in place. *)
Definition pressKey (w : World) (registered : State) (key : string) (now1 now2 : Q)
    (keys : gmap string bool) : World * gmap string bool :=
  let '(keys', c) := handleKeyDown registered key now1 now2 keys in
  (commit w (c (refs w)), keys').

(** The key starts a run on the screen the listener was registered for. *)
Definition startKey (s : State) (key : string) : bool :=
  bool_decide (gameState s = START) && bool_decide (key = "Enter") ||
  bool_decide (gameState s = GAMEOVER) && bool_decide (key = "r").

(** The START screen after the level was switched to EASY on it. *)
Definition easySelected : World :=
  let s := mkState START 0 0 1 EASY (css "#00FF00") STANDARD 0 0 0 0 0 in
  mkWorld s s initialRefs.

(** The START screen after the level was switched to HARD on it. *)
Definition hardSelected : World :=
  let s := mkState START 0 0 1 HARD (css "#00FF00") STANDARD 0 0 0 0 0 in
  mkWorld s s initialRefs.

(** ** Shop

    [unlockedItems] holds three arrays of strings; an item is named by the
    array it belongs to and its id. *)

Inductive ItemType := color | spoiler | tire.

Record UnlockedItems := mkUnlocked {
  colors : list string;
  spoilers : list string;
  tires : list string
}.

(** The two state updates [buyItem] queues: [setCoins (c => c - cost)] and
    [setUnlockedItems (prev => ...)], which appends [id] to the array of
    [type]. *)
Inductive ShopEffect :=
| setCoins_sub (cost : Z)
| setUnlockedItems_add (type : ItemType) (id : string).

Definition includes (type : ItemType) (id : string) (u : UnlockedItems) : bool :=
  match type with
  | color => bool_decide (id ∈ colors u)
  | spoiler => bool_decide (id ∈ spoilers u)
  | tire => bool_decide (id ∈ tires u)
  end.

(** [buyItem], a function of the render whose coins are [coins s] and
    whose unlocked items are [u]: the value returned and the updates
    queued. *)
Definition buyItem (s : State) (u : UnlockedItems) (type : ItemType) (id : string)
    (cost : Z) : bool * list ShopEffect :=
  let isUnlocked := includes type id u in
  if isUnlocked then (true, [])
  else if (coins s >=? cost)%Z then
    (true, [setCoins_sub cost; setUnlockedItems_add type id])
  else (false, []).

Definition applyShopEffect (su : State * UnlockedItems) (e : ShopEffect)
    : State * UnlockedItems :=
  let '(s, u) := su in
  match e with
  | setCoins_sub cost =>
      (mkState (gameState s) (score s) (highScore s) (difficulty s) (difficultyLevel s)
         (carColor s) (tireType s) (activeShield s) (activeMultiplier s) (activeBoost s)
         (isSliding s) (coins s - cost)%Z, u)
  | setUnlockedItems_add color id => (s, mkUnlocked (colors u ++ [id]) (spoilers u) (tires u))
  | setUnlockedItems_add spoiler id => (s, mkUnlocked (colors u) (spoilers u ++ [id]) (tires u))
  | setUnlockedItems_add tire id => (s, mkUnlocked (colors u) (spoilers u) (tires u ++ [id]))
  end.

(** One call of [buyItem] followed by the render that applies its
    updates. *)
Definition purchase (su : State * UnlockedItems) (item : ItemType * string * Z)
    : State * UnlockedItems :=
  let '(type, id, cost) := item in
  fold_left applyShopEffect (snd (buyItem (fst su) (snd su) type id cost)) su.

(** What the shop keeps true: coins are not negative and no array lists an
    item twice. *)
Definition shopInvariant (su : State * UnlockedItems) : Prop :=
  (0 <= coins (fst su))%Z /\
  NoDup (colors (snd su)) /\ NoDup (spoilers (snd su)) /\ NoDup (tires (snd su)).

(** The unlocked items of a fresh profile. *)
Definition initialUnlocked : UnlockedItems :=
  mkUnlocked ["#00FF00"] ["NONE"] ["STANDARD"].

(** A profile with the given coins and nothing bought yet. *)
Definition profile (n : Z) : State * UnlockedItems :=
  (mkState START 0 0 1 NORMAL (css "#00FF00") STANDARD 0 0 0 0 n, initialUnlocked).

(** ** Collision and scroll-past, on the obstacle as [behave] leaves it *)


(** ** What a run can hold *)




(** ** Score *)









(** * Reasoning about frames *)

(** ** Comparisons on [Q] and [Z] *)

Lemma Qltb_true (a b : Q) : (a <? b) = true <-> a < b.
Proof.
  unfold Qltb. rewrite negb_true_iff, <- not_true_iff_false, Qle_bool_iff.
  split; [apply Qnot_le_lt | apply Qlt_not_le].
Qed.

Lemma Qltb_false (a b : Q) : (a <? b) = false <-> b <= a.
Proof. unfold Qltb. rewrite negb_false_iff. apply Qle_bool_iff. Qed.

Lemma Qgtb_true (a b : Q) : (a >? b) = true <-> b < a.
Proof. apply Qltb_true. Qed.

Lemma Qgtb_false (a b : Q) : (a >? b) = false <-> a <= b.
Proof. apply Qltb_false. Qed.

Lemma Zgtb_true (a b : Z) : (a >? b)%Z = true <-> (b < a)%Z.
Proof. rewrite Z.gtb_ltb. apply Z.ltb_lt. Qed.

Lemma Zgtb_false (a b : Z) : (a >? b)%Z = false <-> (a <= b)%Z.
Proof. rewrite Z.gtb_ltb. apply Z.ltb_ge. Qed.


Lemma frame_eta {A} (c : Frame A) (r : Refs) :
  c r = (value c r, exec c r, effects c r).
Proof. unfold value, exec, effects. destruct (c r) as [[a r'] es]. reflexivity. Qed.

Lemma value_bind {A B} (c : Frame A) (k : A -> Frame B) r :
  value (bind c k) r = value (k (value c r)) (exec c r).
Proof.
  unfold value, exec, bind. destruct (c r) as [[a r1] es1]. simpl.
  destruct (k a r1) as [[b r2] es2]. reflexivity.
Qed.

Lemma exec_bind {A B} (c : Frame A) (k : A -> Frame B) r :
  exec (bind c k) r = exec (k (value c r)) (exec c r).
Proof.
  unfold value, exec, bind. destruct (c r) as [[a r1] es1]. simpl.
  destruct (k a r1) as [[b r2] es2]. reflexivity.
Qed.

Lemma effects_bind {A B} (c : Frame A) (k : A -> Frame B) r :
  effects (bind c k) r = effects c r ++ effects (k (value c r)) (exec c r).
Proof.
  unfold value, exec, effects, bind. destruct (c r) as [[a r1] es1]. simpl.
  destruct (k a r1) as [[b r2] es2]. reflexivity.
Qed.


Section Rules.
Context (I : Refs -> Prop) (P : Effect -> Prop).

Lemma keeps_ret {A} (a : A) : keeps I (ret a).
Proof. intros r H. exact H. Qed.

Lemma keeps_emit e : keeps I (emit e).
Proof. intros r H. exact H. Qed.

Lemma keeps_get : keeps I get.
Proof. intros r H. exact H. Qed.

Lemma keeps_modify f : (forall r, I r -> I (f r)) -> keeps I (modify f).
Proof. intros Hf r H. apply Hf, H. Qed.

Lemma keeps_bind {A B} (c : Frame A) (k : A -> Frame B) :
  keeps I c -> (forall a, keeps I (k a)) -> keeps I (bind c k).
Proof. intros Hc Hk r H. rewrite exec_bind. apply Hk, Hc, H. Qed.

Lemma keeps_when b c : keeps I c -> keeps I (when b c).
Proof. destruct b; simpl; [trivial | intros _; apply keeps_ret]. Qed.

Lemma keeps_forEach {A} (f : A -> Frame unit) l :
  (forall a, keeps I (f a)) -> keeps I (forEach f l).
Proof.
  intros Hf. induction l as [|a l IH]; simpl.
  - apply keeps_ret.
  - apply keeps_bind; [apply Hf | intros _; exact IH].
Qed.

Lemma keeps_filterFrame {A} (f : A -> Frame (A * bool)) l :
  (forall a, keeps I (f a)) -> keeps I (filterFrame f l).
Proof.
  intros Hf. induction l as [|a l IH]; simpl.
  - apply keeps_ret.
  - apply keeps_bind; [apply Hf | intros v].
    apply keeps_bind; [exact IH | intros rest; apply keeps_ret].
Qed.

Lemma emits_ret {A} (a : A) : emits P (ret a).
Proof. intros r. constructor. Qed.

Lemma emits_emit e : P e -> emits P (emit e).
Proof. intros H r. repeat constructor. exact H. Qed.

Lemma emits_get : emits P get.
Proof. intros r. constructor. Qed.

Lemma emits_modify f : emits P (modify f).
Proof. intros r. constructor. Qed.

Lemma emits_random h : emits P (random h).
Proof. intros r. constructor. Qed.

Lemma emits_bind {A B} (c : Frame A) (k : A -> Frame B) :
  emits P c -> (forall a, emits P (k a)) -> emits P (bind c k).
Proof.
  intros Hc Hk r. rewrite effects_bind. apply Forall_app. split; [apply Hc | apply Hk].
Qed.

Lemma emits_when b c : emits P c -> emits P (when b c).
Proof. destruct b; simpl; [trivial | intros _; apply emits_ret]. Qed.

Lemma emits_forEach {A} (f : A -> Frame unit) l :
  (forall a, emits P (f a)) -> emits P (forEach f l).
Proof.
  intros Hf. induction l as [|a l IH]; simpl.
  - apply emits_ret.
  - apply emits_bind; [apply Hf | intros _; exact IH].
Qed.

Lemma emits_filterFrame {A} (f : A -> Frame (A * bool)) l :
  (forall a, emits P (f a)) -> emits P (filterFrame f l).
Proof.
  intros Hf. induction l as [|a l IH]; simpl.
  - apply emits_ret.
  - apply emits_bind; [apply Hf | intros v].
    apply emits_bind; [exact IH | intros rest; apply emits_ret].
Qed.

End Rules.

(** A computation that ends by establishing [I] keeps it. *)
Lemma keeps_established {A B} (I : Refs -> Prop) (c : Frame A) (k : A -> Frame B) :
  (forall a r, I (exec (k a) r)) -> keeps I (bind c k).
Proof. intros Hk r _. rewrite exec_bind. apply Hk. Qed.

Lemma keeps_random I h :
  (forall r n, I r -> I (set_randomCalls n r)) -> keeps I (random h).
Proof. intros Hn r H. apply Hn, H. Qed.

(** Walk down a computation, splitting binds and conditionals. *)
Ltac frame_step :=
  first
    [ apply keeps_ret | apply keeps_emit | apply keeps_get
    | apply emits_ret | apply emits_get | apply emits_modify | apply emits_random
    | apply keeps_bind; [| intros ?]
    | apply emits_bind; [| intros ?]
    | apply keeps_when | apply emits_when
    | apply keeps_forEach; intros ?
    | apply emits_forEach; intros ?
    | apply keeps_filterFrame; intros ?
    | apply emits_filterFrame; intros ?
    | match goal with
      | |- keeps _ (if ?b then _ else _) => destruct b
      | |- emits _ (if ?b then _ else _) => destruct b
      | |- keeps _ (match ?b with _ => _ end) => destruct b
      | |- emits _ (match ?b with _ => _ end) => destruct b
      end ].

Lemma refs_commit w out : refs (commit w out) = snd (fst out).
Proof. destruct out as [[u r] es]. reflexivity. Qed.

Lemma state_commit w out : state (commit w out) = applyEffects (state w) (snd out).
Proof. destruct out as [[u r] es]. reflexivity. Qed.

Lemma refs_frame h w inp : refs (frame h w inp) = exec (update h (closure w) inp) (refs w).
Proof. unfold frame. rewrite refs_commit. reflexivity. Qed.

Lemma state_frame h w inp :
  state (frame h w inp) = applyEffects (state w) (effects (update h (closure w) inp) (refs w)).
Proof. unfold frame. rewrite state_commit. reflexivity. Qed.

(** * Movement: the player stays on the track *)

Lemma clamp_on_track (x : Q) :
  0 <= Qmax 0 (Qmin (CANVAS_WIDTH - CAR_WIDTH) x) <= CANVAS_WIDTH - CAR_WIDTH.
Proof.
  split.
  - apply Q.le_max_l.
  - apply Q.max_lub; [unfold CANVAS_WIDTH, CAR_WIDTH; lra | apply Q.le_min_l].
Qed.

Lemma currentSpeed_pos s : 0 < currentSpeed s.
Proof.
  unfold currentSpeed, basePlayerSpeed.
  destruct (tireType s), (activeBoost s >? 0)%Z; reflexivity.
Qed.

Lemma keeps_on_track_player_x (f : Q -> Q) :
  (forall x, 0 <= x <= CANVAS_WIDTH - CAR_WIDTH -> 0 <= f x <= CANVAS_WIDTH - CAR_WIDTH) ->
  keeps on_track (modify_player_x f).
Proof. intros Hf r H. apply Hf, H. Qed.

(** Clamping puts the player on the track wherever the pull left it. *)
Lemma clamp_player_on_track r :
  on_track (exec (modify_player_x (fun x => Qmax 0 (Qmin (CANVAS_WIDTH - CAR_WIDTH) x))) r).
Proof. apply clamp_on_track. Qed.

Lemma movePlayer_on_track h s inp : keeps on_track (movePlayer h s inp).
Proof.
  unfold movePlayer. pose proof (currentSpeed_pos s) as Hs.
  destruct ((moveLeft inp || moveRight inp) && (isSliding s =? 0)%Z);
    [| destruct (isSliding s >? 0)%Z;
       [apply keeps_established; intros _ r; apply clamp_player_on_track | apply keeps_ret]].
  repeat frame_step.
  - apply keeps_on_track_player_x. intros x [H0 H1]. split.
    + apply Q.le_max_l.
    + apply Q.max_lub; [unfold CANVAS_WIDTH, CAR_WIDTH; lra | lra].
  - apply keeps_on_track_player_x. intros x [H0 H1]. split.
    + apply Q.min_glb; [unfold CANVAS_WIDTH, CAR_WIDTH; lra | lra].
    + apply Q.le_min_l.
Qed.

Lemma gravityPull_on_track h inp enemy : keeps on_track (gravityPull h inp enemy).
Proof.
  unfold gravityPull.
  destruct (Enemy.type enemy); try apply keeps_ret.
  destruct (Enemy.pull enemy) as [pull|]; [| apply keeps_ret].
  apply keeps_bind; [apply keeps_get | intros r0].
  apply keeps_when. apply keeps_established. intros _ r. apply clamp_player_on_track.
Qed.

(** ** What the steps after the movement leave alone

    A property of the refs that survives a push, a change of the spawn
    clock or of the road offset, and a draw, survives steps 2 to 7. *)

Section FieldKept.
Context (I : Refs -> Prop).
Hypothesis I_enemies : forall l r, I r -> I (set_enemiesRef l r).
Hypothesis I_powerUps : forall l r, I r -> I (set_powerUpsRef l r).
Hypothesis I_lastSpawn : forall t r, I r -> I (set_lastSpawnTimeRef t r).
Hypothesis I_road : forall o r, I r -> I (set_roadOffsetRef o r).
Hypothesis I_random : forall n r, I r -> I (set_randomCalls n r).

Ltac keeps_by_fields :=
  repeat first
    [ frame_step
    | apply keeps_modify; intros ? ?;
      first [ apply I_enemies | apply I_powerUps | apply I_lastSpawn | apply I_road ];
      assumption
    | apply keeps_random; intros ? ? ?; apply I_random; assumption
    | assumption ].

Lemma pickX_kept h spawnedX retries : keeps I (pickX h spawnedX retries).
Proof.
  induction retries as [|k IH]; simpl; keeps_by_fields.
Qed.

Lemma create_kept h s x b : keeps I (create h s x b).
Proof. destruct b; unfold create, push_powerUp, push_enemy; keeps_by_fields. Qed.

Lemma spawnEntity_kept h s i x : keeps I (spawnEntity h s i x).
Proof.
  unfold spawnEntity. apply keeps_bind; [keeps_by_fields | intros rand; apply create_kept].
Qed.

Lemma spawnSlots_kept h s todo : forall i spawnedX, keeps I (spawnSlots h s i todo spawnedX).
Proof.
  induction todo as [|todo IH]; intros i spawnedX; cbn [spawnSlots].
  - apply keeps_ret.
  - apply keeps_bind; [apply pickX_kept | intros x].
    apply keeps_bind; [apply spawnEntity_kept | intros _; apply IH].
Qed.

Lemma spawn_kept h s inp : keeps I (spawn h s inp).
Proof.
  unfold spawn, spawnCount.
  apply keeps_bind; [apply keeps_get | intros r0]. apply keeps_when.
  apply keeps_bind; [keeps_by_fields | intros n].
  apply keeps_bind; [apply spawnSlots_kept | intros _; keeps_by_fields].
Qed.

Lemma updatePowerUps_kept : keeps I updatePowerUps.
Proof. unfold updatePowerUps, powerUpFrame. keeps_by_fields. Qed.

Lemma updateEnemies_kept s : keeps I (updateEnemies s).
Proof. unfold updateEnemies, enemyFrame, passCheck, gameOver. keeps_by_fields. Qed.

Lemma decayTimers_kept s : keeps I (decayTimers s).
Proof. unfold decayTimers. keeps_by_fields. Qed.

Lemma afterEnemies_kept s :
  keeps I (decayTimers s ;; updateDifficulty s ;; roadAnimation s).
Proof.
  apply keeps_bind; [apply decayTimers_kept | intros _].
  unfold updateDifficulty, roadAnimation. keeps_by_fields.
Qed.

Lemma afterMovement_kept h s inp :
  keeps I (spawn h s inp ;; updatePowerUps ;; updateEnemies s ;;
           decayTimers s ;; updateDifficulty s ;; roadAnimation s).
Proof.
  apply keeps_bind; [apply spawn_kept | intros _].
  apply keeps_bind; [apply updatePowerUps_kept | intros _].
  apply keeps_bind; [apply updateEnemies_kept | intros _].
  apply afterEnemies_kept.
Qed.

End FieldKept.

Lemma survivalReward_player p inp :
  keeps (fun r => playerRef r = p) (survivalReward inp).
Proof.
  unfold survivalReward. repeat frame_step.
Qed.

Lemma afterMovement_player p h s inp :
  keeps (fun r => playerRef r = p)
    (spawn h s inp ;; updatePowerUps ;; updateEnemies s ;;
     decayTimers s ;; updateDifficulty s ;; roadAnimation s).
Proof. apply afterMovement_kept; intros; assumption. Qed.

Lemma movementStep_on_track h s inp : keeps on_track (movementStep h s inp).
Proof.
  unfold movementStep, applyGravity.
  apply keeps_bind; [apply movePlayer_on_track | intros _].
  apply keeps_bind; [apply keeps_get | intros r0].
  apply keeps_forEach. intros enemy. apply gravityPull_on_track.
Qed.

Lemma update_on_track h s inp : keeps on_track (update h s inp).
Proof.
  unfold update.
  destruct (negb (bool_decide (gameState s = PLAYING))); [apply keeps_ret |].
  destruct (negb (has_ctx inp)); [apply keeps_ret |].
  apply keeps_bind; [| intros _].
  { intros r H. unfold on_track. rewrite (survivalReward_player _ inp r eq_refl). exact H. }
  apply keeps_bind; [apply movementStep_on_track | intros _].
  intros r H. unfold on_track. rewrite (afterMovement_player _ h s inp r eq_refl). exact H.
Qed.

Lemma start_on_track registered w now1 now2 : startable w -> on_track (refs (start registered w now1 now2)).
Proof.
  intros Hw. unfold start.
  assert (on_track (refs (commit w (startGame registered now1 now2 (refs w))))) as H.
  { rewrite refs_commit. unfold on_track. simpl. split; discriminate. }
  destruct Hw as [[-> | ->] _]; exact H.
Qed.

Lemma run_snoc h registered w now1 now2 inps inp :
  run h registered w now1 now2 (inps ++ [inp]) = frame h (run h registered w now1 now2 inps) inp.
Proof. unfold run. rewrite fold_left_app. reflexivity. Qed.

Lemma run_on_track h registered w now1 now2 inps :
  startable w -> on_track (refs (run h registered w now1 now2 inps)).
Proof.
  intros Hw. induction inps as [|inp inps IH] using rev_ind.
  - apply start_on_track, Hw.
  - rewrite run_snoc, refs_frame. apply update_on_track, IH.
Qed.

(** C4.  In every world a run reaches, whatever state snapshot the frame
    callback holds (any slide timer, boost timer and tire kind), whatever the
    steer intents and the time stamp, and whatever obstacles are on the track
    (any number of gravity zones with any pull), the player's x lies in
    [[0, CANVAS_WIDTH - CAR_WIDTH]] once the movement step of the next frame
    has run, as it does when the frame begins. *)
Theorem player_x_stays_on_track h registered w now1 now2 inps s inp :
  startable w ->
  let r := refs (run h registered w now1 now2 inps) in
  on_track r /\
  on_track (exec (survivalReward inp ;; movementStep h s inp) r).
Proof.
  intros Hw r. pose proof (run_on_track h registered w now1 now2 inps Hw) as Hr.
  split; [exact Hr |].
  rewrite exec_bind. apply movementStep_on_track.
  unfold on_track. rewrite (survivalReward_player _ inp r eq_refl). exact Hr.
Qed.

(** Witness of [player_x_stays_on_track]: the first run of a freshly
    mounted component, one idle frame in. *)
Lemma player_x_stays_on_track_witness :
  startable initialWorld /\
  on_track (exec (survivalReward (idleInput 32) ;;
                  movementStep (constantHost 0.9) (playingState 1 0) (idleInput 32))
              (refs (run (constantHost 0.9) initialState initialWorld 0 0 [idleInput 16]))).
Proof.
  assert (startable initialWorld) as Hw by (split; [left |]; reflexivity).
  split; [exact Hw |].
  apply (player_x_stays_on_track (constantHost 0.9) initialState initialWorld 0 0 [idleInput 16]
           (playingState 1 0) (idleInput 32) Hw).
Defined.

(** * Spawning *)

(** ** The kind draw *)

Lemma chooseBranch_selectable s i rand : selectable (chooseBranch s i rand).
Proof.
  unfold chooseBranch, selectable.
  destruct (rand <? 0.4) eqn:H04; [tauto |].
  apply Qltb_false in H04.
  assert ((rand <? 0.25) = false) as -> by (apply Qltb_false; lra).
  assert ((rand <? 0.35) = false) as -> by (apply Qltb_false; lra).
  assert ((rand <? 0.3) = false) as -> by (apply Qltb_false; lra).
  rewrite andb_false_r. simpl.
  destruct ((rand <? 0.5) && (difficulty s >? 1.4)); [tauto |].
  destruct ((rand <? 0.6) && (difficulty s >? 1.5)); [tauto |].
  destruct ((rand <? 0.7) && (difficulty s >? 1.6)); tauto.
Qed.

(** Each selectable branch is selected by some draw (at difficulty 2, and
    the coin and the car at any difficulty). *)
Lemma chooseBranch_reaches_selectable :
  (forall s i, chooseBranch s i 0.1 = coin_branch) /\
  (forall s i, chooseBranch s i 0.9 = car_branch) /\
  (forall i, chooseBranch (playingState 2 0) i 0.45 = gravity_branch) /\
  (forall i, chooseBranch (playingState 2 0) i 0.55 = platform_branch) /\
  (forall i, chooseBranch (playingState 2 0) i 0.65 = chaser_branch).
Proof.
  repeat split; intros; unfold chooseBranch;
    destruct (i =? 0)%nat; reflexivity.
Qed.

Lemma grownByDrawableKinds_refl r : grownByDrawableKinds r r.
Proof.
  exists [], []. rewrite !app_nil_r. repeat split; constructor.
Qed.

Lemma grownByDrawableKinds_coin r0 r p :
  PowerUp.type p = Some COIN ->
  grownByDrawableKinds r0 r ->
  grownByDrawableKinds r0 (set_powerUpsRef (powerUpsRef r ++ [p]) r).
Proof.
  intros Hp (ps & es & Hps & Hes & Fps & Fes).
  exists (ps ++ [p]), es. simpl. rewrite Hps, <- app_assoc.
  repeat split; trivial. apply Forall_app. split; [exact Fps | repeat constructor; exact Hp].
Qed.

Lemma grownByDrawableKinds_enemy r0 r e :
  Enemy.type e <> BARRIER /\ Enemy.type e <> OIL /\ Enemy.type e <> LASER ->
  grownByDrawableKinds r0 r ->
  grownByDrawableKinds r0 (set_enemiesRef (enemiesRef r ++ [e]) r).
Proof.
  intros He (ps & es & Hps & Hes & Fps & Fes).
  exists ps, (es ++ [e]). simpl. rewrite Hes, <- app_assoc.
  repeat split; trivial. apply Forall_app. split; [exact Fes | repeat constructor; apply He].
Qed.

Ltac keeps_grown :=
  repeat first
    [ frame_step
    | apply keeps_random; intros ? ? ?; assumption
    | apply keeps_modify; intros ? ?; first
        [ assumption
        | apply grownByDrawableKinds_coin; [reflexivity | assumption]
        | apply grownByDrawableKinds_enemy; [repeat split; discriminate | assumption] ] ].

Section SpawnedKinds.
Context (r0 : Refs).

Lemma pickX_kinds h spawnedX retries :
  keeps (grownByDrawableKinds r0) (pickX h spawnedX retries).
Proof. induction retries as [|k IH]; simpl; keeps_grown; exact IH. Qed.

Lemma create_kinds h s x b :
  selectable b -> keeps (grownByDrawableKinds r0) (create h s x b).
Proof.
  intros [-> | [-> | [-> | [-> | ->]]]];
    unfold create, push_powerUp, push_enemy; keeps_grown.
Qed.

Lemma spawnSlots_kinds h s todo :
  forall i spawnedX, keeps (grownByDrawableKinds r0) (spawnSlots h s i todo spawnedX).
Proof.
  induction todo as [|todo IH]; intros i spawnedX; cbn [spawnSlots].
  - apply keeps_ret.
  - apply keeps_bind; [apply pickX_kinds | intros x].
    apply keeps_bind; [| intros _; apply IH].
    unfold spawnEntity. apply keeps_bind; [keeps_grown | intros rand].
    apply create_kinds, chooseBranch_selectable.
Qed.

Lemma spawn_kinds h s inp : keeps (grownByDrawableKinds r0) (spawn h s inp).
Proof.
  unfold spawn, spawnCount.
  apply keeps_bind; [apply keeps_get | intros r1]. apply keeps_when.
  apply keeps_bind; [keeps_grown | intros n].
  apply keeps_bind; [apply spawnSlots_kinds | intros _; keeps_grown].
Qed.

End SpawnedKinds.

(** C1 (the code falls short of it).  Whatever the difficulty, the slot
    and the draws, the spawn step adds nothing but coins to the collectibles
    and no barrier, oil slick or laser grid to the obstacles: the draw
    [rand < 0.4] that selects the coin comes first in the chain and covers
    the sub-ranges [rand < 0.25], [rand < 0.35], [rand < 0.3] and
    [rand < 0.4] of the power-up, barrier, oil and laser branches. *)
Theorem spawn_never_creates_shadowed_kinds h s inp r :
  grownByDrawableKinds r (exec (spawn h s inp) r).
Proof. apply spawn_kinds, grownByDrawableKinds_refl. Qed.

(** ** What a branch builds *)

(** The draws behind a slot's x never look at the player. *)
Lemma pickX_ignores_player h spawnedX retries p r :
  value (pickX h spawnedX retries) (set_playerRef p r) = value (pickX h spawnedX retries) r.
Proof.
  revert r. induction retries as [|k IH]; intros r; cbn [pickX]; rewrite !value_bind.
  - reflexivity.
  - change (value (random h) (set_playerRef p r)) with (value (random h) r).
    destruct (tooClose spawnedX (value (random h) r * (CANVAS_WIDTH - CAR_WIDTH))).
    + apply (IH (set_randomCalls (S (randomCalls r)) r)).
    + reflexivity.
Qed.

(** C6 (as amended).  Whichever branch of the kind draw runs, it pushes
    exactly one entity, at y = -CAR_HEIGHT whatever the entity's own height,
    moving down at INITIAL_ENEMY_SPEED * difficulty times the factor of its
    kind (1 for collectibles).  A laser grid and a gravity zone sit at x = 0
    and are CANVAS_WIDTH wide; a platform and a chaser sit at the slot's
    drawn x, and that x does not depend on where the player is. *)
Theorem spawned_entity_shape h s x b r :
  let r' := exec (create h s x b) r in
  ((exists p,
      branchObstacle b = None /\
      powerUpsRef r' = powerUpsRef r ++ [p] /\ enemiesRef r' = enemiesRef r /\
      PowerUp.y p = - CAR_HEIGHT /\
      PowerUp.speed p = INITIAL_ENEMY_SPEED * difficulty s) \/
   (exists e,
      branchObstacle b = Some (Enemy.type e) /\
      enemiesRef r' = enemiesRef r ++ [e] /\ powerUpsRef r' = powerUpsRef r /\
      Enemy.y e = - CAR_HEIGHT /\
      Enemy.speed e == INITIAL_ENEMY_SPEED * difficulty s * speedFactor (Enemy.type e) /\
      (Enemy.type e = LASER \/ Enemy.type e = GRAVITY ->
       Enemy.x e = 0 /\ Enemy.width e = CANVAS_WIDTH) /\
      (Enemy.type e = PLATFORM \/ Enemy.type e = CHASER -> Enemy.x e = x))) /\
  (forall spawnedX p,
      value (pickX h spawnedX 9) (set_playerRef p r) = value (pickX h spawnedX 9) r).
Proof.
  split; [| intros; apply pickX_ignores_player].
  destruct b; cbn.
  1-2: left; eexists; repeat split; reflexivity.
  all: right; eexists; repeat split; try reflexivity;
    try (cbn; ring);
    try (intros [H | H]; discriminate H);
    try match goal with H : _ \/ _ |- _ => destruct H as [H | H]; discriminate H end.
Qed.

(** C6, counterexample to the claim as stated.  With every draw 0.1 the
    spawn step of a frame 5 s into a game creates a coin 25 high at y = -70,
    not at minus its own height; and with every draw 0.65 at difficulty 2 it
    creates a chaser at x = 0.65 * 360 = 234, wherever the player is. *)
Lemma spawned_coin_not_above_by_own_height :
  (exists p,
     powerUpsRef (exec (spawn (constantHost 0.1) (playingState 1 0) (idleInput 5000)) initialRefs)
       = [p] /\
     PowerUp.type p = Some COIN /\
     ~ PowerUp.y p == - PowerUp.height p) /\
  (forall px,
     exists e,
       enemiesRef (exec (spawn (constantHost 0.65) (playingState 2 0) (idleInput 5000))
                     (set_playerRef (GameObject.set_x px initialPlayer) initialRefs))
         = [e; e] /\
       Enemy.type e = CHASER /\ Enemy.x e == 234).
Proof.
  split.
  - eexists. split; [vm_compute; reflexivity |]. split; [reflexivity |].
    cbn. intros H. discriminate H.
  - intros px. eexists. split; [vm_compute; reflexivity |]. split; reflexivity.
Qed.

(** ** The spawn clock and the number of slots *)

(** Spawning queues no effect at all. *)
Section SpawnSilent.
Context (P : Effect -> Prop).

Lemma pickX_silent h spawnedX retries : emits P (pickX h spawnedX retries).
Proof. induction retries as [|k IH]; simpl; repeat frame_step; exact IH. Qed.

Lemma create_silent h s x b : emits P (create h s x b).
Proof. destruct b; unfold create, push_powerUp, push_enemy; repeat frame_step. Qed.

Lemma spawnSlots_silent h s todo :
  forall i spawnedX, emits P (spawnSlots h s i todo spawnedX).
Proof.
  induction todo as [|todo IH]; intros i spawnedX; cbn [spawnSlots].
  - apply emits_ret.
  - apply emits_bind; [apply pickX_silent | intros x].
    apply emits_bind; [| intros _; apply IH].
    unfold spawnEntity. apply emits_bind; [apply emits_random | intros rand; apply create_silent].
Qed.

Lemma spawn_silent h s inp : emits P (spawn h s inp).
Proof.
  unfold spawn, spawnCount.
  apply emits_bind; [apply emits_get | intros r1]. apply emits_when.
  apply emits_bind; [repeat frame_step | intros n].
  apply emits_bind; [apply spawnSlots_silent | intros _; repeat frame_step].
Qed.

End SpawnSilent.

Lemma pickX_count h spawnedX retries n :
  keeps (fun r => entityCount r = n) (pickX h spawnedX retries).
Proof.
  induction retries as [|k IH]; simpl; repeat frame_step;
    try exact IH; apply keeps_random; intros ? ? H; exact H.
Qed.

Lemma create_count h s x b r :
  entityCount (exec (create h s x b) r) = S (entityCount r).
Proof.
  destruct b; unfold entityCount; cbn; rewrite length_app; simpl; lia.
Qed.

Lemma spawnSlots_count h s todo :
  forall i spawnedX r,
    entityCount (exec (spawnSlots h s i todo spawnedX) r) = (entityCount r + todo)%nat.
Proof.
  induction todo as [|todo IH]; intros i spawnedX r; cbn [spawnSlots].
  - cbn. lia.
  - rewrite !exec_bind, IH. unfold spawnEntity. rewrite exec_bind, create_count.
    change (entityCount (exec (random h) ?r)) with (entityCount r).
    rewrite (pickX_count h spawnedX 9 (entityCount r) r eq_refl).
    cbn. lia.
Qed.

Lemma spawnCount_value h s r :
  (value (spawnCount h s) r = 1%nat \/ value (spawnCount h s) r = 2%nat) /\
  (value (spawnCount h s) r = 2%nat <->
   1.5 < difficulty s /\ 0.5 < Math_random h (randomCalls r)).
Proof.
  unfold spawnCount.
  destruct (difficulty s >? 1.5) eqn:Hd.
  - apply Qgtb_true in Hd. rewrite value_bind. cbn.
    destruct (Math_random h (randomCalls r) >? 0.5) eqn:Hc.
    + apply Qgtb_true in Hc. tauto.
    + apply Qgtb_false in Hc. split; [tauto |].
      split; [discriminate | intros [_ H]; lra].
  - apply Qgtb_false in Hd. cbn. split; [tauto |].
    split; [discriminate | intros [H _]; lra].
Qed.

(** C8 (as amended).  With a positive difficulty the spawn interval is
    ENEMY_SPAWN_RATE / difficulty, halved while the boost timer is positive.
    On a frame whose time stamp is more than that past the last spawn, the
    spawn step adds one or two entities (two exactly when difficulty > 1.5
    and the draw made for the count is > 0.5) and sets the spawn clock to
    the frame's time; on a frame where the elapsed time is at most the
    interval, equality included, it does nothing. *)
Theorem spawn_paced_by_interval h s inp r :
  0 < difficulty s ->
  let n := value (spawnCount h s) r in
  let r' := exec (spawn h s inp) r in
  ((0 < activeBoost s)%Z -> spawnInterval s == ENEMY_SPAWN_RATE / difficulty s / 2) /\
  ((activeBoost s <= 0)%Z -> spawnInterval s == ENEMY_SPAWN_RATE / difficulty s) /\
  (spawnInterval s < time inp - lastSpawnTimeRef r ->
     entityCount r' = (entityCount r + n)%nat /\
     (n = 1%nat \/ n = 2%nat) /\
     (n = 2%nat <-> 1.5 < difficulty s /\ 0.5 < Math_random h (randomCalls r)) /\
     lastSpawnTimeRef r' = time inp) /\
  (time inp - lastSpawnTimeRef r <= spawnInterval s ->
     spawn h s inp r = (tt, r, [])).
Proof.
  intros Hd n r'. split; [| split; [| split]].
  - intros Hb. unfold spawnInterval. apply Zgtb_true in Hb. rewrite Hb.
    field. lra.
  - intros Hb. unfold spawnInterval. apply Zgtb_false in Hb. rewrite Hb.
    field. lra.
  - intros Hgt. apply Qgtb_true in Hgt.
    destruct (spawnCount_value h s r) as [H12 H2].
    subst r'. unfold spawn. rewrite exec_bind. cbn [value get exec fst snd].
    rewrite Hgt. cbn [when]. rewrite !exec_bind.
    split; [| split; [exact H12 | split; [exact H2 | reflexivity]]].
    change (entityCount (exec (modify ?f) ?x)) with (entityCount x).
    rewrite spawnSlots_count. fold n.
    unfold spawnCount. destruct (difficulty s >? 1.5); reflexivity.
  - intros Hle. apply Qgtb_false in Hle. unfold spawn, bind. cbn.
    rewrite Hle. reflexivity.
Qed.

(** Witness of [spawn_paced_by_interval]: 5 s into a game at difficulty 2
    with every draw 0.9, two entities appear. *)
Lemma spawn_paced_by_interval_witness :
  0 < difficulty (playingState 2 0) /\
  entityCount (exec (spawn (constantHost 0.9) (playingState 2 0) (idleInput 5000)) initialRefs)
    = 2%nat.
Proof.
  assert (0 < difficulty (playingState 2 0)) as Hd by reflexivity.
  split; [exact Hd |].
  destruct (spawn_paced_by_interval (constantHost 0.9) (playingState 2 0)
              (idleInput 5000) initialRefs Hd) as (_ & _ & H & _).
  destruct H as [H _]; [reflexivity |].
  rewrite H. reflexivity.
Defined.

(** C8, counterexample to the claim as stated.  At difficulty 1 without
    boost the interval is 1200 ms; on the frame where exactly 1200 ms have
    elapsed since the last spawn (so the elapsed time is at least the
    interval) nothing is created and the spawn clock keeps its old value. *)
Lemma no_spawn_when_interval_just_elapsed :
  let s := playingState 1 0 in
  let inp := idleInput 1200 in
  let r' := exec (spawn (constantHost 0.9) s inp) initialRefs in
  spawnInterval s <= time inp - lastSpawnTimeRef initialRefs /\
  entityCount r' = entityCount initialRefs /\
  lastSpawnTimeRef r' = 0 /\
  ~ lastSpawnTimeRef r' == time inp.
Proof.
  cbv zeta. split; [discriminate |]. split; [reflexivity |]. split; [reflexivity |].
  intros H. discriminate H.
Qed.

(** * The survival coin reward *)

Lemma update_playing h s inp :
  gameState s = PLAYING -> has_ctx inp = true ->
  update h s inp =
    (survivalReward inp ;; movementStep h s inp ;; spawn h s inp ;; updatePowerUps ;;
     updateEnemies s ;; decayTimers s ;; updateDifficulty s ;; roadAnimation s).
Proof. intros Hg Hc. unfold update. rewrite Hg, Hc. reflexivity. Qed.

Lemma update_idle h s inp r :
  gameState s <> PLAYING \/ has_ctx inp = false ->
  update h s inp r = (tt, r, []).
Proof.
  intros [Hg | Hc]; unfold update.
  - rewrite bool_decide_eq_false_2 by exact Hg. reflexivity.
  - rewrite Hc. destruct (negb (bool_decide (gameState s = PLAYING))); reflexivity.
Qed.

Lemma coinsQueued_app es1 es2 :
  coinsQueued (es1 ++ es2) = (coinsQueued es1 + coinsQueued es2)%Z.
Proof.
  induction es1 as [|e es1 IH]; [reflexivity |].
  destruct e; simpl; rewrite ?IH; lia.
Qed.

Lemma coinsQueued_none es :
  Forall (fun e => e <> setCoins_incr) es -> coinsQueued es = 0%Z.
Proof.
  induction 1 as [|e es He _ IH]; [reflexivity |].
  destruct e; simpl; try exact IH. congruence.
Qed.

Lemma coins_applyEffects es : forall st,
  coins (applyEffects st es) = (coins st + coinsQueued es)%Z.
Proof.
  induction es as [|e es IH]; intros st; simpl.
  - lia.
  - unfold applyEffects in *. simpl. rewrite IH. destruct e; simpl; lia.
Qed.

(** Discharge [emits P c] for a [P] that holds of every effect in [c] by
    discrimination. *)
Ltac emits_by_cases :=
  repeat first [ frame_step | apply emits_emit; try discriminate ].

Lemma movementStep_no_coin h s inp :
  emits (fun e => e <> setCoins_incr) (movementStep h s inp).
Proof.
  unfold movementStep, movePlayer, applyGravity, gravityPull, modify_player_x. emits_by_cases.
Qed.

Lemma updateEnemies_no_coin s :
  emits (fun e => e <> setCoins_incr) (updateEnemies s).
Proof. unfold updateEnemies, enemyFrame, passCheck, gameOver. emits_by_cases. Qed.

Lemma afterEnemies_no_coin s :
  emits (fun e => e <> setCoins_incr)
    (decayTimers s ;; updateDifficulty s ;; roadAnimation s).
Proof. unfold decayTimers, updateDifficulty, roadAnimation. emits_by_cases. Qed.

Lemma survivalReward_due inp r :
  5000 < time inp - lastCoinRewardTimeRef r ->
  survivalReward inp r = (tt, set_lastCoinRewardTimeRef (time inp) r, [setCoins_incr]).
Proof.
  intros H. apply Qgtb_true in H. unfold survivalReward, bind. cbn. rewrite H. reflexivity.
Qed.

Lemma survivalReward_not_due inp r :
  time inp - lastCoinRewardTimeRef r <= 5000 ->
  survivalReward inp r = (tt, r, []).
Proof.
  intros H. apply Qgtb_false in H. unfold survivalReward, bind. cbn. rewrite H. reflexivity.
Qed.

Lemma afterReward_rewardClock t h s inp :
  keeps (fun r => lastCoinRewardTimeRef r = t)
    (movementStep h s inp ;; spawn h s inp ;; updatePowerUps ;; updateEnemies s ;;
     decayTimers s ;; updateDifficulty s ;; roadAnimation s).
Proof.
  apply keeps_bind; [| intros _; apply afterMovement_kept; intros; assumption].
  unfold movementStep, movePlayer, applyGravity, gravityPull, modify_player_x.
  repeat frame_step.
Qed.

(** C10 (as amended).  On a frame run while PLAYING (with a canvas), if
    more than 5000 ms have passed since the last survival reward, the frame
    queues one coin increment of its own, ahead of everything else, and sets
    the reward clock to the frame's time: the coin total grows by 1 plus the
    coins picked up in that frame, hence by 1 when none is picked up.  If at
    most 5000 ms have passed, equality included, the clock is left alone and
    the coin total grows by the pickups only. *)
Theorem survival_reward_every_5s h s inp r st :
  gameState s = PLAYING -> has_ctx inp = true ->
  let es := effects (update h s inp) r in
  let r' := exec (update h s inp) r in
  let picked :=
    coinsQueued
      (effects updatePowerUps
         (exec (survivalReward inp ;; movementStep h s inp ;; spawn h s inp) r)) in
  (5000 < time inp - lastCoinRewardTimeRef r ->
     (exists es', es = setCoins_incr :: es') /\
     coins (applyEffects st es) = (coins st + 1 + picked)%Z /\
     lastCoinRewardTimeRef r' = time inp) /\
  (time inp - lastCoinRewardTimeRef r <= 5000 ->
     coins (applyEffects st es) = (coins st + picked)%Z /\
     lastCoinRewardTimeRef r' = lastCoinRewardTimeRef r).
Proof.
  intros Hg Hc es r' picked. subst es r' picked.
  rewrite (update_playing h s inp Hg Hc).
  assert (forall r1,
    coinsQueued
      (effects (movementStep h s inp ;; spawn h s inp ;; updatePowerUps ;;
                updateEnemies s ;; decayTimers s ;; updateDifficulty s ;; roadAnimation s) r1)
    = coinsQueued (effects updatePowerUps (exec (movementStep h s inp ;; spawn h s inp) r1)))
    as Hrest.
  { intros r1. do 4 (rewrite effects_bind, coinsQueued_app). rewrite !exec_bind.
    rewrite (coinsQueued_none _ (movementStep_no_coin h s inp r1)).
    rewrite (coinsQueued_none _ (spawn_silent _ h s inp _)).
    rewrite (coinsQueued_none _ (updateEnemies_no_coin s _)).
    rewrite (coinsQueued_none _ (afterEnemies_no_coin s _)).
    lia. }
  split; intros Ht.
  - pose proof (survivalReward_due inp r Ht) as Hr.
    assert (effects (survivalReward inp) r = [setCoins_incr]) as E1
      by (unfold effects; rewrite Hr; reflexivity).
    assert (exec (survivalReward inp) r = set_lastCoinRewardTimeRef (time inp) r) as E2
      by (unfold exec; rewrite Hr; reflexivity).
    rewrite coins_applyEffects, effects_bind, coinsQueued_app, Hrest.
    rewrite (exec_bind (survivalReward inp)), (exec_bind (survivalReward inp)).
    cbv beta. rewrite E1, E2. cbn [coinsQueued app].
    split; [eexists; reflexivity |]. split; [lia |].
    apply (afterReward_rewardClock (time inp) h s inp). reflexivity.
  - pose proof (survivalReward_not_due inp r Ht) as Hr.
    assert (effects (survivalReward inp) r = []) as E1
      by (unfold effects; rewrite Hr; reflexivity).
    assert (exec (survivalReward inp) r = r) as E2
      by (unfold exec; rewrite Hr; reflexivity).
    rewrite coins_applyEffects, effects_bind, coinsQueued_app, Hrest.
    rewrite (exec_bind (survivalReward inp)), (exec_bind (survivalReward inp)).
    cbv beta. rewrite E1, E2. cbn [coinsQueued app].
    split; [lia |].
    apply (afterReward_rewardClock (lastCoinRewardTimeRef r) h s inp). reflexivity.
Qed.

(** Witness of [survival_reward_every_5s]: six idle seconds into a game
    the frame pays one coin. *)
Lemma survival_reward_every_5s_witness :
  gameState (playingState 1 0) = PLAYING /\
  has_ctx (idleInput 6000) = true /\
  coins (applyEffects (playingState 1 0)
           (effects (update (constantHost 0.9) (playingState 1 0) (idleInput 6000)) initialRefs))
    = 1%Z.
Proof.
  split; [reflexivity |]. split; [reflexivity |].
  destruct (survival_reward_every_5s (constantHost 0.9) (playingState 1 0) (idleInput 6000)
              initialRefs (playingState 1 0) eq_refl eq_refl) as [H _].
  destruct H as (_ & H & _); [reflexivity |].
  rewrite H. reflexivity.
Defined.

(** C10, counterexample to the claim as stated.  On the frame where
    exactly 5000 ms have passed since the last reward (so at least 5000 ms
    have), no coin is paid and the reward clock is not reset. *)
Lemma no_reward_at_exactly_5000ms :
  let s := playingState 1 0 in
  let inp := idleInput 5000 in
  let r' := exec (update (constantHost 0.9) s inp) initialRefs in
  5000 <= time inp - lastCoinRewardTimeRef initialRefs /\
  coins (applyEffects s (effects (update (constantHost 0.9) s inp) initialRefs)) = coins s /\
  lastCoinRewardTimeRef r' = 0.
Proof.
  cbv zeta. split; [discriminate |]. split; vm_compute; reflexivity.
Qed.

(** * Obstacles: behaviour, collision, scroll-past *)

(** ** Callbacks that leave the refs alone *)

Lemma filterFrame_quiet {A} (f : A -> Frame (A * bool)) :
  (forall a r, exec (f a) r = r) ->
  forall l r,
    exec (filterFrame f l) r = r /\
    value (filterFrame f l) r =
      omap (fun a => if snd (value (f a) r) then Some (fst (value (f a) r)) else None) l /\
    effects (filterFrame f l) r = flat_map (fun a => effects (f a) r) l.
Proof.
  intros Hf l r. induction l as [|a l (IHx & IHv & IHe)]; [repeat split |].
  cbn [filterFrame omap flat_map list_omap].
  repeat (rewrite ?exec_bind, ?value_bind, ?effects_bind).
  rewrite !Hf, IHx, IHv, IHe.
  cbn. rewrite app_nil_r. repeat split.
  destruct (snd (value (f a) r)); reflexivity.
Qed.

Lemma enemyFrame_quiet s enemy r : exec (enemyFrame s enemy) r = r.
Proof.
  unfold enemyFrame, passCheck, gameOver, when.
  rewrite exec_bind. cbn [get value exec fst snd].
  repeat match goal with
         | |- context [if ?b then _ else _] => destruct b
         end; reflexivity.
Qed.

Lemma powerUpFrame_quiet p r : exec (powerUpFrame p) r = r.
Proof.
  unfold powerUpFrame, when. rewrite exec_bind. cbn [get value exec fst snd].
  destruct (overlaps _ _ _ _ _); [| reflexivity].
  repeat match goal with
         | |- context [bool_decide ?P] => destruct (bool_decide P)
         end; reflexivity.
Qed.


Lemma updateEnemies_kept_iff s r e' :
  In e' (enemiesRef (exec (updateEnemies s) r)) <->
  exists enemy, In enemy (enemiesRef r) /\ value (enemyFrame s enemy) r = (e', true).
Proof.
  unfold updateEnemies. rewrite !exec_bind. cbn [get value exec fst snd].
  destruct (filterFrame_quiet (enemyFrame s) (enemyFrame_quiet s) (enemiesRef r) r)
    as (Hx & Hv & _).
  rewrite Hx. cbn. rewrite Hv, <- list_elem_of_In, list_elem_of_omap.
  split; intros (enemy & Hin & Hk); exists enemy; rewrite list_elem_of_In in *;
    (split; [exact Hin |]).
  - destruct (value (enemyFrame s enemy) r) as [e b]. simpl in Hk.
    destruct b; [congruence | discriminate].
  - rewrite Hk. reflexivity.
Qed.

(** ** [behave] *)

Lemma flicker_type limit enemy : Enemy.type (flicker limit enemy) = Enemy.type enemy.
Proof.
  unfold flicker. destruct (Enemy.timer enemy) as [t|]; [| reflexivity].
  destruct (t + 1 >? limit)%Z; reflexivity.
Qed.

Lemma barrierLogic_type enemy : Enemy.type (barrierLogic enemy) = Enemy.type enemy.
Proof.
  unfold barrierLogic.
  destruct (Enemy.type enemy) eqn:Ht, (Enemy.vx enemy), (Enemy.direction enemy);
    try exact Ht.
  match goal with |- context [if ?b then _ else _] => destruct b end; exact Ht.
Qed.

Lemma laserLogic_type enemy : Enemy.type (laserLogic enemy) = Enemy.type enemy.
Proof.
  unfold laserLogic. destruct (Enemy.type enemy) eqn:Ht; try exact Ht.
  rewrite flicker_type. exact Ht.
Qed.

Lemma platformLogic_type enemy : Enemy.type (platformLogic enemy) = Enemy.type enemy.
Proof.
  unfold platformLogic. destruct (Enemy.type enemy) eqn:Ht; try exact Ht.
  rewrite flicker_type. exact Ht.
Qed.

Lemma chaserLogic_type s p enemy : Enemy.type (chaserLogic s p enemy) = Enemy.type enemy.
Proof. unfold chaserLogic. destruct (Enemy.type enemy) eqn:Ht; exact Ht. Qed.

Lemma behave_type s p enemy : Enemy.type (behave s p enemy) = Enemy.type enemy.
Proof.
  unfold behave.
  rewrite chaserLogic_type, platformLogic_type, laserLogic_type, barrierLogic_type.
  reflexivity.
Qed.



Lemma powerUpFrame_through_move p1 p2 r :
  PowerUp.set_y (PowerUp.y p1 + PowerUp.speed p1) p1 =
  PowerUp.set_y (PowerUp.y p2 + PowerUp.speed p2) p2 ->
  powerUpFrame p1 r = powerUpFrame p2 r.
Proof. intros H. unfold powerUpFrame. rewrite H. reflexivity. Qed.

Lemma powerUpFrame_value_fst p r :
  fst (value (powerUpFrame p) r) = PowerUp.set_y (PowerUp.y p + PowerUp.speed p) p.
Proof.
  unfold powerUpFrame, when. rewrite value_bind. cbn [get value exec fst snd].
  destruct (overlaps _ _ _ _ _); [| reflexivity].
  repeat match goal with
         | |- context [bool_decide ?P] => destruct (bool_decide P)
         end; reflexivity.
Qed.

Lemma updatePowerUps_kept_iff r p' :
  In p' (powerUpsRef (exec updatePowerUps r)) <->
  exists p, In p (powerUpsRef r) /\ value (powerUpFrame p) r = (p', true).
Proof.
  unfold updatePowerUps. rewrite !exec_bind. cbn [get value exec fst snd].
  destruct (filterFrame_quiet powerUpFrame powerUpFrame_quiet (powerUpsRef r) r)
    as (Hx & Hv & _).
  rewrite Hx. cbn. rewrite Hv, <- list_elem_of_In, list_elem_of_omap.
  split; intros (p & Hin & Hk); exists p; rewrite list_elem_of_In in *;
    (split; [exact Hin |]).
  - destruct (value (powerUpFrame p) r) as [e b]. simpl in Hk.
    destruct b; [congruence | discriminate].
  - rewrite Hk. reflexivity.
Qed.

Lemma dropped_powerUp_not_kept r p :
  snd (value (powerUpFrame p) r) = false ->
  ~ In (PowerUp.set_y (PowerUp.y p + PowerUp.speed p) p) (powerUpsRef (exec updatePowerUps r)).
Proof.
  intros Hdrop. remember (PowerUp.set_y (PowerUp.y p + PowerUp.speed p) p) as p' eqn:Hp'.
  intros Hin. apply updatePowerUps_kept_iff in Hin as (p0 & _ & Hv).
  pose proof (powerUpFrame_value_fst p0 r) as Hb.
  rewrite Hv in Hb. cbn [fst] in Hb. rewrite Hp' in Hb.
  pose proof (powerUpFrame_through_move p0 p r (eq_sym Hb)) as Heq.
  assert (value (powerUpFrame p0) r = value (powerUpFrame p) r) as Hvv
    by (unfold value; rewrite Heq; reflexivity).
  rewrite Hvv in Hv. rewrite Hv in Hdrop. discriminate Hdrop.
Qed.

(** The coin increments of the collectible pass are the coins the player
    overlaps once they have moved down: the pickups counted in
    [survival_reward_every_5s]. *)
Lemma coinsQueued_powerUpFrame p r :
  coinsQueued (effects (powerUpFrame p) r) =
  (if picksCoin (playerRef r) p then 1 else 0)%Z.
Proof.
  unfold powerUpFrame, picksCoin. rewrite effects_bind.
  cbn [get value exec effects fst snd app PowerUp.set_y PowerUp.x PowerUp.y
       PowerUp.width PowerUp.height PowerUp.type].
  destruct (overlaps _ _ _ _ _); [| reflexivity].
  destruct (PowerUp.type p) as [[| | |]|]; reflexivity.
Qed.

Lemma coinsQueued_updatePowerUps r :
  coinsQueued (effects updatePowerUps r) =
  Z.of_nat (length (List.filter (picksCoin (playerRef r)) (powerUpsRef r))).
Proof.
  assert (forall l,
    coinsQueued (flat_map (fun a => effects (powerUpFrame a) r) l) =
    Z.of_nat (length (List.filter (picksCoin (playerRef r)) l))) as Hl.
  { induction l as [|p l IH]; [reflexivity |].
    cbn [flat_map List.filter]. rewrite coinsQueued_app, coinsQueued_powerUpFrame, IH.
    destruct (picksCoin (playerRef r) p); cbn [length]; lia. }
  unfold updatePowerUps. rewrite !effects_bind, !coinsQueued_app.
  cbn [get value exec effects fst snd coinsQueued].
  destruct (filterFrame_quiet powerUpFrame powerUpFrame_quiet (powerUpsRef r) r)
    as (_ & _ & He).
  fold (effects (filterFrame powerUpFrame (powerUpsRef r)) r). rewrite He, Hl.
  cbn. lia.
Qed.

(** The player's y and height are never written: a player above the bottom
    edge stays there through starts and frames. *)
Lemma update_player_above_bottom h s inp : keeps player_above_bottom (update h s inp).
Proof.
  unfold update.
  destruct (negb (bool_decide (gameState s = PLAYING))); [apply keeps_ret |].
  destruct (negb (has_ctx inp)); [apply keeps_ret |].
  apply keeps_bind; [| intros _].
  { intros r H. unfold player_above_bottom.
    rewrite (survivalReward_player _ inp r eq_refl). exact H. }
  apply keeps_bind; [| intros _].
  { unfold movementStep, movePlayer, applyGravity, gravityPull, modify_player_x.
    repeat frame_step. }
  intros r H. unfold player_above_bottom.
  rewrite (afterMovement_player _ h s inp r eq_refl). exact H.
Qed.

Lemma run_player_above_bottom h registered w now1 now2 inps :
  player_above_bottom (refs w) -> player_above_bottom (refs (run h registered w now1 now2 inps)).
Proof.
  intros Hw. induction inps as [|inp inps IH] using rev_ind.
  - unfold run, start. cbn [fold_left].
    destruct (gameState (state w)); try exact Hw; rewrite refs_commit; exact Hw.
  - rewrite run_snoc, refs_frame. apply update_player_above_bottom, IH.
Qed.


(** ** Scroll-past *)


(** ** Laser grid and flicker platform *)

(** C2 (as amended).  For a laser grid and for a flicker platform alike,
    when the obstacle (as [behave] leaves it) overlaps the player: if its
    [active] flag is false or unset the callback keeps it and queues
    nothing; if the flag is true the overlap is fatal, that is, with a
    positive shield timer the shield is reset, the crash sound is played and
    the obstacle is dropped, and otherwise GAMEOVER is queued. *)
Theorem flicker_hazards_fatal_only_while_active s r enemy :
  Enemy.type enemy = LASER \/ Enemy.type enemy = PLATFORM ->
  let e' := behave s (playerRef r) enemy in
  overlaps (playerRef r) (Enemy.x e') (Enemy.y e') (Enemy.width e') (Enemy.height e') = true ->
  (Enemy.not_active e' = true -> enemyFrame s enemy r = ((e', true), r, [])) /\
  (Enemy.active e' = Some true -> (0 < activeShield s)%Z ->
   enemyFrame s enemy r = ((e', false), r, [setActiveShield 0; playSound crash])) /\
  (Enemy.active e' = Some true -> (activeShield s <= 0)%Z ->
   exists b es, enemyFrame s enemy r = ((e', b), r, setGameState GAMEOVER :: es)).
Proof.
  intros Ht e' Hov.
  pose proof (behave_type s (playerRef r) enemy) as Hty. fold e' in Hty.
  unfold enemyFrame, bind, get. cbn [fst snd]. fold e'. rewrite Hov, Hty.
  split; [| split].
  - intros Hn. rewrite Hn. destruct Ht as [-> | ->]; reflexivity.
  - intros Ha Hs. apply Zgtb_true in Hs. unfold Enemy.not_active. rewrite Ha, Hs.
    destruct Ht as [-> | ->]; reflexivity.
  - intros Ha Hs. apply Zgtb_false in Hs. unfold Enemy.not_active. rewrite Ha, Hs.
    clearbody e'. unfold passCheck, gameOver, when, bind, emit, ret.
    destruct Ht as [-> | ->];
      repeat match goal with
             | |- context [bool_decide (?a = ?b)] =>
                 let v := eval vm_compute in (bool_decide (a = b)) in
                 change (bool_decide (a = b)) with v
             end;
      repeat (cbn; match goal with
                   | |- context [if ?b then _ else _] => destruct b
                   end);
      cbn; eexists; eexists; reflexivity.
Qed.

(** Witness of [flicker_hazards_fatal_only_while_active]: an inactive
    platform over the player is kept and harmless. *)
Lemma flicker_hazards_fatal_only_while_active_witness :
  Enemy.type (platformAtPlayer false) = PLATFORM /\
  effects (enemyFrame (playingState 1 0) (platformAtPlayer false)) initialRefs = [].
Proof.
  split; [reflexivity |].
  destruct (flicker_hazards_fatal_only_while_active (playingState 1 0) initialRefs
              (platformAtPlayer false) (or_intror eq_refl) eq_refl) as [H _].
  unfold effects. rewrite (H eq_refl). reflexivity.
Defined.

(** C2, counterexample to the claim as stated.  A flicker platform over
    the player, with no shield: while its [active] flag is false the run goes
    on (the platform is kept, nothing is queued), and while the flag is true
    the frame queues GAMEOVER. *)
Lemma platform_harmless_while_inactive :
  let s := playingState 1 0 in
  let p := playerRef initialRefs in
  let off := behave s p (platformAtPlayer false) in
  let on := behave s p (platformAtPlayer true) in
  overlaps p (Enemy.x off) (Enemy.y off) (Enemy.width off) (Enemy.height off) = true /\
  Enemy.active off = Some false /\
  enemyFrame s (platformAtPlayer false) initialRefs = ((off, true), initialRefs, []) /\
  overlaps p (Enemy.x on) (Enemy.y on) (Enemy.width on) (Enemy.height on) = true /\
  Enemy.active on = Some true /\
  effects (enemyFrame s (platformAtPlayer true)) initialRefs
    = [setGameState GAMEOVER; playSound crash].
Proof. cbv zeta. repeat split; vm_compute; reflexivity. Qed.




Lemma laserLogic_cases enemy :
  laserLogic enemy = if bool_decide (Enemy.type enemy = LASER) then flicker 60 enemy else enemy.
Proof. unfold laserLogic. destruct (Enemy.type enemy); reflexivity. Qed.

Lemma platformLogic_cases enemy :
  platformLogic enemy =
  if bool_decide (Enemy.type enemy = PLATFORM) then flicker 40 enemy else enemy.
Proof. unfold platformLogic. destruct (Enemy.type enemy); reflexivity. Qed.








(** * A frame in three parts *)

Lemma update_split h s inp r :
  gameState s = PLAYING -> has_ctx inp = true ->
  let r4 := exec (beforeEnemies h s inp) r in
  let r5 := exec (updateEnemies s) r4 in
  effects (update h s inp) r =
    effects (beforeEnemies h s inp) r ++ effects (updateEnemies s) r4 ++
    effects (afterEnemies s) r5 /\
  exec (update h s inp) r = exec (afterEnemies s) r5.
Proof.
  intros Hg Hc r4 r5. subst r4 r5.
  rewrite (update_playing h s inp Hg Hc). unfold beforeEnemies, afterEnemies.
  repeat (rewrite ?effects_bind, ?exec_bind). cbv beta.
  rewrite <- !app_assoc. split; reflexivity.
Qed.

Lemma applyEffects_app st es1 es2 :
  applyEffects st (es1 ++ es2) = applyEffects (applyEffects st es1) es2.
Proof. apply fold_left_app. Qed.

(** ** How classes of effects act on the state *)


Lemma shield_unchanged es : forall st,
  Forall (fun e => touchesShield e = false) es ->
  activeShield (applyEffects st es) = activeShield st.
Proof.
  induction es as [|e es IH]; intros st H; [reflexivity |].
  inversion H as [|? ? He Hes]; subst. unfold applyEffects in *. simpl.
  rewrite IH by exact Hes. destruct e; try reflexivity; discriminate He.
Qed.

Lemma gameState_stays_over es : forall st,
  Forall onlyEndsGame es -> gameState st = GAMEOVER ->
  gameState (applyEffects st es) = GAMEOVER.
Proof.
  induction es as [|e es IH]; intros st H Hst; [exact Hst |].
  inversion H as [|? ? He Hes]; subst. unfold applyEffects in *. simpl.
  apply IH; [exact Hes |]. destruct e; try exact Hst. simpl. apply (He g eq_refl).
Qed.

Lemma gameState_ends es : forall st,
  Forall onlyEndsGame es -> In (setGameState GAMEOVER) es ->
  gameState (applyEffects st es) = GAMEOVER.
Proof.
  induction es as [|e es IH]; intros st H Hin; [destruct Hin |].
  inversion H as [|? ? He Hes]; subst. destruct Hin as [-> | Hin].
  - apply (gameState_stays_over es (applyEffect st (setGameState GAMEOVER)) Hes). reflexivity.
  - apply (IH (applyEffect st e) Hes Hin).
Qed.

Lemma shield_stays_reset es : forall st,
  Forall shieldedPassEffect es -> activeShield st = 0%Z ->
  activeShield (applyEffects st es) = 0%Z.
Proof.
  induction es as [|e es IH]; intros st H Hst; [exact Hst |].
  inversion H as [|? ? [_ He] Hes]; subst. unfold applyEffects in *. simpl.
  apply IH; [exact Hes |].
  destruct e; try exact Hst; specialize (He eq_refl); inversion He; reflexivity.
Qed.

Lemma shield_reset es : forall st,
  Forall shieldedPassEffect es -> In (setActiveShield 0) es ->
  activeShield (applyEffects st es) = 0%Z.
Proof.
  induction es as [|e es IH]; intros st H Hin; [destruct Hin |].
  inversion H as [|? ? He Hes]; subst. destruct Hin as [-> | Hin].
  - apply (shield_stays_reset es (applyEffect st (setActiveShield 0)) Hes). reflexivity.
  - apply (IH (applyEffect st e) Hes Hin).
Qed.

(** ** What each part of a frame queues *)





Lemma afterEnemies_shielded s r :
  (0 < activeShield s)%Z ->
  exists es, effects (afterEnemies s) r = setActiveShield_decr :: es /\
             Forall (fun e => touchesShield e = false) es.
Proof.
  intros Hs. apply Zgtb_true in Hs.
  unfold afterEnemies, decayTimers. rewrite Hs.
  rewrite !effects_bind. cbn [when emit effects snd app].
  eexists. split; [reflexivity |].
  repeat (apply Forall_app; split).
  all: try (unfold when;
            match goal with |- context [if ?b then _ else _] => destruct b end;
            repeat constructor).
  all: repeat constructor.
Qed.

Lemma keeps_gameState_only_ends_game es :
  Forall (fun e => changesGameState e = false) es -> Forall onlyEndsGame es.
Proof.
  intros H. eapply Forall_impl; [exact H |]. intros e He g ->. discriminate He.
Qed.

(** ** Solid obstacles *)



Lemma updateEnemies_effects s r :
  effects (updateEnemies s) r = flat_map (fun a => effects (enemyFrame s a) r) (enemiesRef r).
Proof.
  unfold updateEnemies. rewrite !effects_bind. cbn [get value exec effects fst snd app].
  destruct (filterFrame_quiet (enemyFrame s) (enemyFrame_quiet s) (enemiesRef r) r)
    as (_ & _ & He).
  fold (effects (filterFrame (enemyFrame s) (enemiesRef r)) r). rewrite He.
  cbn. apply app_nil_r.
Qed.

(** * Difficulty *)

Lemma level_applyEffects es : forall st,
  difficultyLevel (applyEffects st es) = difficultyLevel st.
Proof.
  induction es as [|e es IH]; intros st; [reflexivity |].
  unfold applyEffects in *. simpl. rewrite IH. destruct e; reflexivity.
Qed.

Lemma score_applyEffects_mono es : forall st,
  Forall (fun e => scoreSafe e = true) es ->
  (score st <= score (applyEffects st es))%Z.
Proof.
  induction es as [|e es IH]; intros st H; [apply Z.le_refl |].
  inversion H as [|? ? He Hes]; subst. unfold applyEffects in *. simpl.
  etransitivity; [| apply IH, Hes].
  destruct e; simpl; try apply Z.le_refl; try discriminate He.
  simpl in He. apply Z.leb_le in He. lia.
Qed.

Lemma update_scoreSafe h s inp : emits (fun e => scoreSafe e = true) (update h s inp).
Proof.
  unfold update.
  destruct (negb (bool_decide (gameState s = PLAYING))); [apply emits_ret |].
  destruct (negb (has_ctx inp)); [apply emits_ret |].
  apply emits_bind; [unfold survivalReward; emits_by_cases; reflexivity | intros _].
  apply emits_bind;
    [unfold movementStep, movePlayer, applyGravity, gravityPull, modify_player_x;
     emits_by_cases; reflexivity | intros _].
  apply emits_bind; [apply spawn_silent | intros _].
  apply emits_bind;
    [unfold updatePowerUps, powerUpFrame; emits_by_cases; reflexivity | intros _].
  apply emits_bind;
    [unfold updateEnemies, enemyFrame, passCheck, gameOver; emits_by_cases;
     try reflexivity; destruct (activeMultiplier s >? 0)%Z; reflexivity
    | intros _].
  unfold decayTimers, updateDifficulty, roadAnimation. emits_by_cases; reflexivity.
Qed.

Lemma afterEnemies_sets_difficulty s r :
  exists es,
    effects (afterEnemies s) r =
    es ++ [setDifficulty (difficultyAt (difficultyLevel s) (score s))].
Proof.
  unfold afterEnemies, updateDifficulty, roadAnimation.
  rewrite !effects_bind. cbn [emit modify effects snd].
  rewrite app_nil_r. eexists. reflexivity.
Qed.

Lemma update_sets_difficulty h s inp r st :
  gameState s = PLAYING -> has_ctx inp = true ->
  difficulty (applyEffects st (effects (update h s inp) r)) =
  difficultyAt (difficultyLevel s) (score s).
Proof.
  intros Hg Hc. destruct (update_split h s inp r Hg Hc) as [Hes _]. rewrite Hes.
  destruct (afterEnemies_sets_difficulty s
              (exec (updateEnemies s) (exec (beforeEnemies h s inp) r))) as [es ->].
  rewrite !app_assoc, applyEffects_app. reflexivity.
Qed.

Lemma difficultyAt_mono level a b :
  (a <= b)%Z -> difficultyAt level a <= difficultyAt level b.
Proof.
  intros H. unfold difficultyAt.
  assert (inject_Z (a / 100) <= inject_Z (b / 100)) as Hq.
  { rewrite <- Zle_Qle. apply Z.div_le_mono; [reflexivity | exact H]. }
  nra.
Qed.

(** ** The callback in place keeps up with score and game state *)

Lemma depsChanged_false old new :
  depsChanged old new = false ->
  gameState old = gameState new /\ score old = score new.
Proof.
  unfold depsChanged. rewrite !orb_false_iff, !negb_false_iff.
  intros [[[Hg Hs] _] _]. split.
  - apply bool_decide_eq_true_1 in Hg. exact Hg.
  - apply Z.eqb_eq, Hs.
Qed.

Lemma commit_synced w out : synced w -> synced (commit w out).
Proof.
  intros (Hg & Hs & Hl). destruct out as [[u r] es]. unfold commit, synced. cbn [state closure].
  destruct (depsChanged (closure w) (applyEffects (state w) es)) eqn:Hd.
  - repeat split.
  - apply depsChanged_false in Hd as [Hg' Hs'].
    repeat split; [exact Hg' | exact Hs' |].
    rewrite level_applyEffects. exact Hl.
Qed.

Lemma start_state registered w now1 now2 :
  startable w ->
  let w0 := start registered w now1 now2 in
  closure w0 = state w0 /\
  gameState (state w0) = PLAYING /\ score (state w0) = 0%Z /\
  difficultyLevel (state w0) = difficultyLevel (state w) /\
  difficulty (state w0) =
    match difficultyLevel registered with EASY => 0.7 | HARD => 1.5 | NORMAL => 1 end.
Proof.
  intros [Hst Hcl] w0.
  assert (w0 = commit w (startGame registered now1 now2 (refs w))) as ->
    by (subst w0; unfold start; destruct Hst as [-> | ->]; reflexivity).
  unfold commit, startGame, bind, emit, modify, modify_player_x. cbn [fst snd app].
  unfold applyEffects. cbn [fold_left applyEffect state closure gameState score
    difficultyLevel difficulty].
  assert (depsChanged (closure w)
            (mkState PLAYING 0
               (highScore (state w))
               match difficultyLevel registered with EASY => 0.7 | HARD => 1.5 | NORMAL => 1 end
               (difficultyLevel (state w)) (carColor (state w)) (tireType (state w))
               0 0 0 0 (coins (state w))) = true) as Hd.
  { unfold depsChanged. cbn [gameState]. rewrite Hcl.
    destruct Hst as [-> | ->]; reflexivity. }
  cbn. cbn in Hd. rewrite Hd. repeat split.
Qed.

(** ** One frame, as the state sees it *)

Lemma frame_playing h w inp :
  synced w -> gameState (state w) = PLAYING -> has_ctx inp = true ->
  difficulty (state (frame h w inp)) =
    difficultyAt (difficultyLevel (state w)) (score (state w)) /\
  (score (state w) <= score (state (frame h w inp)))%Z.
Proof.
  intros (Hg & Hs & Hl) Hp Hc. rewrite state_frame. split.
  - rewrite update_sets_difficulty by congruence. rewrite Hl, Hs. reflexivity.
  - apply score_applyEffects_mono, update_scoreSafe.
Qed.

Lemma frame_idle h w inp :
  synced w -> gameState (state w) <> PLAYING \/ has_ctx inp = false ->
  state (frame h w inp) = state w.
Proof.
  intros (Hg & _) Hidle. rewrite state_frame. unfold effects.
  rewrite update_idle; [reflexivity |].
  destruct Hidle as [Hn | Hc]; [left; congruence | right; exact Hc].
Qed.

Lemma frame_invariant h level w inp :
  runInvariant level w -> runInvariant level (frame h w inp).
Proof.
  intros (Hsync & Hl & Hb).
  assert (synced (frame h w inp)) as Hsync' by (apply commit_synced, Hsync).
  assert (difficultyLevel (state (frame h w inp)) = level) as Hl'
    by (rewrite state_frame, level_applyEffects; exact Hl).
  split; [exact Hsync' |]. split; [exact Hl' |].
  destruct (decide (gameState (state w) = PLAYING)) as [Hp | Hp];
    [destruct (has_ctx inp) eqn:Hc |].
  - destruct (frame_playing h w inp Hsync Hp Hc) as [-> Hs].
    rewrite Hl. apply difficultyAt_mono, Hs.
  - rewrite (frame_idle h w inp Hsync (or_intror Hc)). exact Hb.
  - rewrite (frame_idle h w inp Hsync (or_introl Hp)). exact Hb.
Qed.

Lemma start_synced registered w now1 now2 :
  startable w ->
  synced (start registered w now1 now2) /\
  difficultyLevel (state (start registered w now1 now2)) = difficultyLevel (state w).
Proof.
  intros Hw. destruct (start_state registered w now1 now2 Hw) as (Hcl & Hg & Hs & Hl & Hd).
  split; [| exact Hl]. unfold synced. rewrite Hcl. repeat split.
Qed.

Lemma run_synced h registered w now1 now2 inps :
  startable w ->
  synced (run h registered w now1 now2 inps) /\
  difficultyLevel (state (run h registered w now1 now2 inps)) = difficultyLevel (state w).
Proof.
  intros Hw. induction inps as [|inp inps IH] using rev_ind.
  - apply start_synced, Hw.
  - destruct IH as [Hsync Hl]. rewrite run_snoc. split.
    + apply commit_synced, Hsync.
    + rewrite state_frame, level_applyEffects. exact Hl.
Qed.

Lemma frames_invariant h level inps : forall w,
  runInvariant level w -> runInvariant level (fold_left (frame h) inps w).
Proof.
  induction inps as [|inp inps IH]; intros w Hw; cbn [fold_left]; [exact Hw |].
  apply IH, frame_invariant, Hw.
Qed.

Lemma frame_difficulty_grows h level w inp :
  runInvariant level w -> difficulty (state w) <= difficulty (state (frame h w inp)).
Proof.
  intros (Hsync & Hl & Hb).
  destruct (decide (gameState (state w) = PLAYING)) as [Hp | Hp];
    [destruct (has_ctx inp) eqn:Hc |].
  - destruct (frame_playing h w inp Hsync Hp Hc) as [-> _]. rewrite Hl. exact Hb.
  - rewrite (frame_idle h w inp Hsync (or_intror Hc)). apply Qle_refl.
  - rewrite (frame_idle h w inp Hsync (or_introl Hp)). apply Qle_refl.
Qed.

(** C3 (as amended).  In a run at difficulty level [level], however it was
    started (by a button, or by the key listener of an earlier render):
    - a frame processed while PLAYING (with a canvas) leaves difficulty at
      [baseDiff level + floor (score / 100) * 0.35] for the score the frame
      started with, so points scored in a frame count from the next frame
      on; the increment 0.35 is the same for the three levels;
    - any other frame leaves difficulty as it was;
    - from a processed frame on, difficulty never decreases: after any
      further frames, one more frame leaves it at least as high. *)
Theorem difficulty_follows_score_one_frame_late h registered w now1 now2 inps inp more next :
  startable w ->
  let level := difficultyLevel (state w) in
  let w1 := run h registered w now1 now2 inps in
  let w2 := frame h w1 inp in
  let w3 := fold_left (frame h) more w2 in
  (gameState (state w1) = PLAYING -> has_ctx inp = true ->
   difficulty (state w2) = difficultyAt level (score (state w1)) /\
   difficulty (state w3) <= difficulty (state (frame h w3 next))) /\
  (gameState (state w1) <> PLAYING \/ has_ctx inp = false ->
   difficulty (state w2) = difficulty (state w1)).
Proof.
  intros Hw level w1 w2 w3.
  destruct (run_synced h registered w now1 now2 inps Hw) as (Hsync & Hl).
  fold w1 level in Hsync, Hl.
  split.
  - intros Hp Hc.
    destruct (frame_playing h w1 inp Hsync Hp Hc) as [Hd Hs]. fold w2 in Hd, Hs.
    rewrite Hl in Hd. split; [exact Hd |].
    assert (runInvariant level w2) as Hinv.
    { split; [apply commit_synced, Hsync |]. split.
      - unfold w2. rewrite state_frame, level_applyEffects. exact Hl.
      - rewrite Hd. apply difficultyAt_mono, Hs. }
    apply (frame_difficulty_grows h level), frames_invariant, Hinv.
  - intros Hidle. subst w2. rewrite (frame_idle h w1 inp Hsync Hidle). reflexivity.
Qed.

(** Witness of [difficulty_follows_score_one_frame_late]: the first frame
    of the first run at NORMAL leaves difficulty at 2.5. *)
Lemma difficulty_follows_score_one_frame_late_witness :
  startable initialWorld /\
  difficulty (state (frame (constantHost 0.9)
                       (run (constantHost 0.9) initialState initialWorld 0 0 [])
                       (idleInput 16)))
    = difficultyAt NORMAL 0.
Proof.
  assert (startable initialWorld) as Hw by (split; [left |]; reflexivity).
  split; [exact Hw |].
  destruct (difficulty_follows_score_one_frame_late (constantHost 0.9) initialState
              initialWorld 0 0 [] (idleInput 16) [] (idleInput 32) Hw) as (H & _).
  apply (H eq_refl eq_refl).
Defined.

(** C3, counterexample to the claim as stated.
    - Difficulty is not a function of the score and the level over the
      worlds a run reaches, even leaving the world of the start aside: in
      the sample run the score is 100 after 44 frames and after 45 frames,
      and difficulty is 2.5 after the former (it was computed from a score
      of 80) and 2.85 after the latter.
    - Nor does a start set the base of the formula: at NORMAL the start
      sets 1, and the first frame, at score 0, sets 2.5.
    - Nor is difficulty non-decreasing over a whole run: when the key
      listener was registered while HARD was selected and EASY is selected
      since, Enter sets 1.5 and the first frame 1.2. *)
Lemma difficulty_is_not_a_function_of_score :
  ~ (exists f : DifficultyLevel -> Z -> Q,
       forall inps,
         inps <> [] ->
         let w := run (constantHost 0.9) initialState initialWorld 0 0 inps in
         difficulty (state w) == f (difficultyLevel (state w)) (score (state w))) /\
  (let w0 := start initialState initialWorld 0 0 in
   let w1 := frame (constantHost 0.9) w0 (idleInput 16) in
   score (state w0) = 0%Z /\ score (state w1) = 0%Z /\
   difficulty (state w0) == 1 /\ difficulty (state w1) == 2.5) /\
  (let w0 := start (state hardSelected) easySelected 0 0 in
   let w1 := frame (constantHost 0.9) w0 (idleInput 16) in
   difficultyLevel (state w0) = EASY /\
   difficulty (state w0) == 1.5 /\ difficulty (state w1) == 1.2).
Proof.
  split; [| split].
  - intros [f Hf].
    pose proof (Hf (sampleFrames 38) ltac:(discriminate)) as H44.
    pose proof (Hf (sampleFrames 39) ltac:(discriminate)) as H45.
    cbv zeta in H44, H45.
    assert (score (state (run (constantHost 0.9) initialState initialWorld 0 0
                            (sampleFrames 38))) = 100%Z)
      as S44 by (vm_compute; reflexivity).
    assert (score (state (run (constantHost 0.9) initialState initialWorld 0 0
                            (sampleFrames 39))) = 100%Z)
      as S45 by (vm_compute; reflexivity).
    assert (difficultyLevel (state (run (constantHost 0.9) initialState initialWorld 0 0
                                      (sampleFrames 38)))
            = NORMAL) as L44 by (vm_compute; reflexivity).
    assert (difficultyLevel (state (run (constantHost 0.9) initialState initialWorld 0 0
                                      (sampleFrames 39)))
            = NORMAL) as L45 by (vm_compute; reflexivity).
    assert (difficulty (state (run (constantHost 0.9) initialState initialWorld 0 0
                                 (sampleFrames 38)))
            == 2.5) as D44 by (vm_compute; reflexivity).
    assert (difficulty (state (run (constantHost 0.9) initialState initialWorld 0 0
                                 (sampleFrames 39)))
            == 2.85) as D45 by (vm_compute; reflexivity).
    rewrite S44, L44, D44 in H44. rewrite S45, L45, D45 in H45.
    rewrite <- H44 in H45. discriminate H45.
  - cbv zeta. repeat split; vm_compute; reflexivity.
  - cbv zeta. repeat split; vm_compute; reflexivity.
Qed.

(** * Status timers through a frame *)

Lemma timer_unchanged t es : forall st,
  Forall (fun e => leavesTimer t e = true) es ->
  timerValue t (applyEffects st es) = timerValue t st.
Proof.
  induction es as [|e es IH]; intros st H; [reflexivity |].
  inversion H as [|? ? He Hes]; subst. unfold applyEffects in *. simpl.
  rewrite IH by exact Hes. destruct t, e; try reflexivity; discriminate He.
Qed.

(** If every write to [t] in a list stores [v], and there is one, the
    timer ends at [v]. *)
Lemma timer_stored t v es : forall st,
  Forall (fun e => leavesTimer t e = true \/ storesTimer t v e = true) es ->
  Exists (fun e => storesTimer t v e = true) es ->
  timerValue t (applyEffects st es) = v.
Proof.
  assert (forall e st, storesTimer t v e = true -> timerValue t (applyEffect st e) = v)
    as Hstore.
  { intros e st Hs. destruct t, e; try discriminate Hs; simpl in Hs;
      apply Z.eqb_eq in Hs; exact Hs. }
  assert (forall e st, leavesTimer t e = true ->
                       timerValue t (applyEffect st e) = timerValue t st) as Hleave.
  { intros e st Hl. destruct t, e; try reflexivity; discriminate Hl. }
  assert (forall es st,
            Forall (fun e => leavesTimer t e = true \/ storesTimer t v e = true) es ->
            timerValue t st = v -> timerValue t (applyEffects st es) = v) as Hstay.
  { clear es. induction es as [|e es IH]; intros st H Hst; [exact Hst |].
    pose proof (Forall_inv H) as He. pose proof (Forall_inv_tail H) as Hes.
    apply (IH (applyEffect st e) Hes).
    destruct He as [He | He]; [rewrite Hleave by exact He; exact Hst | apply Hstore, He]. }
  induction es as [|e es IH]; intros st H Hex; [inversion Hex |].
  pose proof (Forall_inv H) as He. pose proof (Forall_inv_tail H) as Hes.
  apply Exists_cons in Hex as [Hs | Hs].
  - apply (Hstay es (applyEffect st e) Hes), Hstore, Hs.
  - apply (IH (applyEffect st e) Hes Hs).
Qed.

Lemma beforePowerUps_leaves_timers t h s inp :
  emits (fun e => leavesTimer t e = true) (beforePowerUps h s inp).
Proof.
  unfold beforePowerUps.
  apply emits_bind; [unfold survivalReward; emits_by_cases; reflexivity | intros _].
  apply emits_bind;
    [unfold movementStep, movePlayer, applyGravity, gravityPull, modify_player_x;
     emits_by_cases; reflexivity | intros _].
  apply spawn_silent.
Qed.

(** The collectible pass writes a timer only to start it at its duration. *)
Lemma updatePowerUps_starts_timers k t v :
  duration k = Some (t, v) ->
  emits (fun e => leavesTimer t e = true \/ storesTimer t v e = true) updatePowerUps.
Proof.
  intros Hk. unfold updatePowerUps, powerUpFrame.
  destruct k; inversion Hk; subst; emits_by_cases;
    first [left; reflexivity | right; reflexivity].
Qed.

(** The obstacle pass writes no timer but the slide timer, and the shield
    only if the callback sees it up. *)
Lemma updateEnemies_leaves_timers t s :
  t <> slideTimer -> (t = shieldTimer -> (activeShield s <= 0)%Z) ->
  emits (fun e => leavesTimer t e = true) (updateEnemies s).
Proof.
  intros Hslide Hshield.
  unfold updateEnemies, enemyFrame, passCheck, gameOver.
  destruct t; try congruence.
  - specialize (Hshield eq_refl). apply Zgtb_false in Hshield. rewrite Hshield.
    emits_by_cases; reflexivity.
  - emits_by_cases; reflexivity.
  - emits_by_cases; reflexivity.
Qed.

Lemma updateEnemies_slides s :
  emits (fun e => leavesTimer slideTimer e = true \/ storesTimer slideTimer 60 e = true)
    (updateEnemies s).
Proof.
  unfold updateEnemies, enemyFrame, passCheck, gameOver.
  emits_by_cases; first [left; reflexivity | right; reflexivity].
Qed.

(** Step 5 takes one off every timer the callback sees positive, and
    nothing else in steps 5 to 7 writes a timer. *)
Lemma afterEnemies_decays t s r st :
  timerValue t (applyEffects st (effects (afterEnemies s) r)) =
  (timerValue t st - (if (timerValue t s >? 0)%Z then 1 else 0))%Z.
Proof.
  unfold afterEnemies, decayTimers, updateDifficulty, roadAnimation.
  repeat rewrite effects_bind. cbn [emit modify effects snd].
  unfold when.
  destruct (activeShield s >? 0)%Z eqn:E1, (activeMultiplier s >? 0)%Z eqn:E2,
           (activeBoost s >? 0)%Z eqn:E3, (isSliding s >? 0)%Z eqn:E4;
    destruct t; cbn; rewrite ?E1, ?E2, ?E3, ?E4; lia.
Qed.

Lemma update_split4 h s inp r :
  gameState s = PLAYING -> has_ctx inp = true ->
  let r3 := exec (beforePowerUps h s inp) r in
  let r4 := exec updatePowerUps r3 in
  let r5 := exec (updateEnemies s) r4 in
  r4 = exec (beforeEnemies h s inp) r /\
  effects (update h s inp) r =
    (effects (beforePowerUps h s inp) r ++ effects updatePowerUps r3) ++
    effects (updateEnemies s) r4 ++ effects (afterEnemies s) r5 /\
  exec (update h s inp) r = exec (afterEnemies s) r5.
Proof.
  intros Hg Hc r3 r4 r5.
  assert (r4 = exec (beforeEnemies h s inp) r) as Hr4.
  { subst r4 r3. unfold beforeEnemies, beforePowerUps.
    repeat rewrite exec_bind. reflexivity. }
  destruct (update_split h s inp r Hg Hc) as [Hes Hex].
  rewrite <- Hr4 in Hes, Hex. fold r5 in Hes, Hex.
  split; [exact Hr4 |]. split; [| exact Hex].
  rewrite Hes. f_equal.
  subst r3. unfold beforeEnemies, beforePowerUps.
  repeat rewrite effects_bind. repeat rewrite exec_bind. cbv beta.
  rewrite <- !app_assoc. reflexivity.
Qed.

Lemma updatePowerUps_effects r :
  effects updatePowerUps r = flat_map (fun a => effects (powerUpFrame a) r) (powerUpsRef r).
Proof.
  unfold updatePowerUps. rewrite !effects_bind. cbn [get value exec effects fst snd app].
  destruct (filterFrame_quiet powerUpFrame powerUpFrame_quiet (powerUpsRef r) r)
    as (_ & _ & He).
  fold (effects (filterFrame powerUpFrame (powerUpsRef r)) r). rewrite He.
  cbn. apply app_nil_r.
Qed.

(** What the callback does with a collectible that overlaps the player. *)
Lemma powerUpFrame_picked pu r :
  let p' := PowerUp.set_y (PowerUp.y pu + PowerUp.speed pu) pu in
  overlaps (playerRef r) (PowerUp.x p') (PowerUp.y p') (PowerUp.width p') (PowerUp.height p')
    = true ->
  powerUpFrame pu r =
    ((p', false), r,
     playSound collect ::
     match PowerUp.type pu with
     | Some SHIELD => [setActiveShield 300]
     | Some BOOST => [setActiveBoost 200]
     | Some MULTIPLIER => [setActiveMultiplier 400]
     | Some COIN => [setCoins_incr]
     | None => []
     end).
Proof.
  intros p' Hov. unfold powerUpFrame, bind, get. cbn [fst snd]. fold p'. rewrite Hov.
  change (PowerUp.type p') with (PowerUp.type pu). clearbody p'.
  destruct (PowerUp.type pu) as [[| | |]|]; reflexivity.
Qed.

Lemma afterPowerUps_keeps_powerUps s l :
  keeps (fun r => powerUpsRef r = l) (updateEnemies s ;; afterEnemies s).
Proof.
  apply keeps_bind; [| intros _].
  - apply updateEnemies_kept. intros; assumption.
  - unfold afterEnemies. apply afterEnemies_kept. intros; assumption.
Qed.

(** X1.  In a frame run while PLAYING, a shield, boost or multiplier
    collectible that the player overlaps (once the collectible has moved
    down) is removed, and its timer ends the frame at the kind's duration
    (300, 200, 400), less the one frame of decay if the callback saw that
    timer already running; for the shield this needs the callback to see no
    shield up (else a collision in the same frame may reset it). *)
Theorem pickup_starts_timer h s inp r st pu k t v :
  gameState s = PLAYING -> has_ctx inp = true ->
  let r3 := exec (beforePowerUps h s inp) r in
  let p' := PowerUp.set_y (PowerUp.y pu + PowerUp.speed pu) pu in
  In pu (powerUpsRef r3) ->
  PowerUp.type pu = Some k -> duration k = Some (t, v) ->
  overlaps (playerRef r3) (PowerUp.x p') (PowerUp.y p') (PowerUp.width p') (PowerUp.height p')
    = true ->
  (t = shieldTimer -> (activeShield s <= 0)%Z) ->
  timerValue t (applyEffects st (effects (update h s inp) r)) =
    (v - (if (timerValue t s >? 0)%Z then 1 else 0))%Z /\
  ~ In p' (powerUpsRef (exec (update h s inp) r)).
Proof.
  intros Hg Hc r3 p' Hin Hty Hk Hov Hshield.
  destruct (update_split4 h s inp r Hg Hc) as (_ & Hes & Hex). fold r3 in Hes, Hex.
  pose proof (powerUpFrame_picked pu r3 Hov) as Hf. fold p' in Hf.
  split.
  - rewrite Hes, !applyEffects_app, afterEnemies_decays. f_equal.
    rewrite timer_unchanged.
    2:{ apply updateEnemies_leaves_timers; [| exact Hshield].
        destruct k; inversion Hk; discriminate. }
    rewrite <- applyEffects_app. apply timer_stored.
    + apply Forall_app. split.
      * eapply Forall_impl; [apply (beforePowerUps_leaves_timers t) |].
        intros e He. left. exact He.
      * apply (updatePowerUps_starts_timers k t v Hk).
    + apply Exists_app. right. rewrite updatePowerUps_effects.
      apply Exists_exists. exists (match k with
                                   | SHIELD => setActiveShield 300
                                   | BOOST => setActiveBoost 200
                                   | MULTIPLIER => setActiveMultiplier 400
                                   | COIN => setCoins_incr
                                   end).
      split.
      * apply list_elem_of_In, in_flat_map. exists pu. split; [exact Hin |].
        unfold effects. rewrite Hf, Hty. right.
        destruct k; left; reflexivity.
      * destruct k; inversion Hk; reflexivity.
  - rewrite Hex.
    assert (exec (afterEnemies s) (exec (updateEnemies s) (exec updatePowerUps r3)) =
            exec (updateEnemies s ;; afterEnemies s) (exec updatePowerUps r3)) as ->
      by (rewrite exec_bind; reflexivity).
    rewrite (afterPowerUps_keeps_powerUps s _ _ eq_refl).
    apply dropped_powerUp_not_kept. unfold value. rewrite Hf. reflexivity.
Qed.

(** Witness of [pickup_starts_timer]: a shield collectible just above the
    player's nose is picked up and leaves the shield timer at 300. *)
Lemma pickup_starts_timer_witness :
  let s := playingState 1 0 in
  let r := set_powerUpsRef [shieldAt 180 480] initialRefs in
  gameState s = PLAYING /\ has_ctx (idleInput 16) = true /\
  In (shieldAt 180 480)
     (powerUpsRef (exec (beforePowerUps (constantHost 0.9) s (idleInput 16)) r)) /\
  activeShield (applyEffects s (effects (update (constantHost 0.9) s (idleInput 16)) r))
    = 300%Z.
Proof.
  cbv zeta. split; [reflexivity |]. split; [reflexivity |].
  assert (In (shieldAt 180 480)
            (powerUpsRef (exec (beforePowerUps (constantHost 0.9) (playingState 1 0)
                                  (idleInput 16))
                            (set_powerUpsRef [shieldAt 180 480] initialRefs)))) as Hin
    by (left; reflexivity).
  split; [exact Hin |].
  destruct (pickup_starts_timer (constantHost 0.9) (playingState 1 0) (idleInput 16)
              (set_powerUpsRef [shieldAt 180 480] initialRefs) (playingState 1 0)
              (shieldAt 180 480) SHIELD shieldTimer 300 eq_refl eq_refl Hin eq_refl eq_refl
              eq_refl ltac:(intros _; discriminate)) as [H _].
  exact H.
Defined.

Lemma updatePowerUps_leaves_slide :
  emits (fun e => leavesTimer slideTimer e = true) updatePowerUps.
Proof. unfold updatePowerUps, powerUpFrame. emits_by_cases; reflexivity. Qed.

Lemma hits_unfold s r enemy :
  hits s r enemy =
  overlaps (playerRef r) (Enemy.x (behave s (playerRef r) enemy))
    (Enemy.y (behave s (playerRef r) enemy)) (Enemy.width (behave s (playerRef r) enemy))
    (Enemy.height (behave s (playerRef r) enemy)).
Proof. reflexivity. Qed.

Lemma enemyFrame_oil s r enemy :
  Enemy.type enemy = OIL -> hits s r enemy = true ->
  enemyFrame s enemy r = ((behave s (playerRef r) enemy, true), r, [setIsSliding 60]).
Proof.
  intros Hty Hov. rewrite hits_unfold in Hov.
  pose proof (behave_type s (playerRef r) enemy) as Hb. rewrite Hty in Hb.
  unfold enemyFrame, bind, get. cbn [fst snd].
  rewrite Hov, Hb. reflexivity.
Qed.

Lemma afterEnemies_keeps_enemies s l :
  keeps (fun r => enemiesRef r = l) (afterEnemies s).
Proof. unfold afterEnemies. apply afterEnemies_kept. intros; assumption. Qed.

(** X2.  In a frame run while PLAYING, an oil slick that overlaps the
    player (as [behave] leaves it) stays on the track, and the slide timer
    ends the frame at 60, or at 59 if the callback saw the player already
    sliding: staying on the slick keeps the slide going. *)
Theorem oil_keeps_player_sliding h s inp r st enemy :
  gameState s = PLAYING -> has_ctx inp = true ->
  let r4 := exec (beforeEnemies h s inp) r in
  In enemy (enemiesRef r4) -> Enemy.type enemy = OIL -> hits s r4 enemy = true ->
  isSliding (applyEffects st (effects (update h s inp) r)) =
    (60 - (if (isSliding s >? 0)%Z then 1 else 0))%Z /\
  In (behave s (playerRef r4) enemy) (enemiesRef (exec (update h s inp) r)).
Proof.
  intros Hg Hc r4 Hin Hty Hov.
  destruct (update_split h s inp r Hg Hc) as [Hes Hex]. fold r4 in Hes, Hex.
  pose proof (enemyFrame_oil s r4 enemy Hty Hov) as Hf.
  split.
  - rewrite Hes, app_assoc, applyEffects_app.
    rewrite (afterEnemies_decays slideTimer). f_equal.
    apply (timer_stored slideTimer).
    + apply Forall_app. split.
      * unfold beforeEnemies.
        assert (effects (survivalReward inp;; movementStep h s inp;; spawn h s inp;;
                         updatePowerUps) r =
                effects (beforePowerUps h s inp) r ++
                effects updatePowerUps (exec (beforePowerUps h s inp) r)) as ->.
        { unfold beforePowerUps. repeat rewrite effects_bind. repeat rewrite exec_bind.
          cbv beta. rewrite <- !app_assoc. reflexivity. }
        apply Forall_app. split.
        -- eapply Forall_impl; [apply (beforePowerUps_leaves_timers slideTimer) |].
           intros e He. left. exact He.
        -- eapply Forall_impl; [apply updatePowerUps_leaves_slide |].
           intros e He. left. exact He.
      * apply updateEnemies_slides.
    + apply Exists_app. right. rewrite updateEnemies_effects.
      apply Exists_exists. exists (setIsSliding 60). split; [| reflexivity].
      apply list_elem_of_In, in_flat_map. exists enemy. split; [exact Hin |].
      unfold effects. rewrite Hf. left. reflexivity.
  - rewrite Hex, (afterEnemies_keeps_enemies s _ _ eq_refl).
    apply updateEnemies_kept_iff. exists enemy. split; [exact Hin |].
    unfold value. rewrite Hf. reflexivity.
Qed.

(** Witness of [oil_keeps_player_sliding]: an oil slick under the player
    sets the slide timer to 60. *)
Lemma oil_keeps_player_sliding_witness :
  let s := playingState 1 0 in
  let r := set_enemiesRef [oilAt 150 480] initialRefs in
  gameState s = PLAYING /\ has_ctx (idleInput 16) = true /\
  In (oilAt 150 480)
     (enemiesRef (exec (beforeEnemies (constantHost 0.9) s (idleInput 16)) r)) /\
  isSliding (applyEffects s (effects (update (constantHost 0.9) s (idleInput 16)) r))
    = 60%Z.
Proof.
  cbv zeta. split; [reflexivity |]. split; [reflexivity |].
  assert (In (oilAt 150 480)
            (enemiesRef (exec (beforeEnemies (constantHost 0.9) (playingState 1 0)
                                 (idleInput 16))
                           (set_enemiesRef [oilAt 150 480] initialRefs)))) as Hin
    by (left; reflexivity).
  split; [exact Hin |].
  destruct (oil_keeps_player_sliding (constantHost 0.9) (playingState 1 0) (idleInput 16)
              (set_enemiesRef [oilAt 150 480] initialRefs) (playingState 1 0)
              (oilAt 150 480) eq_refl eq_refl Hin eq_refl eq_refl) as [H _].
  exact H.
Defined.

(** * The end of a run *)

Lemma endsRun_unchanged es : forall st,
  Forall (fun e => endsRun e = false) es ->
  gameState (applyEffects st es) = gameState st /\
  highScore (applyEffects st es) = highScore st.
Proof.
  induction es as [|e es IH]; intros st H; [split; reflexivity |].
  pose proof (Forall_inv H) as He. pose proof (Forall_inv_tail H) as Hes.
  destruct (IH (applyEffect st e) Hes) as [Hg Hh].
  unfold applyEffects in *. simpl. rewrite Hg, Hh.
  destruct e; try (split; reflexivity); discriminate He.
Qed.

Lemma beforeEnemies_never_ends_run h s inp :
  emits (fun e => endsRun e = false) (beforeEnemies h s inp).
Proof.
  unfold beforeEnemies.
  apply emits_bind; [unfold survivalReward; emits_by_cases; reflexivity | intros _].
  apply emits_bind;
    [unfold movementStep, movePlayer, applyGravity, gravityPull, modify_player_x;
     emits_by_cases; reflexivity | intros _].
  apply emits_bind; [apply spawn_silent | intros _].
  unfold updatePowerUps, powerUpFrame. emits_by_cases; reflexivity.
Qed.

Lemma afterEnemies_never_ends_run s :
  emits (fun e => endsRun e = false) (afterEnemies s).
Proof.
  unfold afterEnemies, decayTimers, updateDifficulty, roadAnimation.
  emits_by_cases; reflexivity.
Qed.

Lemma passCheck_never_ends_run s e' :
  emits (fun e => endsRun e = false) (passCheck s e').
Proof. unfold passCheck. emits_by_cases; reflexivity. Qed.

Lemma enemyFrame_harmless s r enemy :
  harmless s r enemy ->
  Forall (fun e => endsRun e = false) (effects (enemyFrame s enemy) r).
Proof.
  intros H. unfold harmless in H. rewrite hits_unfold in H.
  pose proof (behave_type s (playerRef r) enemy) as Hty.
  unfold enemyFrame. rewrite effects_bind. cbn [get value exec effects fst snd app].
  generalize dependent (behave s (playerRef r) enemy). intros e' H Hty.
  fold (effects
          (if overlaps (playerRef r) (Enemy.x e') (Enemy.y e') (Enemy.width e')
                (Enemy.height e')
           then
             if bool_decide (Enemy.type e' = OIL)
             then emit (setIsSliding 60);; ret (e', true)
             else if bool_decide (Enemy.type e' = GRAVITY)
             then ret (e', true)
             else if bool_decide (Enemy.type e' = LASER) && Enemy.not_active e'
             then ret (e', true)
             else if bool_decide (Enemy.type e' = PLATFORM) && Enemy.not_active e'
             then ret (e', true)
             else if (activeShield s >? 0)%Z
             then emit (setActiveShield 0);; emit (playSound crash);; ret (e', false)
             else gameOver s;; passCheck s e'
           else passCheck s e') r).
  destruct (overlaps _ _ _ _ _); [| apply passCheck_never_ends_run].
  rewrite Hty.
  destruct H as [H | [H | [H | [[H Hn] | H]]]].
  - discriminate H.
  - rewrite H. repeat constructor.
  - rewrite H. repeat constructor.
  - rewrite Hn. destruct H as [-> | ->]; repeat constructor.
  - apply Zgtb_true in H. rewrite H.
    destruct (bool_decide (Enemy.type enemy = OIL)); [repeat constructor |].
    destruct (bool_decide (Enemy.type enemy = GRAVITY)); [repeat constructor |].
    destruct (bool_decide (Enemy.type enemy = LASER) && Enemy.not_active e');
      [repeat constructor |].
    destruct (bool_decide (Enemy.type enemy = PLATFORM) && Enemy.not_active e');
      repeat constructor.
Qed.

(** X3.  A frame run while PLAYING in which every obstacle on the track is
    harmless (it misses the player, or is an oil slick or a gravity zone, or
    is a laser or platform whose flag is off, or the callback sees the shield
    up) leaves the game state and the high score as they were: a run ends
    only through a collision. *)
Theorem run_ends_only_through_a_collision h s inp r st :
  gameState s = PLAYING -> has_ctx inp = true ->
  let r4 := exec (beforeEnemies h s inp) r in
  (forall enemy, In enemy (enemiesRef r4) -> harmless s r4 enemy) ->
  gameState (applyEffects st (effects (update h s inp) r)) = gameState st /\
  highScore (applyEffects st (effects (update h s inp) r)) = highScore st.
Proof.
  intros Hg Hc r4 Hall.
  destruct (update_split h s inp r Hg Hc) as [Hes _]. fold r4 in Hes.
  rewrite Hes. apply endsRun_unchanged.
  apply Forall_app. split; [apply beforeEnemies_never_ends_run |].
  apply Forall_app. split; [| apply afterEnemies_never_ends_run].
  rewrite updateEnemies_effects.
  apply Forall_flat_map. apply Forall_forall. intros enemy Hin.
  apply enemyFrame_harmless, Hall, list_elem_of_In, Hin.
Qed.

(** Witness of [run_ends_only_through_a_collision]: a car in another lane
    leaves the game state alone. *)
Lemma run_ends_only_through_a_collision_witness :
  let s := playingState 1 0 in
  let r := set_enemiesRef [carAt 50 100] initialRefs in
  gameState s = PLAYING /\ has_ctx (idleInput 16) = true /\
  gameState (applyEffects s (effects (update (constantHost 0.9) s (idleInput 16)) r))
    = PLAYING.
Proof.
  cbv zeta. split; [reflexivity |]. split; [reflexivity |].
  destruct (run_ends_only_through_a_collision (constantHost 0.9) (playingState 1 0)
              (idleInput 16) (set_enemiesRef [carAt 50 100] initialRefs) (playingState 1 0)
              eq_refl eq_refl) as [H _].
  - intros enemy [<- | []]. left. reflexivity.
  - exact H.
Defined.

Lemma gameOverLog_quiet s es :
  Forall (fun e => endsRun e = false) es -> gameOverLog s es.
Proof.
  intros H. rewrite Forall_forall in H. split; [| split].
  - apply Forall_forall. intros e He Hends. rewrite (H e He) in Hends. discriminate.
  - intros Hin. apply list_elem_of_In, H in Hin. discriminate.
  - intros Hin. apply list_elem_of_In, H in Hin. discriminate.
Qed.

Lemma gameOverLog_app s es1 es2 :
  gameOverLog s es1 -> gameOverLog s es2 -> gameOverLog s (es1 ++ es2).
Proof.
  intros (F1 & A1 & B1) (F2 & A2 & B2). split; [| split].
  - apply Forall_app. split; assumption.
  - intros Hin Hlt. apply in_app_iff in Hin. apply in_app_iff.
    destruct Hin as [Hin | Hin]; [left; apply A1 | right; apply A2]; assumption.
  - intros Hin. apply in_app_iff in Hin. apply in_app_iff.
    destruct Hin as [Hin | Hin]; [left; apply B1 | right; apply B2]; assumption.
Qed.

Lemma gameOverLog_flat_map {A} s (f : A -> list Effect) l :
  (forall a, gameOverLog s (f a)) -> gameOverLog s (flat_map f l).
Proof.
  intros Hf. induction l as [|a l IH]; cbn [flat_map].
  - apply gameOverLog_quiet. constructor.
  - apply gameOverLog_app; [apply Hf | exact IH].
Qed.

Lemma gameOver_gameOverLog s r : gameOverLog s (effects (gameOver s) r).
Proof.
  unfold gameOver. repeat rewrite effects_bind. cbn [emit effects snd app].
  unfold when. destruct (score s >? highScore s)%Z eqn:Hgt.
  - apply Zgtb_true in Hgt. cbn. split; [| split].
    + constructor; [intros _; left; reflexivity |].
      constructor; [intros H; discriminate H |].
      constructor; [intros _; right; split; [reflexivity | exact Hgt] | constructor].
    + intros _ _. right. right. left. reflexivity.
    + intros _. left. reflexivity.
  - cbn. split; [| split].
    + constructor; [intros _; left; reflexivity |].
      constructor; [intros H; discriminate H | constructor].
    + apply Zgtb_false in Hgt. intros _ Hlt. lia.
    + intros [H | [H | []]]; discriminate H.
Qed.

Lemma enemyFrame_gameOverLog s r enemy : gameOverLog s (effects (enemyFrame s enemy) r).
Proof.
  unfold enemyFrame. rewrite effects_bind. cbn [get value exec effects fst snd app].
  generalize (behave s (playerRef r) enemy). intros e'.
  destruct (overlaps _ _ _ _ _);
    [| apply gameOverLog_quiet, passCheck_never_ends_run].
  destruct (bool_decide (Enemy.type e' = OIL));
    [apply gameOverLog_quiet; repeat constructor |].
  destruct (bool_decide (Enemy.type e' = GRAVITY));
    [apply gameOverLog_quiet; repeat constructor |].
  destruct (bool_decide (Enemy.type e' = LASER) && Enemy.not_active e');
    [apply gameOverLog_quiet; repeat constructor |].
  destruct (bool_decide (Enemy.type e' = PLATFORM) && Enemy.not_active e');
    [apply gameOverLog_quiet; repeat constructor |].
  destruct (activeShield s >? 0)%Z; [apply gameOverLog_quiet; repeat constructor |].
  fold (effects (gameOver s;; passCheck s e') r). rewrite effects_bind.
  apply gameOverLog_app; [apply gameOver_gameOverLog |].
  apply gameOverLog_quiet, passCheck_never_ends_run.
Qed.

Lemma update_gameOverLog h s inp r :
  gameState s = PLAYING -> has_ctx inp = true ->
  gameOverLog s (effects (update h s inp) r).
Proof.
  intros Hg Hc. destruct (update_split h s inp r Hg Hc) as [-> _].
  apply gameOverLog_app; [apply gameOverLog_quiet, beforeEnemies_never_ends_run |].
  apply gameOverLog_app; [| apply gameOverLog_quiet, afterEnemies_never_ends_run].
  rewrite updateEnemies_effects. apply gameOverLog_flat_map.
  intros a. apply enemyFrame_gameOverLog.
Qed.

Lemma highScore_stored x es : forall st,
  Forall (fun e => forall v, e = setHighScore v -> v = x) es ->
  In (setHighScore x) es ->
  highScore (applyEffects st es) = x.
Proof.
  assert (forall es st,
            Forall (fun e => forall v, e = setHighScore v -> v = x) es ->
            highScore st = x -> highScore (applyEffects st es) = x) as Hstay.
  { clear es. induction es as [|e es IH]; intros st H Hst; [exact Hst |].
    pose proof (Forall_inv H) as He. pose proof (Forall_inv_tail H) as Hes.
    apply (IH (applyEffect st e) Hes).
    destruct e; try exact Hst. simpl. apply (He v eq_refl). }
  induction es as [|e es IH]; intros st H Hin; [destruct Hin |].
  pose proof (Forall_inv H) as He. pose proof (Forall_inv_tail H) as Hes.
  destruct Hin as [-> | Hin].
  - apply (Hstay es _ Hes). reflexivity.
  - apply (IH (applyEffect st e) Hes Hin).
Qed.

Lemma highScore_unchanged es : forall st,
  Forall (fun e => forall v, e <> setHighScore v) es ->
  highScore (applyEffects st es) = highScore st.
Proof.
  induction es as [|e es IH]; intros st H; [reflexivity |].
  pose proof (Forall_inv H) as He. pose proof (Forall_inv_tail H) as Hes.
  unfold applyEffects in *. simpl. rewrite IH by exact Hes.
  destruct e; try reflexivity. destruct (He v eq_refl).
Qed.

(** X4.  In a frame run while PLAYING by a callback that holds the
    current high score: if the frame calls for GAMEOVER, the state ends in
    GAMEOVER and the high score becomes the larger of the old high score and
    the score the frame started with (points scored in the fatal frame do not
    count); if it does not, game state and high score are untouched. *)
Theorem game_over_records_high_score h s inp r st :
  gameState s = PLAYING -> has_ctx inp = true -> highScore st = highScore s ->
  let es := effects (update h s inp) r in
  (In (setGameState GAMEOVER) es ->
   gameState (applyEffects st es) = GAMEOVER /\
   highScore (applyEffects st es) = Z.max (highScore st) (score s)) /\
  (~ In (setGameState GAMEOVER) es ->
   gameState (applyEffects st es) = gameState st /\
   highScore (applyEffects st es) = highScore st).
Proof.
  intros Hg Hc Hhs es.
  destruct (update_gameOverLog h s inp r Hg Hc) as (Hall & Hboth & Honly). fold es in Hall, Hboth, Honly.
  rewrite Forall_forall in Hall.
  split.
  - intros Hin. split.
    + apply gameState_ends; [| exact Hin].
      apply Forall_forall. intros e He g ->.
      destruct (Hall _ He eq_refl) as [H | [H _]]; [congruence | discriminate H].
    + destruct (Z.lt_ge_cases (highScore s) (score s)) as [Hlt | Hge].
      * rewrite Hhs, Z.max_r by lia. apply highScore_stored; [| apply Hboth; assumption].
        apply Forall_forall. intros e He v ->.
        destruct (Hall _ He eq_refl) as [H | [H _]]; [discriminate H | congruence].
      * rewrite Hhs, Z.max_l by lia. rewrite <- Hhs.
        apply highScore_unchanged. apply Forall_forall. intros e He v ->.
        destruct (Hall _ He eq_refl) as [H | [_ H]]; [discriminate H | lia].
  - intros Hnot. apply endsRun_unchanged. apply Forall_forall. intros e He.
    destruct (endsRun e) eqn:Hends; [| reflexivity].
    destruct (Hall _ He Hends) as [-> | [-> _]].
    + destruct Hnot. apply list_elem_of_In, He.
    + destruct Hnot. apply Honly, list_elem_of_In, He.
Qed.

(** Witness of [game_over_records_high_score]: crashing at score 50 with a
    high score of 20 records 50. *)
Lemma game_over_records_high_score_witness :
  let s := scoringState 50 20 in
  let r := set_enemiesRef [carAt 180 480] initialRefs in
  gameState s = PLAYING /\ has_ctx (idleInput 16) = true /\
  highScore (applyEffects s (effects (update (constantHost 0.9) s (idleInput 16)) r))
    = 50%Z.
Proof.
  cbv zeta. split; [reflexivity |]. split; [reflexivity |].
  destruct (game_over_records_high_score (constantHost 0.9) (scoringState 50 20)
              (idleInput 16) (set_enemiesRef [carAt 180 480] initialRefs)
              (scoringState 50 20) eq_refl eq_refl eq_refl) as [H _].
  destruct H as [_ H]; [vm_compute; left; reflexivity |].
  exact H.
Defined.

(** * Score and coins over a run *)

Lemma update_scoreStep h s inp : emits (fun e => scoreStep e = true) (update h s inp).
Proof.
  unfold update.
  destruct (negb (bool_decide (gameState s = PLAYING))); [apply emits_ret |].
  destruct (negb (has_ctx inp)); [apply emits_ret |].
  apply emits_bind; [unfold survivalReward; emits_by_cases; reflexivity | intros _].
  apply emits_bind;
    [unfold movementStep, movePlayer, applyGravity, gravityPull, modify_player_x;
     emits_by_cases; reflexivity | intros _].
  apply emits_bind; [apply spawn_silent | intros _].
  apply emits_bind;
    [unfold updatePowerUps, powerUpFrame; emits_by_cases; reflexivity | intros _].
  apply emits_bind;
    [unfold updateEnemies, enemyFrame, passCheck, gameOver; emits_by_cases;
     try reflexivity; destruct (activeMultiplier s >? 0)%Z; reflexivity
    | intros _].
  unfold decayTimers, updateDifficulty, roadAnimation. emits_by_cases; reflexivity.
Qed.

Lemma score_applyEffects_tens es : forall st,
  Forall (fun e => scoreStep e = true) es ->
  exists k, (0 <= k)%Z /\ score (applyEffects st es) = (score st + 10 * k)%Z.
Proof.
  induction es as [|e es IH]; intros st H.
  - exists 0%Z. split; [lia | cbn; lia].
  - pose proof (Forall_inv H) as He. pose proof (Forall_inv_tail H) as Hes.
    destruct (IH (applyEffect st e) Hes) as (k & Hk & Hs).
    unfold applyEffects in *. cbn [fold_left]. rewrite Hs.
    destruct e; try (exists k; split; [exact Hk | reflexivity]); try discriminate He.
    cbn in He. apply orb_true_iff in He as [He | He]; apply Z.eqb_eq in He; subst n.
    + exists (k + 1)%Z. split; [lia | cbn; lia].
    + exists (k + 2)%Z. split; [lia | cbn; lia].
Qed.

(** X5.  In every world of a run the score is a non-negative multiple of
    10, and a frame never lowers it. *)
Theorem score_counts_up_in_tens h registered w now1 now2 inps inp :
  startable w ->
  let w1 := run h registered w now1 now2 inps in
  (exists k, (0 <= k)%Z /\ score (state w1) = (10 * k)%Z) /\
  (score (state w1) <= score (state (frame h w1 inp)))%Z.
Proof.
  intros Hw w1. split.
  - subst w1. induction inps as [|i inps IH] using rev_ind.
    + destruct (start_state registered w now1 now2 Hw) as (_ & _ & Hs & _).
      exists 0%Z. split; [lia |]. unfold run. cbn [fold_left]. rewrite Hs. reflexivity.
    + destruct IH as (k & Hk & Hs). rewrite run_snoc, state_frame.
      destruct (score_applyEffects_tens
                  (effects (update h (closure (run h registered w now1 now2 inps)) i)
                     (refs (run h registered w now1 now2 inps)))
                  (state (run h registered w now1 now2 inps))
                  (update_scoreStep h _ i _)) as (k' & Hk' & Hs').
      exists (k + k')%Z. split; [lia |]. rewrite Hs', Hs. lia.
  - rewrite state_frame. apply score_applyEffects_mono, update_scoreSafe.
Qed.

(** Witness of [score_counts_up_in_tens]: the sample run stands at 100
    points after 45 frames. *)
Lemma score_counts_up_in_tens_witness :
  startable initialWorld /\
  exists k, (0 <= k)%Z /\
    score (state (run (constantHost 0.9) initialState initialWorld 0 0 (sampleFrames 39))) = (10 * k)%Z.
Proof.
  assert (startable initialWorld) as Hw by (split; [left |]; reflexivity).
  split; [exact Hw |].
  apply (score_counts_up_in_tens (constantHost 0.9) initialState initialWorld 0 0 (sampleFrames 39)
           (idleInput 50000) Hw).
Defined.

Lemma coinsQueued_nonneg es : (0 <= coinsQueued es)%Z.
Proof. induction es as [|e es IH]; [reflexivity |]. destruct e; simpl; lia. Qed.

Lemma start_keeps_coins registered w now1 now2 :
  coins (state (start registered w now1 now2)) = coins (state w).
Proof.
  unfold start. destruct (gameState (state w)); try reflexivity;
    rewrite state_commit, coins_applyEffects; cbn; lia.
Qed.

(** X6.  Neither a start nor a frame ever takes a coin away: from any
    world, the coin total after a start and any frames is at least the coin
    total before. *)
Theorem frames_never_take_coins h registered w now1 now2 inps :
  (coins (state w) <= coins (state (run h registered w now1 now2 inps)))%Z.
Proof.
  induction inps as [|inp inps IH] using rev_ind.
  - unfold run. cbn [fold_left]. rewrite start_keeps_coins. lia.
  - rewrite run_snoc, state_frame, coins_applyEffects.
    pose proof (coinsQueued_nonneg
                  (effects (update h (closure (run h registered w now1 now2 inps)) inp)
                     (refs (run h registered w now1 now2 inps)))).
    lia.
Qed.

(** * Frames outside a run *)

Lemma frame_idle_refs h w inp :
  synced w -> gameState (state w) <> PLAYING \/ has_ctx inp = false ->
  refs (frame h w inp) = refs w.
Proof.
  intros (Hg & _) Hidle. rewrite refs_frame. unfold exec.
  rewrite update_idle; [reflexivity |].
  destruct Hidle as [Hn | Hc]; [left; congruence | right; exact Hc].
Qed.

(** X7.  While the game state is not PLAYING (and the callback in place
    was created for that game state), animation frames change nothing:
    after any number of them the state and the refs (player, obstacles,
    collectibles, clocks) are what they were. *)
Theorem frames_idle_outside_a_run h w inps :
  synced w -> gameState (state w) <> PLAYING ->
  state (fold_left (frame h) inps w) = state w /\
  refs (fold_left (frame h) inps w) = refs w.
Proof.
  intros Hs Hg. induction inps as [|inp inps IH] using rev_ind; [split; reflexivity |].
  destruct IH as [IHs IHr]. rewrite fold_left_app. cbn [fold_left].
  assert (synced (fold_left (frame h) inps w)) as Hs'.
  { clear IHs IHr. induction inps as [|i inps IH] using rev_ind; [exact Hs |].
    rewrite fold_left_app. cbn [fold_left]. apply commit_synced, IH. }
  assert (gameState (state (fold_left (frame h) inps w)) <> PLAYING) as Hg'
    by (rewrite IHs; exact Hg).
  rewrite (frame_idle h _ inp Hs' (or_introl Hg')).
  rewrite (frame_idle_refs h _ inp Hs' (or_introl Hg')).
  split; assumption.
Qed.

(** Witness of [frames_idle_outside_a_run]: on the START screen two frames
    leave the freshly mounted component as it is. *)
Lemma frames_idle_outside_a_run_witness :
  synced initialWorld /\ gameState (state initialWorld) <> PLAYING /\
  state (fold_left (frame (constantHost 0.9)) [idleInput 16; idleInput 6000] initialWorld)
    = initialState.
Proof.
  assert (synced initialWorld) as Hs by (repeat split).
  assert (gameState (state initialWorld) <> PLAYING) as Hg by discriminate.
  split; [exact Hs |]. split; [exact Hg |].
  apply (frames_idle_outside_a_run (constantHost 0.9) initialWorld
           [idleInput 16; idleInput 6000] Hs Hg).
Defined.

(** * Slot placement *)

Lemma tooClose_false spawnedX x :
  tooClose spawnedX x = false <->
  forall sx, In sx spawnedX -> CAR_WIDTH + 20 <= Qabs (sx - x).
Proof.
  unfold tooClose. split.
  - intros H sx Hin. apply Qltb_false.
    destruct (Qabs (sx - x) <? CAR_WIDTH + 20) eqn:E; [| reflexivity].
    assert (existsb (fun sx => Qabs (sx - x) <? CAR_WIDTH + 20) spawnedX = true) as Ht
      by (apply existsb_exists; exists sx; split; assumption).
    rewrite H in Ht. discriminate Ht.
  - intros H. apply not_true_is_false. intros Ht.
    apply existsb_exists in Ht as (sx & Hin & Hlt).
    apply Qltb_true in Hlt. specialize (H sx Hin). lra.
Qed.

(** The loop draws [k] numbers, 1 <= k <= retries + 1: the first [k - 1]
    gave positions too close to a taken slot, and the last is returned,
    acceptable or not if it was the last allowed. *)
Lemma pickX_spec h spawnedX retries : forall r,
  exists k,
    (1 <= k <= S retries)%nat /\
    exec (pickX h spawnedX retries) r = set_randomCalls (randomCalls r + k) r /\
    value (pickX h spawnedX retries) r =
      Math_random h (randomCalls r + k - 1) * (CANVAS_WIDTH - CAR_WIDTH) /\
    (forall j, (j < k - 1)%nat ->
       tooClose spawnedX (Math_random h (randomCalls r + j) * (CANVAS_WIDTH - CAR_WIDTH))
         = true) /\
    (tooClose spawnedX (value (pickX h spawnedX retries) r) = false \/ k = S retries).
Proof.
  induction retries as [|n IH]; intros r.
  - exists 1%nat. cbn [pickX]. rewrite exec_bind, value_bind. cbn.
    replace (randomCalls r + 1 - 1)%nat with (randomCalls r) by lia.
    replace (randomCalls r + 1)%nat with (S (randomCalls r)) by lia.
    repeat split; [lia | lia | intros j Hj; lia | right; reflexivity].
  - cbn [pickX]. rewrite exec_bind, value_bind.
    change (value (random h) r) with (Math_random h (randomCalls r)).
    change (exec (random h) r) with (set_randomCalls (S (randomCalls r)) r).
    destruct (tooClose spawnedX (Math_random h (randomCalls r) * (CANVAS_WIDTH - CAR_WIDTH)))
      eqn:Hclose.
    + destruct (IH (set_randomCalls (S (randomCalls r)) r)) as (k & Hk & Hx & Hv & Hrej & Hlast).
      cbn [randomCalls set_randomCalls] in Hx, Hv, Hrej.
      exists (S k). split; [lia |]. split; [| split; [| split]].
      * rewrite Hx. unfold set_randomCalls. cbn. f_equal; lia.
      * rewrite Hv. do 2 f_equal; lia.
      * intros j Hj. destruct j as [|j].
        -- rewrite Nat.add_0_r. exact Hclose.
        -- replace (randomCalls r + S j)%nat with (S (randomCalls r) + j)%nat by lia.
           apply Hrej. lia.
      * destruct Hlast as [Hok | ->]; [left; exact Hok | right; reflexivity].
    + exists 1%nat. cbn.
      replace (randomCalls r + 1 - 1)%nat with (randomCalls r) by lia.
      replace (randomCalls r + 1)%nat with (S (randomCalls r)) by lia.
      repeat split; [lia | lia | intros j Hj; lia | left; exact Hclose].
Qed.

(** X8.  Picking a slot's x draws between 1 and 10 random numbers and
    touches nothing else.  The x returned is the last draw scaled to the
    track, lying in [[0, 360)] for draws in [[0, 1)]; every earlier draw was
    rejected for being within CAR_WIDTH + 20 of a slot already taken; and the
    x returned is at least CAR_WIDTH + 20 away from every taken slot unless
    all 10 attempts failed, in which case the tenth is accepted as it is. *)
Theorem slot_x_separated_or_attempts_exhausted h spawnedX r :
  let x := value (pickX h spawnedX 9) r in
  let draw j := Math_random h (randomCalls r + j) * (CANVAS_WIDTH - CAR_WIDTH) in
  exists k,
    (1 <= k <= 10)%nat /\
    exec (pickX h spawnedX 9) r = set_randomCalls (randomCalls r + k) r /\
    x = draw (k - 1)%nat /\
    (forall j, (j < k - 1)%nat -> tooClose spawnedX (draw j) = true) /\
    ((forall sx, In sx spawnedX -> CAR_WIDTH + 20 <= Qabs (sx - x)) \/
     (k = 10%nat /\ forall j, (j < 10)%nat -> tooClose spawnedX (draw j) = true)) /\
    ((forall n, 0 <= Math_random h n < 1) -> 0 <= x < CANVAS_WIDTH - CAR_WIDTH).
Proof.
  intros x draw. destruct (pickX_spec h spawnedX 9 r) as (k & Hk & Hx & Hv & Hrej & Hlast).
  fold x in Hv, Hlast.
  assert (x = draw (k - 1)%nat) as Hxd.
  { rewrite Hv. unfold draw. do 2 f_equal. lia. }
  exists k. split; [lia |]. split; [exact Hx |]. split; [exact Hxd |].
  split; [exact Hrej |]. split.
  - destruct (tooClose spawnedX x) eqn:Hclose.
    + right. destruct Hlast as [H | ->]; [discriminate H |].
      split; [reflexivity |]. intros j Hj.
      destruct (Nat.eq_dec j 9%nat) as [-> | Hne];
        [change (draw 9%nat) with (draw (10 - 1)%nat); rewrite <- Hxd; exact Hclose |].
      apply Hrej. lia.
    + left. apply tooClose_false, Hclose.
  - intros Hrange. rewrite Hv.
    specialize (Hrange (randomCalls r + k - 1)%nat). unfold CANVAS_WIDTH, CAR_WIDTH. lra.
Qed.

(** * How obstacles move *)

Lemma flicker_keeps_body limit enemy :
  let e' := flicker limit enemy in
  Enemy.x e' = Enemy.x enemy /\ Enemy.y e' = Enemy.y enemy /\
  Enemy.width e' = Enemy.width enemy /\ Enemy.height e' = Enemy.height enemy /\
  Enemy.speed e' = Enemy.speed enemy /\ Enemy.vx e' = Enemy.vx enemy /\
  Enemy.direction e' = Enemy.direction enemy /\ Enemy.pull e' = Enemy.pull enemy.
Proof.
  unfold flicker. destruct (Enemy.timer enemy) as [t|]; [| repeat split].
  destruct (t + 1 >? limit)%Z; repeat split.
Qed.

Lemma laserLogic_keeps_body enemy :
  let e' := laserLogic enemy in
  Enemy.x e' = Enemy.x enemy /\ Enemy.y e' = Enemy.y enemy /\
  Enemy.width e' = Enemy.width enemy /\ Enemy.height e' = Enemy.height enemy /\
  Enemy.speed e' = Enemy.speed enemy /\ Enemy.vx e' = Enemy.vx enemy /\
  Enemy.direction e' = Enemy.direction enemy /\ Enemy.pull e' = Enemy.pull enemy.
Proof.
  rewrite laserLogic_cases. destruct (bool_decide (Enemy.type enemy = LASER));
    [apply flicker_keeps_body | repeat split].
Qed.

Lemma platformLogic_keeps_body enemy :
  let e' := platformLogic enemy in
  Enemy.x e' = Enemy.x enemy /\ Enemy.y e' = Enemy.y enemy /\
  Enemy.width e' = Enemy.width enemy /\ Enemy.height e' = Enemy.height enemy /\
  Enemy.speed e' = Enemy.speed enemy /\ Enemy.vx e' = Enemy.vx enemy /\
  Enemy.direction e' = Enemy.direction enemy /\ Enemy.pull e' = Enemy.pull enemy.
Proof.
  rewrite platformLogic_cases. destruct (bool_decide (Enemy.type enemy = PLATFORM));
    [apply flicker_keeps_body | repeat split].
Qed.

Lemma barrierLogic_keeps_body enemy :
  let e' := barrierLogic enemy in
  Enemy.y e' = Enemy.y enemy /\
  Enemy.width e' = Enemy.width enemy /\ Enemy.height e' = Enemy.height enemy /\
  Enemy.speed e' = Enemy.speed enemy /\ Enemy.vx e' = Enemy.vx enemy /\
  Enemy.pull e' = Enemy.pull enemy /\
  (Enemy.type enemy <> BARRIER -> barrierLogic enemy = enemy).
Proof.
  unfold barrierLogic.
  destruct (Enemy.type enemy) eqn:Hty, (Enemy.vx enemy) eqn:Hvx,
    (Enemy.direction enemy) eqn:Hdir;
    try (repeat split; congruence).
  match goal with |- context [if ?b then _ else _] => destruct b end;
    cbn; repeat split; congruence.
Qed.

Lemma chaserLogic_keeps_body s p enemy :
  let e' := chaserLogic s p enemy in
  Enemy.y e' = Enemy.y enemy /\
  Enemy.width e' = Enemy.width enemy /\ Enemy.height e' = Enemy.height enemy /\
  Enemy.speed e' = Enemy.speed enemy /\ Enemy.vx e' = Enemy.vx enemy /\
  Enemy.direction e' = Enemy.direction enemy /\ Enemy.pull e' = Enemy.pull enemy /\
  (Enemy.type enemy <> CHASER -> chaserLogic s p enemy = enemy).
Proof.
  unfold chaserLogic. destruct (Enemy.type enemy); repeat split; congruence.
Qed.

Lemma obstacles_keep_vx s p enemy :
  Enemy.vx (behave s p enemy) = Enemy.vx enemy.
Proof.
  unfold behave.
  set (e1 := moveDown s enemy).
  destruct (chaserLogic_keeps_body s p (platformLogic (laserLogic (barrierLogic e1))))
    as (_ & _ & _ & _ & -> & _).
  destruct (platformLogic_keeps_body (laserLogic (barrierLogic e1)))
    as (_ & _ & _ & _ & _ & -> & _).
  destruct (laserLogic_keeps_body (barrierLogic e1)) as (_ & _ & _ & _ & _ & -> & _).
  destruct (barrierLogic_keeps_body e1) as (_ & _ & _ & _ & -> & _).
  reflexivity.
Qed.

(** X9.  Whatever its kind, an obstacle keeps its kind, width, height,
    speed, horizontal step and pull through a frame; it moves down by its
    speed, times 1.5 while the callback sees a boost; and only a barrier or a
    chaser ever changes its x. *)
Theorem obstacles_fall_and_keep_their_shape s p enemy :
  let e' := behave s p enemy in
  Enemy.type e' = Enemy.type enemy /\
  Enemy.width e' = Enemy.width enemy /\ Enemy.height e' = Enemy.height enemy /\
  Enemy.speed e' = Enemy.speed enemy /\ Enemy.vx e' = Enemy.vx enemy /\
  Enemy.pull e' = Enemy.pull enemy /\
  Enemy.y e' =
    Enemy.y enemy + Enemy.speed enemy * (if (activeBoost s >? 0)%Z then 1.5 else 1) /\
  (Enemy.type enemy <> BARRIER -> Enemy.type enemy <> CHASER ->
   Enemy.x e' = Enemy.x enemy).
Proof.
  intros e'. split; [apply behave_type |]. subst e'. unfold behave.
  set (e1 := moveDown s enemy).
  set (e2 := barrierLogic e1).
  set (e3 := laserLogic e2).
  set (e4 := platformLogic e3).
  destruct (chaserLogic_keeps_body s p e4) as (Cy & Cw & Ch & Cs & Cv & _ & Cp & Cid).
  destruct (platformLogic_keeps_body e3) as (Px & Py & Pw & Ph & Ps & Pv & _ & Pp).
  destruct (laserLogic_keeps_body e2) as (Lx & Ly & Lw & Lh & Ls & Lv & _ & Lp).
  destruct (barrierLogic_keeps_body e1) as (By & Bw & Bh & Bs & Bv & Bp & Bid).
  fold e2 in By, Bw, Bh, Bs, Bv, Bp, Bid.
  fold e3 in Lx, Ly, Lw, Lh, Ls, Lv, Lp.
  fold e4 in Px, Py, Pw, Ph, Ps, Pv, Pp.
  assert (Enemy.type e4 = Enemy.type enemy) as Hty4.
  { subst e4 e3 e2 e1.
    rewrite platformLogic_type, laserLogic_type, barrierLogic_type. reflexivity. }
  repeat split.
  - rewrite Cw, Pw, Lw, Bw. reflexivity.
  - rewrite Ch, Ph, Lh, Bh. reflexivity.
  - rewrite Cs, Ps, Ls, Bs. reflexivity.
  - rewrite Cv, Pv, Lv, Bv. reflexivity.
  - rewrite Cp, Pp, Lp, Bp. reflexivity.
  - rewrite Cy, Py, Ly, By. reflexivity.
  - intros Hb Hc. rewrite Cid by (rewrite Hty4; exact Hc).
    rewrite Px, Lx. subst e2. rewrite Bid by exact Hb. reflexivity.
Qed.

(** ** Chaser *)

Lemma Math_sign_cases a :
  (0 < a /\ Math_sign a = 1) \/ (a < 0 /\ Math_sign a = -1) \/ (a == 0 /\ Math_sign a = 0).
Proof.
  unfold Math_sign.
  destruct (a >? 0) eqn:Hp.
  - left. apply Qgtb_true in Hp. split; [exact Hp | reflexivity].
  - apply Qgtb_false in Hp. destruct (a <? 0) eqn:Hn.
    + right. left. apply Qltb_true in Hn. split; [exact Hn | reflexivity].
    + right. right. apply Qltb_false in Hn. split; [lra | reflexivity].
Qed.

Lemma chaser_step (dx reach : Q) :
  0 <= reach ->
  Qabs (dx - Math_sign dx * Qmin (Qabs dx) reach) == Qmax 0 (Qabs dx - reach) /\
  (Qabs dx <= reach -> Math_sign dx * Qmin (Qabs dx) reach == dx).
Proof.
  intros Hr.
  destruct (Q.min_spec (Qabs dx) reach) as [[Hlt Hmin] | [Hle Hmin]];
    destruct (Q.max_spec 0 (Qabs dx - reach)) as [[Hlt' Hmax] | [Hle' Hmax]];
    destruct (Math_sign_cases dx) as [[Hs ->] | [[Hs ->] | [Hs ->]]];
    rewrite Hmin, Hmax;
    try (rewrite (Qabs_pos dx) in * by lra);
    try (rewrite (Qabs_neg dx) in * by lra);
    try (assert (Qabs dx == 0) as H0 by (rewrite Hs; reflexivity); rewrite H0 in * );
    split; try (intros Hle2);
    try (apply Qabs_case; intros); lra.
Qed.

(** X10.  With a non-negative difficulty, a chaser's horizontal distance
    to the player shrinks each frame by the chase speed 1.5 * difficulty, and
    not below zero: within reach it lands exactly on the player's x and never
    overshoots. *)
Theorem chaser_closes_in_without_overshoot s p enemy :
  Enemy.type enemy = CHASER -> 0 <= difficulty s ->
  let e' := behave s p enemy in
  let gap := Qabs (GameObject.x p - Enemy.x enemy) in
  let reach := 1.5 * difficulty s in
  Qabs (GameObject.x p - Enemy.x e') == Qmax 0 (gap - reach) /\
  (gap <= reach -> Enemy.x e' == GameObject.x p).
Proof.
  intros Hty Hd e' gap reach.
  assert (Enemy.x e' =
          Enemy.x enemy +
          Math_sign (GameObject.x p - Enemy.x enemy) *
          Qmin (Qabs (GameObject.x p - Enemy.x enemy)) (1.5 * difficulty s)) as Hx.
  { subst e'. unfold behave.
    set (e1 := moveDown s enemy).
    destruct (barrierLogic_keeps_body e1) as (_ & _ & _ & _ & _ & _ & Bid).
    rewrite Bid by (subst e1; cbn; rewrite Hty; discriminate).
    destruct (laserLogic_keeps_body e1) as (Lx & _).
    destruct (platformLogic_keeps_body (laserLogic e1)) as (Px & _).
    assert (Enemy.type (platformLogic (laserLogic e1)) = CHASER) as Hty4
      by (rewrite platformLogic_type, laserLogic_type; exact Hty).
    unfold chaserLogic. rewrite Hty4. cbn [Enemy.x Enemy.set_x].
    rewrite Px, Lx. reflexivity. }
  assert (0 <= reach) as Hr by (subst reach; lra).
  destruct (chaser_step (GameObject.x p - Enemy.x enemy) reach Hr) as [Hgap Hland].
  fold gap in Hx, Hgap, Hland. fold reach in Hx.
  rewrite Hx. split.
  - rewrite <- Hgap. apply Qabs_wd. ring.
  - intros Hle. rewrite (Hland Hle). ring.
Qed.

(** Witness of [chaser_closes_in_without_overshoot]: a chaser 100 to the
    left of the player moves 1.5 closer at difficulty 1. *)
Lemma chaser_closes_in_without_overshoot_witness :
  Enemy.type (chaserAt 80 100) = CHASER /\ 0 <= difficulty (playingState 1 0) /\
  Qabs (GameObject.x initialPlayer -
        Enemy.x (behave (playingState 1 0) initialPlayer (chaserAt 80 100))) == 98.5.
Proof.
  split; [reflexivity |]. split; [discriminate |].
  destruct (chaser_closes_in_without_overshoot (playingState 1 0) initialPlayer
              (chaserAt 80 100) eq_refl ltac:(discriminate)) as [H _].
  rewrite H. reflexivity.
Defined.

(** ** Barrier *)

Lemma Qleb_false (a b : Q) : (a <=? b) = false <-> b < a.
Proof.
  rewrite <- not_true_iff_false, Qle_bool_iff.
  split; [apply Qnot_le_lt | apply Qlt_not_le].
Qed.

Lemma Qgeb_false (a b : Q) : (a >=? b) = false <-> a < b.
Proof. apply Qleb_false. Qed.

Lemma barrierLogic_within x0 enemy :
  barrierWithin x0 enemy -> barrierWithin x0 (barrierLogic enemy).
Proof.
  intros ((Hty & vx & direction & Hvx & Hdir & Hpos & Hd) & Hin).
  destruct (Hin vx direction Hvx Hdir) as (Hlo & Hhi & Hright & Hleft).
  assert (stretchLeft x0 <= 0) as HL by apply Q.le_min_r.
  assert (CANVAS_WIDTH - Enemy.width enemy <= stretchRight x0 (Enemy.width enemy)) as HR
    by apply Q.le_max_r.
  unfold barrierLogic. rewrite Hty, Hvx, Hdir.
  cbn [Enemy.x Enemy.width Enemy.set_x].
  set (x' := Enemy.x enemy + vx * direction).
  assert ((direction == 1 /\ x' == Enemy.x enemy + vx) \/
          (direction == -1 /\ x' == Enemy.x enemy - vx)) as Hx'.
  { subst x'. destruct Hd as [Hd | Hd]; [left | right];
      (split; [exact Hd | rewrite Hd; ring]). }
  destruct ((x' <=? 0) || (x' + Enemy.width enemy >=? CANVAS_WIDTH)) eqn:Hedge.
  - split.
    + split; [exact Hty |]. exists vx, (direction * -1). cbn. rewrite Hvx.
      repeat split; try assumption.
      destruct Hd as [Hd | Hd]; [right | left]; rewrite Hd; reflexivity.
    + cbn. rewrite Hvx. intros vx0 d0 Hvx0 Hd0.
      injection Hvx0 as <-. injection Hd0 as <-. fold x'.
      destruct Hx' as [(Hd' & Hx') | (Hd' & Hx')]; rewrite Hx'.
      * specialize (Hright Hd').
        repeat split; try lra; intros Hflip; rewrite Hd' in Hflip; try lra;
          discriminate Hflip.
      * specialize (Hleft Hd').
        repeat split; try lra; intros Hflip; rewrite Hd' in Hflip; try lra;
          discriminate Hflip.
  - apply orb_false_iff in Hedge. destruct Hedge as [Hl' Hr'].
    apply Qleb_false in Hl'. apply Qgeb_false in Hr'.
    split.
    + split; [exact Hty |]. exists vx, direction. cbn. rewrite Hvx, Hdir.
      repeat split; assumption.
    + cbn. rewrite Hvx, Hdir. intros vx0 d0 Hvx0 Hd0.
      injection Hvx0 as <-. injection Hd0 as <-. fold x'.
      destruct Hx' as [(Hd' & Hx') | (Hd' & Hx')].
      * specialize (Hright Hd').
        repeat split; try lra; intros Hd''; rewrite Hd' in Hd''; discriminate Hd''.
      * specialize (Hleft Hd').
        repeat split; try lra; intros Hd''; rewrite Hd' in Hd''; discriminate Hd''.
Qed.

Lemma barrier_behave s p enemy :
  Enemy.type enemy = BARRIER ->
  let e' := behave s p enemy in
  let b := barrierLogic enemy in
  Enemy.type e' = BARRIER /\ Enemy.x e' = Enemy.x b /\
  Enemy.width e' = Enemy.width b /\ Enemy.vx e' = Enemy.vx b /\
  Enemy.direction e' = Enemy.direction b.
Proof.
  intros Hty e' b.
  assert (barrierLogic (moveDown s enemy) = moveDown s (barrierLogic enemy)) as Hcomm.
  { unfold barrierLogic, moveDown. cbn. rewrite Hty.
    destruct (Enemy.vx enemy), (Enemy.direction enemy); try reflexivity.
    match goal with |- context [if ?c then _ else _] => destruct c end; reflexivity. }
  subst e'. split; [rewrite behave_type; exact Hty |]. unfold behave. rewrite Hcomm.
  fold b. set (e2 := moveDown s b).
  destruct (laserLogic_keeps_body e2) as (Lx & _ & Lw & _ & _ & Lv & Ld & _).
  destruct (platformLogic_keeps_body (laserLogic e2)) as (Px & _ & Pw & _ & _ & Pv & Pd & _).
  destruct (chaserLogic_keeps_body s p (platformLogic (laserLogic e2)))
    as (_ & _ & _ & _ & _ & _ & _ & Cid).
  rewrite Cid.
  2:{ rewrite platformLogic_type, laserLogic_type. subst e2 b. cbn.
      rewrite barrierLogic_type, Hty. discriminate. }
  rewrite Px, Lx, Pw, Lw, Pv, Lv, Pd, Ld. subst e2. repeat split.
Qed.

Lemma behave_within x0 s p enemy :
  barrierWithin x0 enemy -> barrierWithin x0 (behave s p enemy).
Proof.
  intros Hc. pose proof (barrierLogic_within x0 enemy Hc) as Hb.
  destruct Hc as ((Hty & _) & _).
  destruct (barrier_behave s p enemy Hty) as (Hty' & Hx & Hw & Hv & Hd).
  destruct Hb as ((_ & Hmove) & Hin).
  split; [split; [exact Hty' | rewrite Hv, Hd; exact Hmove] |].
  rewrite Hx, Hw, Hv, Hd. exact Hin.
Qed.

Lemma behave_width s p enemy : Enemy.width (behave s p enemy) = Enemy.width enemy.
Proof.
  unfold behave.
  set (e1 := moveDown s enemy).
  destruct (chaserLogic_keeps_body s p (platformLogic (laserLogic (barrierLogic e1))))
    as (_ & -> & _).
  destruct (platformLogic_keeps_body (laserLogic (barrierLogic e1))) as (_ & _ & -> & _).
  destruct (laserLogic_keeps_body (barrierLogic e1)) as (_ & _ & -> & _).
  destruct (barrierLogic_keeps_body e1) as (_ & -> & _).
  reflexivity.
Qed.

Lemma frames_within x0 (frames : list (State * GameObject.t)) : forall enemy,
  barrierWithin x0 enemy ->
  let e' := fold_left (fun e f => behave (fst f) (snd f) e) frames enemy in
  barrierWithin x0 e' /\ Enemy.width e' = Enemy.width enemy /\ Enemy.vx e' = Enemy.vx enemy.
Proof.
  induction frames as [| [s p] frames IH]; intros enemy Hc; cbn [fold_left].
  - split; [exact Hc | split; reflexivity].
  - cbn [fst snd]. destruct (IH _ (behave_within x0 s p enemy Hc)) as (Hc' & Hw & Hv).
    split; [exact Hc' |]. rewrite Hw, Hv, behave_width, obstacles_keep_vx. split; reflexivity.
Qed.

(** X11.  A barrier that steps [vx >= 0] in direction 1 or -1, wherever
    it sets out, keeps doing so through any number of frames, whatever the
    callback snapshot and the player position of each frame, and its x stays
    between [min (x0, 0) - vx] and [max (x0, CANVAS_WIDTH - width) + vx],
    where [x0] is the x it set out at.  So a barrier that sets out inside the
    track is never more than one step beyond either edge, and one that sets
    out across the right edge never gets further right than one step beyond
    where it set out. *)
Theorem barrier_bounces_between_the_edges (frames : list (State * GameObject.t)) enemy :
  movingBarrier enemy ->
  let x0 := Enemy.x enemy in
  let width := Enemy.width enemy in
  let e' := fold_left (fun e f => behave (fst f) (snd f) e) frames enemy in
  movingBarrier e' /\ Enemy.width e' = width /\
  forall vx, Enemy.vx enemy = Some vx ->
    Enemy.vx e' = Some vx /\
    Qmin x0 0 - vx <= Enemy.x e' <= Qmax x0 (CANVAS_WIDTH - width) + vx /\
    (0 <= x0 -> x0 + width <= CANVAS_WIDTH ->
     - vx <= Enemy.x e' /\ Enemy.x e' + Enemy.width e' <= CANVAS_WIDTH + vx).
Proof.
  intros Hm x0 width e'. subst x0 width.
  assert (barrierWithin (Enemy.x enemy) enemy) as Hc.
  { split; [exact Hm |]. intros vx direction Hvx Hdir.
    destruct Hm as (_ & vx' & d' & Hvx' & _ & Hpos & _).
    rewrite Hvx in Hvx'. injection Hvx' as <-.
    pose proof (Q.le_min_l (Enemy.x enemy) 0).
    pose proof (Q.le_max_l (Enemy.x enemy) (CANVAS_WIDTH - Enemy.width enemy)).
    unfold stretchLeft, stretchRight. repeat split; try lra; intros _; lra. }
  destruct (frames_within (Enemy.x enemy) frames enemy Hc) as ((Hm' & Hin) & Hw & Hv).
  fold e' in Hm', Hin, Hw, Hv.
  split; [exact Hm' |]. split; [exact Hw |]. intros vx Hvx.
  rewrite Hv. split; [exact Hvx |].
  destruct Hm' as (_ & vx' & d' & Hvx' & Hd' & _ & _).
  assert (vx' = vx) as -> by (rewrite Hv, Hvx in Hvx'; injection Hvx' as <-; reflexivity).
  destruct (Hin vx d' Hvx' Hd') as (Hlo & Hhi & _). rewrite Hw in Hhi.
  unfold stretchLeft, stretchRight in Hlo, Hhi.
  split; [split; assumption |]. intros H0 H1.
  rewrite Hw.
  pose proof (Q.min_r (Enemy.x enemy) 0 H0) as HL.
  assert (Enemy.x enemy <= CANVAS_WIDTH - Enemy.width enemy) as H1' by lra.
  pose proof (Q.max_r (Enemy.x enemy) (CANVAS_WIDTH - Enemy.width enemy) H1') as HR.
  split; lra.
Qed.

(** Witness of [barrier_bounces_between_the_edges]: a barrier spawned at
    x = 350, across the right edge, and heading left is still a moving
    barrier after three frames and no further right than 352. *)
Lemma barrier_bounces_between_the_edges_witness :
  movingBarrier (barrierAt 350 (-1)) /\
  Enemy.x (fold_left (fun e f => behave (fst f) (snd f) e)
             (repeat (playingState 1 0, initialPlayer) 3) (barrierAt 350 (-1)))
    <= Qmax 350 (CANVAS_WIDTH - CAR_WIDTH * 1.5) + 2.
Proof.
  assert (movingBarrier (barrierAt 350 (-1))) as Hc.
  { split; [reflexivity |]. exists 2, (-1). repeat split; try reflexivity.
    - discriminate.
    - right. reflexivity. }
  split; [exact Hc |].
  destruct (barrier_bounces_between_the_edges
              (repeat (playingState 1 0, initialPlayer) 3) (barrierAt 350 (-1)) Hc)
    as (_ & _ & H).
  destruct (H 2 eq_refl) as (_ & (_ & Hhi) & _). exact Hhi.
Defined.

(** * Movement *)

Lemma movePlayer_sliding h s inp :
  (0 < isSliding s)%Z ->
  movePlayer h s inp =
    (modify_player_x (fun x => x + Math_sin h (time inp / 100) * 3) ;;
     modify_player_x (fun x => Qmax 0 (Qmin (CANVAS_WIDTH - CAR_WIDTH) x))).
Proof.
  intros H. unfold movePlayer.
  replace (isSliding s =? 0)%Z with false by (symmetry; apply Z.eqb_neq; lia).
  rewrite andb_false_r.
  replace (isSliding s >? 0)%Z with true by (symmetry; apply Zgtb_true; lia).
  reflexivity.
Qed.

(** X12.  While the callback sees the player sliding, the frame does not
    read the steering input: two inputs with the same time stamp and canvas
    give the same frame, whatever keys and touch areas are held. *)
Theorem sliding_ignores_steering h s inp inp' :
  (0 < isSliding s)%Z -> time inp' = time inp -> has_ctx inp' = has_ctx inp ->
  update h s inp' = update h s inp.
Proof.
  intros Hs Ht Hc. unfold update, movementStep.
  rewrite !(movePlayer_sliding h s) by exact Hs.
  destruct inp as [t k l r c], inp' as [t' k' l' r' c']. cbn in Ht, Hc. subst t' c'.
  reflexivity.
Qed.

(** Witness of [sliding_ignores_steering]: holding the left arrow changes
    nothing while sliding. *)
Lemma sliding_ignores_steering_witness :
  (0 < isSliding (slidingState 60))%Z /\
  update (constantHost 0) (slidingState 60) (steeringInput 16 ["ArrowLeft"] false false) =
  update (constantHost 0) (slidingState 60) (idleInput 16).
Proof.
  split; [reflexivity |].
  apply (sliding_ignores_steering (constantHost 0) (slidingState 60)
           (idleInput 16) (steeringInput 16 ["ArrowLeft"] false false));
    reflexivity.
Defined.

Lemma movePlayer_steering h s inp r :
  isSliding s = 0%Z ->
  playerRef (exec (movePlayer h s inp) r) =
  GameObject.set_x
    (let x := GameObject.x (playerRef r) in
     let x := if moveLeft inp then Qmax 0 (x - currentSpeed s) else x in
     if moveRight inp then Qmin (CANVAS_WIDTH - CAR_WIDTH) (x + currentSpeed s) else x)
    (playerRef r).
Proof.
  intros Hs. unfold movePlayer. rewrite Hs. cbn [Z.eqb Z.gtb Z.compare].
  rewrite andb_true_r.
  destruct (moveLeft inp), (moveRight inp); cbn; destruct (playerRef r); reflexivity.
Qed.

(** X13.  Steering, for a car on the track that is not sliding: one
    intent moves the car one step of [currentSpeed] towards that side, stopped
    at the edge; with both intents the car keeps its place, except within one
    step of the left edge, where it ends at [x = currentSpeed]; with none it
    stays.  In every case it moves by at most one step. *)
Theorem steering_moves_one_step h s inp r :
  isSliding s = 0%Z -> on_track r ->
  let x := GameObject.x (playerRef r) in
  let x' := GameObject.x (playerRef (exec (movePlayer h s inp) r)) in
  let v := currentSpeed s in
  match moveLeft inp, moveRight inp with
  | true, false => x' == Qmax 0 (x - v)
  | false, true => x' == Qmin (CANVAS_WIDTH - CAR_WIDTH) (x + v)
  | true, true => x' == Qmax x v
  | false, false => x' == x
  end /\
  Qabs (x' - x) <= v.
Proof.
  intros Hs [Hlo Hhi] x x' v.
  assert (0 < v /\ v <= 33 # 2) as [Hv Hv'].
  { subst v. split; [apply currentSpeed_pos |].
    unfold currentSpeed, basePlayerSpeed.
    destruct (tireType s), (activeBoost s >? 0)%Z; discriminate. }
  subst x'. rewrite (movePlayer_steering h s inp r Hs). fold x v.
  unfold CANVAS_WIDTH, CAR_WIDTH in *.
  destruct (moveLeft inp), (moveRight inp); cbn [GameObject.x GameObject.set_x];
    (split; [| apply Qabs_case; intros _]);
    repeat match goal with
      | |- context [Qmax ?a ?b] =>
          destruct (Q.max_spec a b) as [[? ->] | [? ->]]
      | |- context [Qmin ?a ?b] =>
          destruct (Q.min_spec a b) as [[? ->] | [? ->]]
      end; fold x in Hlo, Hhi; try lra.
Qed.

(** Witness of [steering_moves_one_step]: both arrows held with the car
    at the start position. *)
Lemma steering_moves_one_step_witness :
  isSliding (playingState 1 0) = 0%Z /\ on_track initialRefs /\
  GameObject.x
    (playerRef (exec (movePlayer (constantHost 0) (playingState 1 0)
                        (steeringInput 16 ["ArrowLeft"; "ArrowRight"] false false))
                  initialRefs)) == 180.
Proof.
  split; [reflexivity |]. split; [split; discriminate |].
  assert (on_track initialRefs) as Ht by (split; discriminate).
  pose proof (proj1 (steering_moves_one_step (constantHost 0) (playingState 1 0)
              (steeringInput 16 ["ArrowLeft"; "ArrowRight"] false false) initialRefs
              eq_refl Ht)) as H.
  replace (moveLeft (steeringInput 16 ["ArrowLeft"; "ArrowRight"] false false))
    with true in H by (vm_compute; reflexivity).
  replace (moveRight (steeringInput 16 ["ArrowLeft"; "ArrowRight"] false false))
    with true in H by (vm_compute; reflexivity).
  rewrite H. reflexivity.
Defined.

Lemma gravityPull_idle h inp enemy r :
  pulls (playerRef r) enemy = false -> exec (gravityPull h inp enemy) r = r.
Proof.
  unfold pulls, gravityPull. intros H.
  destruct (Enemy.type enemy); try reflexivity.
  destruct (Enemy.pull enemy); try reflexivity.
  rewrite exec_bind. cbn [get value exec fst snd]. rewrite H. reflexivity.
Qed.

Lemma applyGravity_idle h inp r :
  Forall (fun enemy => pulls (playerRef r) enemy = false) (enemiesRef r) ->
  exec (applyGravity h inp) r = r.
Proof.
  unfold applyGravity. rewrite exec_bind. cbn [get value exec fst snd].
  generalize (enemiesRef r) as l. induction l as [| enemy l IH]; intros H.
  - reflexivity.
  - cbn [forEach]. rewrite exec_bind, (gravityPull_idle h inp enemy r (Forall_inv H)).
    apply IH, (Forall_inv_tail H).
Qed.

Lemma movePlayer_moves_only_x h s inp :
  forall r,
    let r' := exec (movePlayer h s inp) r in
    r' = set_playerRef (GameObject.set_x (GameObject.x (playerRef r')) (playerRef r)) r.
Proof.
  intros r. unfold movePlayer.
  destruct ((moveLeft inp || moveRight inp) && (isSliding s =? 0)%Z);
    [destruct (moveLeft inp), (moveRight inp) | destruct (isSliding s >? 0)%Z];
    cbn; destruct r as [[] ? ? ? ? ? ?]; reflexivity.
Qed.

Lemma movePlayer_reads_player h s inp r1 r2 :
  playerRef r1 = playerRef r2 ->
  playerRef (exec (movePlayer h s inp) r1) = playerRef (exec (movePlayer h s inp) r2).
Proof.
  intros H. unfold movePlayer.
  destruct ((moveLeft inp || moveRight inp) && (isSliding s =? 0)%Z);
    [destruct (moveLeft inp), (moveRight inp) | destruct (isSliding s >? 0)%Z];
    cbn; rewrite H; reflexivity.
Qed.

Lemma survivalReward_moves_clock inp r :
  playerRef (exec (survivalReward inp) r) = playerRef r /\
  enemiesRef (exec (survivalReward inp) r) = enemiesRef r.
Proof.
  unfold survivalReward. rewrite exec_bind. cbn [get value exec fst snd].
  destruct (time inp - lastCoinRewardTimeRef r >? 5000); split; reflexivity.
Qed.

(** X14.  Within a frame only the movement step moves the car.  With no
    gravity zone level with the car, the player record after a processed
    frame is the one the steering (or the slide) leaves: the later steps never
    write it.  In particular a car that is neither steered nor seen sliding
    keeps its place, and in every case y, width, height and colour stay. *)
Theorem car_moves_only_by_steering_sliding_or_pull h s inp r :
  gameState s = PLAYING -> has_ctx inp = true ->
  Forall (fun enemy => pulls (playerRef r) enemy = false) (enemiesRef r) ->
  let p' := playerRef (exec (update h s inp) r) in
  p' = playerRef (exec (movePlayer h s inp) r) /\
  p' = GameObject.set_x (GameObject.x p') (playerRef r) /\
  (moveLeft inp = false -> moveRight inp = false -> (isSliding s <= 0)%Z ->
   p' = playerRef r).
Proof.
  intros Hg Hc Hpull p'.
  destruct (survivalReward_moves_clock inp r) as [Hp0 He0].
  set (r0 := exec (survivalReward inp) r) in *.
  pose proof (movePlayer_moves_only_x h s inp r0) as Hr1. cbn zeta in Hr1.
  set (r1 := exec (movePlayer h s inp) r0) in *.
  assert (playerRef r1 = playerRef (exec (movePlayer h s inp) r)) as Hp1
    by (apply movePlayer_reads_player; exact Hp0).
  assert (exec (applyGravity h inp) r1 = r1) as Hgrav.
  { assert (enemiesRef r1 = enemiesRef r) as He1
      by (rewrite Hr1; cbn [enemiesRef set_playerRef]; exact He0).
    assert (GameObject.y (playerRef r1) = GameObject.y (playerRef r) /\
            GameObject.height (playerRef r1) = GameObject.height (playerRef r)) as [Hy Hh]
      by (rewrite Hr1; cbn [playerRef set_playerRef]; rewrite Hp0; split; reflexivity).
    apply applyGravity_idle. rewrite He1.
    eapply Forall_impl; [exact Hpull |]. intros enemy He.
    unfold pulls in *. rewrite Hy, Hh. exact He. }
  assert (p' = playerRef r1) as Hp'.
  { subst p'. rewrite (update_playing h s inp Hg Hc).
    assert (exec (movementStep h s inp) r0 = r1) as Hstep
      by (unfold movementStep; rewrite exec_bind; exact Hgrav).
    rewrite exec_bind. fold r0. rewrite exec_bind, Hstep.
    apply (afterMovement_player (playerRef r1) h s inp r1 eq_refl). }
  assert (p' = playerRef (exec (movePlayer h s inp) r)) as Hmove
    by (rewrite Hp'; exact Hp1).
  split; [exact Hmove |]. split.
  - rewrite Hmove.
    pose proof (movePlayer_moves_only_x h s inp r) as Hr. cbn zeta in Hr.
    rewrite Hr at 1. reflexivity.
  - intros Hl Hrt Hsl. rewrite Hmove. unfold movePlayer. rewrite Hl, Hrt. cbn [orb andb].
    replace (isSliding s >? 0)%Z with false by (symmetry; apply Zgtb_false; exact Hsl).
    reflexivity.
Qed.

(** Witness of [car_moves_only_by_steering_sliding_or_pull]: an idle frame
    on an empty track. *)
Lemma car_moves_only_by_steering_sliding_or_pull_witness :
  gameState (playingState 1 0) = PLAYING /\ has_ctx (idleInput 16) = true /\
  playerRef (exec (update (constantHost 0) (playingState 1 0) (idleInput 16)) initialRefs) =
  initialPlayer.
Proof.
  split; [reflexivity |]. split; [reflexivity |].
  apply (car_moves_only_by_steering_sliding_or_pull (constantHost 0) (playingState 1 0)
           (idleInput 16) initialRefs eq_refl eq_refl ltac:(constructor));
    [reflexivity | reflexivity | discriminate].
Defined.

(** * Road animation *)

Lemma js_rem_period (a : Q) : 0 <= a -> 0 <= js_rem a 100 < 100.
Proof.
  intros Ha. unfold js_rem.
  assert (0 <= a / 100) as Hq by (unfold Qdiv; apply Qmult_le_0_compat; [exact Ha | discriminate]).
  replace (a / 100 <? 0) with false
    by (symmetry; apply Qltb_false; exact Hq).
  pose proof (Qfloor_le (a / 100)) as Hlo.
  pose proof (Qlt_floor (a / 100)) as Hhi.
  rewrite inject_Z_plus in Hhi. change (inject_Z 1) with 1 in Hhi.
  assert (a == 100 * (a / 100)) as Ha' by (field).
  set (k := inject_Z (Qfloor (a / 100))) in *.
  split; lra.
Qed.

Lemma roadAnimation_in_period s :
  0 <= difficulty s -> keeps roadInPeriod (roadAnimation s).
Proof.
  intros Hd r [Hlo Hhi]. unfold roadInPeriod, roadAnimation. cbn.
  apply js_rem_period.
  assert (0 <= ROAD_STRIPE_SPEED * difficulty s * (if (activeBoost s >? 0)%Z then 2 else 1)).
  { apply Qmult_le_0_compat; [apply Qmult_le_0_compat; [discriminate | exact Hd] |].
    destruct (activeBoost s >? 0)%Z; discriminate. }
  lra.
Qed.

Lemma update_road_in_period h s inp :
  0 <= difficulty s -> keeps roadInPeriod (update h s inp).
Proof.
  intros Hd. unfold update.
  destruct (negb (bool_decide (gameState s = PLAYING))); [apply keeps_ret |].
  destruct (negb (has_ctx inp)); [apply keeps_ret |].
  apply keeps_bind; [| intros _].
  { unfold survivalReward.
    repeat first [frame_step | apply keeps_modify; intros ? H; exact H]. }
  apply keeps_bind; [| intros _].
  { unfold movementStep, movePlayer, applyGravity, gravityPull, modify_player_x.
    repeat first [frame_step | apply keeps_modify; intros ? H; exact H]. }
  apply keeps_bind; [apply spawn_kept; intros; assumption | intros _].
  apply keeps_bind; [apply updatePowerUps_kept; intros; assumption | intros _].
  apply keeps_bind; [apply updateEnemies_kept; intros; assumption | intros _].
  apply keeps_bind; [apply decayTimers_kept | intros _].
  apply keeps_bind; [unfold updateDifficulty; apply keeps_emit | intros _].
  apply roadAnimation_in_period, Hd.
Qed.

Lemma difficultyAt_nonneg level points : (0 <= points)%Z -> 0 <= difficultyAt level points.
Proof.
  intros H. unfold difficultyAt.
  assert (0 <= inject_Z (points / 100)) as Hk.
  { change 0 with (inject_Z 0). rewrite <- Zle_Qle. apply Z.div_pos; lia. }
  assert (0 <= baseDiff level) by (destruct level; discriminate).
  lra.
Qed.

Lemma closure_commit w out :
  closure (commit w out) = state (commit w out) \/ closure (commit w out) = closure w.
Proof.
  destruct out as [[u r] es]. unfold commit. cbn [closure state].
  destruct (depsChanged _ _); [left | right]; reflexivity.
Qed.

Lemma frame_road_invariant h w inp : roadInvariant w -> roadInvariant (frame h w inp).
Proof.
  intros (Hsync & Hsc & Hd & Hdc & Hroad).
  assert ((0 <= score (state (frame h w inp)))%Z /\ 0 <= difficulty (state (frame h w inp)))
    as [Hsc' Hd'].
  { destruct (decide (gameState (state w) = PLAYING)) as [Hp | Hp];
      [destruct (has_ctx inp) eqn:Hc |].
    - destruct (frame_playing h w inp Hsync Hp Hc) as [-> Hle].
      split; [lia | apply difficultyAt_nonneg, Hsc].
    - rewrite (frame_idle h w inp Hsync (or_intror Hc)). split; assumption.
    - rewrite (frame_idle h w inp Hsync (or_introl Hp)). split; assumption. }
  split; [apply commit_synced, Hsync |].
  split; [exact Hsc' |]. split; [exact Hd' |]. split.
  - unfold frame in *. destruct (closure_commit w (update h (closure w) inp (refs w))) as [-> | ->];
      assumption.
  - rewrite refs_frame. apply update_road_in_period; assumption.
Qed.

Lemma start_road_invariant registered w now1 now2 :
  startable w -> roadInPeriod (refs w) -> roadInvariant (start registered w now1 now2).
Proof.
  intros Hw Hroad.
  destruct (start_state registered w now1 now2 Hw) as (Hcl & Hg & Hs & Hl & Hdiff).
  destruct (start_synced registered w now1 now2 Hw) as (Hsync & _).
  assert (0 <= difficulty (state (start registered w now1 now2))) as Hd
    by (rewrite Hdiff; destruct (difficultyLevel registered); discriminate).
  split; [exact Hsync |]. split; [rewrite Hs; lia |]. split; [exact Hd |].
  split; [rewrite Hcl; exact Hd |].
  unfold start. destruct Hw as [[-> | ->] _]; rewrite refs_commit; exact Hroad.
Qed.

(** X15.  Throughout a run the stripe offset of the road stays within
    one stripe period, [0 <= roadOffset < 100], provided it was there when the
    run started: the difficulty the callback sees is never negative, so the
    offset only grows before the remainder is taken. *)
Theorem road_offset_stays_within_a_period h registered w now1 now2 inps :
  startable w -> roadInPeriod (refs w) ->
  roadInPeriod (refs (run h registered w now1 now2 inps)).
Proof.
  intros Hw Hroad.
  enough (roadInvariant (run h registered w now1 now2 inps)) as (_ & _ & _ & _ & H) by exact H.
  induction inps as [| inp inps IH] using rev_ind.
  - apply start_road_invariant; assumption.
  - rewrite run_snoc. apply frame_road_invariant, IH.
Qed.

(** Witness of [road_offset_stays_within_a_period]: the sample run from
    the initial world. *)
Lemma road_offset_stays_within_a_period_witness :
  startable initialWorld /\ roadInPeriod (refs initialWorld) /\
  roadInPeriod (refs (run (constantHost 0.3) initialState initialWorld 0 0 (sampleFrames 2))).
Proof.
  assert (startable initialWorld) as Hw by (split; [left |]; reflexivity).
  assert (roadInPeriod (refs initialWorld)) as Hr by (split; [discriminate | reflexivity]).
  split; [exact Hw |]. split; [exact Hr |].
  apply (road_offset_stays_within_a_period (constantHost 0.3) initialState initialWorld 0 0
           (sampleFrames 2) Hw Hr).
Defined.

(** * Input handlers *)

Lemma dispatch_lookup s now1 now2 keys e k :
  dispatch s now1 now2 keys e !! k =
  if bool_decide (eventKey e = k)
  then Some (match e with keydown _ => true | keyup _ => false end)
  else keys !! k.
Proof.
  destruct e as [key | key]; cbn [dispatch handleKeyDown handleKeyUp fst eventKey];
    destruct (bool_decide_reflect (key = k)) as [-> | Hne];
    first [apply lookup_insert_eq | apply lookup_insert_ne, Hne].
Qed.

(** X16.  The key dictionary the frames read reflects the latest event
    of each key: after any sequence of keydown and keyup events a key reads as
    held exactly when its latest event is a keydown; a key with no event reads
    as it did before. *)
Theorem key_held_iff_latest_event_is_keydown s now1 now2 events keys t l r c k :
  key_down (mkInput t (fold_left (dispatch s now1 now2) events keys) l r c) k =
  match lastEvent k events with
  | Some (keydown _) => true
  | Some (keyup _) => false
  | None => key_down (mkInput t keys l r c) k
  end.
Proof.
  unfold key_down, lastEvent. cbn [keysRef].
  induction events as [| e events IH] using rev_ind.
  - reflexivity.
  - rewrite fold_left_app, rev_app_distr. cbn [fold_left rev app find].
    rewrite dispatch_lookup.
    destruct (bool_decide (eventKey e = k)); [destruct e; reflexivity | exact IH].
Qed.

Lemma startGame_reads_level_and_colour s1 s2 now1 now2 :
  difficultyLevel s1 = difficultyLevel s2 -> carColor s1 = carColor s2 ->
  startGame s1 now1 now2 = startGame s2 now1 now2.
Proof. intros Hl Hc. unfold startGame. rewrite Hl, Hc. reflexivity. Qed.

Lemma ret_then (c : Frame unit) r : (ret tt ;; c) r = c r.
Proof. unfold bind, ret. destruct (c r) as [[u r'] es]. reflexivity. Qed.

Lemma then_ret (c : Frame unit) r : (c ;; ret tt) r = c r.
Proof.
  unfold bind, ret. destruct (c r) as [[[] r'] es]. rewrite app_nil_r. reflexivity.
Qed.

Lemma handleKeyDown_frame s key now1 now2 keys r :
  snd (handleKeyDown s key now1 now2 keys) r =
  if startKey s key then startGame s now1 now2 r else (tt, r, []).
Proof.
  unfold handleKeyDown, startKey. cbn [snd].
  destruct (bool_decide (gameState s = START)) eqn:Hs;
    destruct (bool_decide (gameState s = GAMEOVER)) eqn:Ho;
    cbn [andb orb when].
  - apply bool_decide_eq_true_1 in Hs. apply bool_decide_eq_true_1 in Ho. congruence.
  - rewrite then_ret, orb_false_r. destruct (bool_decide (key = "Enter")); reflexivity.
  - rewrite ret_then. destruct (bool_decide (key = "r")); reflexivity.
  - reflexivity.
Qed.

(** X17.  A run started from the keyboard is set up from the render
    that registered the key listener, not from the current one: the start
    difficulty follows the level and the car takes the colour that render
    had: it is the start [start registered].  It agrees with the start of a
    button, [start (state w)], when level and colour have not changed since;
    a key that is not the start key of the screen leaves state and refs
    alone. *)
Theorem keyboard_start_reads_the_registering_render w registered key now1 now2 keys :
  gameState registered = gameState (state w) ->
  let w' := fst (pressKey w registered key now1 now2 keys) in
  (startKey registered key = true ->
   gameState (state w') = PLAYING /\ score (state w') = 0%Z /\
   difficulty (state w') =
     match difficultyLevel registered with EASY => 0.7 | HARD => 1.5 | NORMAL => 1 end /\
   GameObject.color (playerRef (refs w')) = carColor registered /\
   enemiesRef (refs w') = [] /\ powerUpsRef (refs w') = [] /\
   coins (state w') = coins (state w) /\ highScore (state w') = highScore (state w) /\
   w' = start registered w now1 now2 /\
   (difficultyLevel registered = difficultyLevel (state w) ->
    carColor registered = carColor (state w) ->
    w' = start (state w) w now1 now2)) /\
  (startKey registered key = false -> state w' = state w /\ refs w' = refs w).
Proof.
  intros Hg w'.
  assert (w' = commit w (if startKey registered key
                         then startGame registered now1 now2 (refs w)
                         else (tt, refs w, []))) as Hw'.
  { subst w'. unfold pressKey.
    rewrite <- (handleKeyDown_frame registered key now1 now2 keys (refs w)).
    destruct (handleKeyDown registered key now1 now2 keys). reflexivity. }
  split; intros Hk; rewrite Hk in Hw'; rewrite Hw'.
  - rewrite state_commit, refs_commit.
    split; [reflexivity |]. split; [reflexivity |]. split; [reflexivity |].
    split; [reflexivity |]. split; [reflexivity |]. split; [reflexivity |].
    split; [reflexivity |]. split; [reflexivity |].
    assert (commit w (startGame registered now1 now2 (refs w)) =
            start registered w now1 now2) as Hstart.
    { unfold start. unfold startKey in Hk. rewrite Hg in Hk.
      destruct (gameState (state w)); try reflexivity; discriminate Hk. }
    split; [exact Hstart |].
    intros Hl Hc. rewrite Hstart. unfold start.
    rewrite (startGame_reads_level_and_colour registered (state w) now1 now2 Hl Hc).
    reflexivity.
  - rewrite state_commit, refs_commit. split; reflexivity.
Qed.

(** Witness of [keyboard_start_reads_the_registering_render]: the level
    was switched to HARD on the START screen, the listener dates from before;
    Enter starts at difficulty 1, the start button at 1.5. *)
Lemma keyboard_start_reads_the_registering_render_witness :
  gameState initialState = gameState (state hardSelected) /\
  difficulty (state (fst (pressKey hardSelected initialState "Enter" 0 0 ∅))) = 1 /\
  difficulty (state (start (state hardSelected) hardSelected 0 0)) = 1.5.
Proof.
  split; [reflexivity |]. split; [| reflexivity].
  apply (keyboard_start_reads_the_registering_render hardSelected initialState "Enter" 0 0 ∅
           eq_refl).
  reflexivity.
Defined.

(** * Shop *)

Lemma Zgeb_true (a b : Z) : (a >=? b)%Z = true <-> (b <= a)%Z.
Proof. rewrite Z.geb_leb. apply Z.leb_le. Qed.

Lemma Zgeb_false (a b : Z) : (a >=? b)%Z = false <-> (a < b)%Z.
Proof. rewrite Z.geb_leb. apply Z.leb_gt. Qed.

Lemma includes_added (type : ItemType) (id : string) (su : State * UnlockedItems) :
  includes type id (snd (applyShopEffect su (setUnlockedItems_add type id))) = true.
Proof.
  destruct su as [s u], type; cbn; apply bool_decide_eq_true_2, elem_of_app; right; constructor.
Qed.

Lemma includes_kept (su : State * UnlockedItems) (e : ShopEffect)
    (type' : ItemType) (id' : string) :
  includes type' id' (snd su) = true ->
  includes type' id' (snd (applyShopEffect su e)) = true.
Proof.
  destruct su as [s u]. intros H. destruct e as [cost | type0 id0]; [exact H |].
  destruct type0, type'; cbn in *; try exact H;
    apply bool_decide_eq_true_1 in H; apply bool_decide_eq_true_2, elem_of_app; left; exact H.
Qed.

Lemma buyItem_cases (s : State) (u : UnlockedItems) (type : ItemType) (id : string)
    (cost : Z) :
  (includes type id u = true /\ buyItem s u type id cost = (true, [])) \/
  (includes type id u = false /\ (cost <= coins s)%Z /\
   buyItem s u type id cost = (true, [setCoins_sub cost; setUnlockedItems_add type id])) \/
  (includes type id u = false /\ (coins s < cost)%Z /\ buyItem s u type id cost = (false, [])).
Proof.
  unfold buyItem. destruct (includes type id u); [left; split; reflexivity | right].
  destruct (coins s >=? cost)%Z eqn:Hc; [left | right];
    (split; [reflexivity |]); (split; [| reflexivity]).
  - apply Zgeb_true, Hc.
  - apply Zgeb_false, Hc.
Qed.

(** X18.  [buyItem] answers true exactly when the item is already
    unlocked or the coins cover its cost.  After the render that applies its
    updates the item is unlocked in that case, and the coins went down by the
    cost only if it was not unlocked before; a refusal changes nothing.
    Asking again then gives the same answer and queues nothing: an item is
    paid for once. *)
Theorem purchase_charges_once_and_unlocks (s : State) (u : UnlockedItems)
    (type : ItemType) (id : string) (cost : Z) :
  let ok := fst (buyItem s u type id cost) in
  let su' := purchase (s, u) (type, id, cost) in
  (ok = true <-> includes type id u = true \/ (cost <= coins s)%Z) /\
  (ok = true -> includes type id (snd su') = true) /\
  (ok = false -> su' = (s, u)) /\
  coins (fst su') =
    (if ok && negb (includes type id u) then coins s - cost else coins s)%Z /\
  buyItem (fst su') (snd su') type id cost = (ok, []).
Proof.
  intros ok su'. subst ok su'. unfold purchase. cbn [fst snd].
  destruct (buyItem_cases s u type id cost)
    as [(Hin & ->) | [(Hin & Hc & ->) | (Hin & Hc & ->)]];
    cbn [fst snd fold_left]; rewrite Hin; cbn [andb negb].
  - repeat split; try discriminate; auto.
    unfold buyItem. rewrite Hin. reflexivity.
  - split; [split; auto |]. split; [intros _; apply includes_added |].
    split; [discriminate |]. split; [destruct type; reflexivity |].
    unfold buyItem. rewrite includes_added. reflexivity.
  - split; [split; [discriminate | intros [H | H]; [discriminate | lia]] |].
    split; [discriminate |]. split; [reflexivity |]. split; [reflexivity |].
    unfold buyItem. rewrite Hin.
    replace (coins s >=? cost)%Z with false by (symmetry; apply Zgeb_false, Hc).
    reflexivity.
Qed.

Lemma purchase_invariant su item :
  shopInvariant su ->
  shopInvariant (purchase su item) /\
  forall type id, includes type id (snd su) = true ->
                  includes type id (snd (purchase su item)) = true.
Proof.
  destruct su as [s u], item as [[type id] cost]. intros (Hc & Hco & Hsp & Hti).
  unfold purchase. cbn [fst snd] in *.
  destruct (buyItem_cases s u type id cost)
    as [(Hin & ->) | [(Hin & Hle & ->) | (Hin & Hlt & ->)]];
    cbn [fst snd fold_left].
  - split; [repeat split; assumption | auto].
  - split.
    + assert (forall l : list string, NoDup l -> id ∉ l -> NoDup (l ++ [id])) as Happ.
      { intros l Hl Hn. apply NoDup_app. split; [exact Hl |]. split.
        - intros x Hx Hx'. apply list_elem_of_singleton in Hx'. subst x. exact (Hn Hx).
        - apply NoDup_singleton. }
      destruct type; cbn in Hin; apply bool_decide_eq_false_1 in Hin;
        (split; [cbn; lia |]); cbn; repeat split; auto.
    + intros type' id' H. apply includes_kept, includes_kept. exact H.
  - split; [repeat split; assumption | auto].
Qed.

(** X19.  Whatever is bought, in whatever order, the coins never go
    below zero, no unlocked list ever names an item twice, and an unlocked
    item stays unlocked. *)
Theorem shop_never_overdraws_nor_duplicates items su :
  shopInvariant su ->
  let su' := fold_left purchase items su in
  shopInvariant su' /\
  forall type id, includes type id (snd su) = true -> includes type id (snd su') = true.
Proof.
  revert su. induction items as [| item items IH]; intros su Hinv; cbn [fold_left].
  - split; [exact Hinv | auto].
  - destruct (purchase_invariant su item Hinv) as [Hinv' Hkept].
    destruct (IH _ Hinv') as [Hinv'' Hkept'].
    split; [exact Hinv'' |]. intros type id H. apply Hkept', Hkept, H.
Qed.

(** Witness of [shop_never_overdraws_nor_duplicates]: 250 coins, the
    blue paint bought twice, then grip tires, then the gold paint, which the
    remaining coins do not cover. *)
Lemma shop_never_overdraws_nor_duplicates_witness :
  shopInvariant (profile 250) /\
  shopInvariant
    (fold_left purchase
       [(color, "#3b82f6", 50%Z); (color, "#3b82f6", 50%Z); (tire, "GRIP", 200%Z);
        (color, "#f59e0b", 500%Z)]
       (profile 250)).
Proof.
  assert (shopInvariant (profile 250)) as H.
  { split; [cbn; lia |]. repeat split; apply NoDup_singleton. }
  split; [exact H |].
  exact (proj1 (shop_never_overdraws_nor_duplicates
                  [(color, "#3b82f6", 50%Z); (color, "#3b82f6", 50%Z); (tire, "GRIP", 200%Z);
                   (color, "#f59e0b", 500%Z)]
                  (profile 250) H)).
Defined.

(** * Collision and scroll-past through a frame *)





(** ** The timers on a track with nothing to start them *)




(** ** A plain track stays plain *)








(** ** On a run the timers are at rest *)




(** ** The shield *)





(** ** Scroll-past, through the frame *)
















